(** * tfortools: the Config object, its options and the documented engine

    A shallow embedding of [tfortools.go] (package [tfortools]) and of the
    operations its function table names.

    - Go strings are byte strings: Rocq's [string].
    - Go's [int] and [rune] are [Z]; slice indices that the code keeps in
      range are [nat].
    - [template.FuncMap] is a finite map from names to function values:
      [gmap string Func].
    - A method with a pointer receiver that updates the Config returns the
      updated Config; an [error] result is [option string], with [None] for
      Go's [nil]. *)

From Stdlib Require Import ZArith List Permutation Sorted Lia Ascii String.
From Stdlib Require Import DecimalString DecimalZ.
From stdpp Require Import base gmap strings list sorting.

Open Scope string_scope.
Open Scope Z_scope.

(** ** Go strings as byte strings *)

Definition byte_of (a : ascii) : Z := Z.of_N (N_of_ascii a).

(** [s[i]]; Go panics when [i] is out of range, the callers below keep it in
    range and the model reads 0 there. *)
Definition byte_at (s : string) (i : Z) : Z :=
  if i <? 0 then 0
  else match String.get (Z.to_nat i) s with
       | Some a => byte_of a
       | None => 0
       end.

Definition len (s : string) : Z := Z.of_nat (String.length s).

(** [s[lo:hi]] *)
Definition slice (s : string) (lo hi : Z) : string :=
  String.substring (Z.to_nat lo) (Z.to_nat (hi - lo)) s.

(** ** unicode/utf8 *)

Module utf8.

Definition RuneError : Z := 65533.
Definition RuneSelf : Z := 128.
Definition UTFMax : Z := 4.

Definition maskx : Z := 63.
Definition mask2 : Z := 31.
Definition mask3 : Z := 15.
Definition mask4 : Z := 7.
Definition locb : Z := 128.
Definition hicb : Z := 191.

(** The codes of the [first] table: the low three bits give the size of the
    encoding, the high four the row of [acceptRanges]. *)
Definition xx : Z := 241.
Definition as_ : Z := 240.
Definition s1 : Z := 2.
Definition s2 : Z := 19.
Definition s3 : Z := 3.
Definition s4 : Z := 35.
Definition s5 : Z := 52.
Definition s6 : Z := 4.
Definition s7 : Z := 68.

Definition first (b : Z) : Z :=
  if b <? 128 then as_
  else if b <? 194 then xx
  else if b <? 224 then s1
  else if b =? 224 then s2
  else if b <? 237 then s3
  else if b =? 237 then s4
  else if b <? 240 then s3
  else if b =? 240 then s5
  else if b <? 244 then s6
  else if b =? 244 then s7
  else xx.

Definition acceptRanges (i : Z) : Z * Z :=
  if i =? 0 then (locb, hicb)
  else if i =? 1 then (160, hicb)
  else if i =? 2 then (locb, 159)
  else if i =? 3 then (144, hicb)
  else if i =? 4 then (locb, 143)
  else (0, 0).

(** [RuneStart]: the byte is not a continuation byte. *)
Definition RuneStart (b : Z) : bool := negb (Z.land b 192 =? 128).

(** The string made of the given bytes. *)
Fixpoint of_bytes (l : list Z) : string :=
  match l with
  | [] => ""
  | b :: l' => String (ascii_of_N (Z.to_N b)) (of_bytes l')
  end.

Definition rune1Max : Z := 127.
Definition rune2Max : Z := 2047.
Definition rune3Max : Z := 65535.
Definition MaxRune : Z := 1114111.
Definition surrogateMin : Z := 55296.
Definition surrogateMax : Z := 57343.
Definition tx : Z := 128.
Definition t2 : Z := 192.
Definition t3 : Z := 224.
Definition t4 : Z := 240.

(** [EncodeRune]: the bytes of a rune (what [string(r)] holds); a rune that
    is out of range or a surrogate is written as [RuneError]. *)
Definition encode3 (r : Z) : string :=
  of_bytes [ Z.lor t3 (Z.shiftr r 12);
             Z.lor tx (Z.land (Z.shiftr r 6) maskx);
             Z.lor tx (Z.land r maskx) ].

Definition EncodeRune (r : Z) : string :=
  if r <? 0 then encode3 RuneError
  else if r <=? rune1Max then of_bytes [r]
  else if r <=? rune2Max then
    of_bytes [ Z.lor t2 (Z.shiftr r 6); Z.lor tx (Z.land r maskx) ]
  else if (MaxRune <? r) || ((surrogateMin <=? r) && (r <=? surrogateMax)) then
    encode3 RuneError
  else if r <=? rune3Max then encode3 r
  else
    of_bytes [ Z.lor t4 (Z.shiftr r 18);
               Z.lor tx (Z.land (Z.shiftr r 12) maskx);
               Z.lor tx (Z.land (Z.shiftr r 6) maskx);
               Z.lor tx (Z.land r maskx) ].

(** [DecodeRuneInString]: the first rune of [s] and its width in bytes.
    The decoder reads [s] through [len(s)] and [s[0]] .. [s[3]] only;
    [decode n at_] is its body on the length [n] and the indexing [at_]. *)
Definition decode (n : Z) (at_ : Z -> Z) : Z * Z :=
  if n <? 1 then (RuneError, 0)
  else
    let s0 := at_ 0 in
    let x := first s0 in
    if as_ <=? x then
      (* the mask of the source: the byte itself for [as], RuneError for [xx] *)
      (if x =? as_ then s0 else RuneError, 1)
    else
      let sz := Z.land x 7 in
      let accept := acceptRanges (Z.shiftr x 4) in
      if n <? sz then (RuneError, 1)
      else
        let s1 := at_ 1 in
        if (s1 <? fst accept) || (snd accept <? s1) then (RuneError, 1)
        else if sz <=? 2 then
          (Z.lor (Z.shiftl (Z.land s0 mask2) 6) (Z.land s1 maskx), 2)
        else
          let s2 := at_ 2 in
          if (s2 <? locb) || (hicb <? s2) then (RuneError, 1)
          else if sz <=? 3 then
            (Z.lor (Z.lor (Z.shiftl (Z.land s0 mask3) 12)
                          (Z.shiftl (Z.land s1 maskx) 6))
                   (Z.land s2 maskx), 3)
          else
            let s3 := at_ 3 in
            if (s3 <? locb) || (hicb <? s3) then (RuneError, 1)
            else
              (Z.lor (Z.lor (Z.lor (Z.shiftl (Z.land s0 mask4) 18)
                                   (Z.shiftl (Z.land s1 maskx) 12))
                            (Z.shiftl (Z.land s2 maskx) 6))
                     (Z.land s3 maskx), 4).

Definition DecodeRuneInString (s : string) : Z * Z :=
  decode (len s) (byte_at s).

(** The backward scan of [DecodeLastRuneInString]:
    [for start--; start >= lim; start-- { if RuneStart(s[start]) { break } }],
    entered after the first [start--].  It runs at most [UTFMax - 1] times. *)
Fixpoint scan_start (fuel : nat) (s : string) (lim start : Z) : Z :=
  match fuel with
  | O => start
  | S fuel' =>
      if start <? lim then start
      else if RuneStart (byte_at s start) then start
      else scan_start fuel' s lim (start - 1)
  end.

(** [DecodeLastRuneInString]: the last rune of [s] and its width. *)
Definition DecodeLastRuneInString (s : string) : Z * Z :=
  let end_ := len s in
  if end_ =? 0 then (RuneError, 0)
  else
    let start := end_ - 1 in
    let r := byte_at s start in
    if r <? RuneSelf then (r, 1)
    else
      let lim := Z.max 0 (end_ - UTFMax) in
      let start := scan_start 4 s lim (start - 1) in
      let start := Z.max 0 start in
      let '(r, size) := DecodeRuneInString (slice s start end_) in
      if negb (start + size =? end_) then (RuneError, 1)
      else (r, size).

End utf8.

(** ** unicode *)

Module unicode.

Definition MaxLatin1 : Z := 255.

(** The [White_Space] range table above Latin-1 ([R16] past [LatinOffset];
    [R32] is empty). *)
Definition White_Space_R16 : list (Z * Z) :=
  [ (5760, 5760); (8192, 8202); (8232, 8233); (8239, 8239);
    (8287, 8287); (12288, 12288) ].

Definition IsSpace (r : Z) : bool :=
  if (0 <=? r) && (r <=? MaxLatin1) then
    (* '\t', '\n', '\v', '\f', '\r', ' ', U+0085 (NEL), U+00A0 (NBSP) *)
    ((9 <=? r) && (r <=? 13)) || (r =? 32) || (r =? 133) || (r =? 160)
  else
    existsb (fun '(lo, hi) => (lo <=? r) && (r <=? hi)) White_Space_R16.

End unicode.

(** ** strings *)

Module strings.

(** [lastIndexFunc(s, f, truth)]: the loop
    [for i := len(s); i > 0; { r, size := DecodeLastRuneInString(s[0:i]);
    i -= size; if f(r) == truth { return i } } return -1].
    Every turn takes at least one byte off, so [length s] turns are enough. *)
Fixpoint lastIndexFunc_loop (fuel : nat) (s : string) (f : Z -> bool)
    (truth : bool) (i : Z) : Z :=
  match fuel with
  | O => -1
  | S fuel' =>
      if i >? 0 then
        let '(r, size) := utf8.DecodeLastRuneInString (slice s 0 i) in
        let i := i - size in
        if Bool.eqb (f r) truth then i
        else lastIndexFunc_loop fuel' s f truth i
      else -1
  end.

Definition lastIndexFunc (s : string) (f : Z -> bool) (truth : bool) : Z :=
  lastIndexFunc_loop (String.length s) s f truth (len s).

(** [TrimRightFunc(s, f)]: [s] without its trailing runes that satisfy [f]. *)
Definition TrimRightFunc (s : string) (f : Z -> bool) : string :=
  let i := lastIndexFunc s f false in
  let i :=
    if (0 <=? i) && (utf8.RuneSelf <=? byte_at s i) then
      i + snd (utf8.DecodeRuneInString (slice s i (len s)))
    else i + 1 in
  slice s 0 i.

End strings.

(** ** The decoder by the class of the leading byte

    [decode] packs the class of the leading byte into the codes of [first].
    The same decoder, written out by the range of the leading byte, is what
    the proofs below work with. *)

Definition rune2 (s0 s1 : Z) : Z :=
  Z.lor (Z.shiftl (Z.land s0 utf8.mask2) 6) (Z.land s1 utf8.maskx).
Definition rune3 (s0 s1 s2 : Z) : Z :=
  Z.lor (Z.lor (Z.shiftl (Z.land s0 utf8.mask3) 12)
               (Z.shiftl (Z.land s1 utf8.maskx) 6))
        (Z.land s2 utf8.maskx).
Definition rune4 (s0 s1 s2 s3 : Z) : Z :=
  Z.lor (Z.lor (Z.lor (Z.shiftl (Z.land s0 utf8.mask4) 18)
                      (Z.shiftl (Z.land s1 utf8.maskx) 12))
               (Z.shiftl (Z.land s2 utf8.maskx) 6))
        (Z.land s3 utf8.maskx).

(** The second byte that a leading byte accepts, and a continuation byte. *)
Definition accepts (s0 s1 : Z) : bool :=
  (128 <=? s1) && (s1 <=? 191) &&
  (if s0 =? 224 then 160 <=? s1
   else if s0 =? 237 then s1 <=? 159
   else if s0 =? 240 then 144 <=? s1
   else if s0 =? 244 then s1 <=? 143
   else true).

Definition cont (b : Z) : bool := (128 <=? b) && (b <=? 191).

(** The decoder by the class of the leading byte. *)
Definition decode_by_class (n : Z) (at_ : Z -> Z) : Z * Z :=
  if n <? 1 then (utf8.RuneError, 0)
  else if at_ 0 <? 128 then (at_ 0, 1)
  else if (194 <=? at_ 0) && (at_ 0 <=? 223) then
    if (2 <=? n) && accepts (at_ 0) (at_ 1)
    then (rune2 (at_ 0) (at_ 1), 2) else (utf8.RuneError, 1)
  else if (224 <=? at_ 0) && (at_ 0 <=? 239) then
    if (3 <=? n) && accepts (at_ 0) (at_ 1) && cont (at_ 2)
    then (rune3 (at_ 0) (at_ 1) (at_ 2), 3) else (utf8.RuneError, 1)
  else if (240 <=? at_ 0) && (at_ 0 <=? 244) then
    if (4 <=? n) && accepts (at_ 0) (at_ 1) && cont (at_ 2) && cont (at_ 3)
    then (rune4 (at_ 0) (at_ 1) (at_ 2) (at_ 3), 4) else (utf8.RuneError, 1)
  else (utf8.RuneError, 1).


(** What makes [DecodeLastRuneInString] find a rune at the end of a string
    by its encoding alone: the encoding has at most three bytes, decodes to
    the rune, starts with a byte that starts a rune and goes on with bytes
    that do not. *)
Definition suffix_ok (r : Z) : bool :=
  let e := utf8.EncodeRune r in
  (1 <=? len e) && (len e <=? 3) &&
  (fst (utf8.DecodeRuneInString e) =? r) &&
  (snd (utf8.DecodeRuneInString e) =? len e) &&
  (if len e =? 1 then byte_at e 0 <? 128
   else utf8.RuneStart (byte_at e 0) && (128 <=? byte_at e (len e - 1))) &&
  (if len e =? 3 then negb (utf8.RuneStart (byte_at e 1)) else true) &&
  negb (cont (byte_at e 0)).


(** A string of white space: the encodings of runes that [unicode.IsSpace]
    accepts, one after the other.  The empty string is one. *)
Definition encode_runes (rs : list Z) : string :=
  fold_right (fun r rest => utf8.EncodeRune r +:+ rest) "" rs.

Definition only_space (s : string) : Prop :=
  exists rs : list Z,
    Forall (fun r => unicode.IsSpace r = true) rs /\ s = encode_runes rs.

(** The runes [unicode.IsSpace] accepts. *)
Definition space_runes : list Z :=
  [ 9; 10; 11; 12; 13; 32; 133; 160; 5760;
    8192; 8193; 8194; 8195; 8196; 8197; 8198; 8199; 8200; 8201; 8202;
    8232; 8233; 8239; 8287; 12288 ].

(** * tfortools.go *)

(** ** The priority constants

    [const ( helpFilterIndex = iota ... helpIndexCount )]: they fix the order
    in which the usage texts of the package's functions are presented. *)

Definition helpFilterIndex : Z := 0.
Definition helpFilterContainsIndex : Z := 1.
Definition helpFilterHasPrefixIndex : Z := 2.
Definition helpFilterHasSuffixIndex : Z := 3.
Definition helpFilterFoldedIndex : Z := 4.
Definition helpFilterRegexpIndex : Z := 5.
Definition helpToJSONIndex : Z := 6.
Definition helpToCSVIndex : Z := 7.
Definition helpSelectIndex : Z := 8.
Definition helpSelectAltIndex : Z := 9.
Definition helpTableIndex : Z := 10.
Definition helpTableAltIndex : Z := 11.
Definition helpTableXIndex : Z := 12.
Definition helpTableXAltIndex : Z := 13.
Definition helpHTableIndex : Z := 14.
Definition helpHTableAltIndex : Z := 15.
Definition helpHTableXIndex : Z := 16.
Definition helpHTableXAltIndex : Z := 17.
Definition helpColsIndex : Z := 18.
Definition helpSortIndex : Z := 19.
Definition helpRowsIndex : Z := 20.
Definition helpHeadIndex : Z := 21.
Definition helpTailIndex : Z := 22.
Definition helpDescribeIndex : Z := 23.
Definition helpPromoteIndex : Z := 24.
Definition helpSliceofIndex : Z := 25.
Definition helpToTableIndex : Z := 26.
Definition helpIndexCount : Z := 27.

(** ** funcHelpInfo and Config *)

Record funcHelpInfo : Type := mkFuncHelpInfo {
  name : string;
  help : string;
  index : Z
}.

(** The values of a [template.FuncMap] are function values held as
    [interface{}].  The model keeps their identity only: a function of the
    package, by its Go identifier, or a function supplied by the caller. *)
Inductive Func : Type :=
| PkgFn (symbol : string)
| UserFn (id : positive).

(** [Config]: both members are private.  A Config comes from [NewConfig],
    which allocates [funcMap]; [funcHelp] starts as the nil slice. *)
Record Config : Type := mkConfig {
  funcMap : gmap string Func;
  funcHelp : list funcHelpInfo
}.

#[global] Instance funcHelpInfo_eq_dec : EqDecision funcHelpInfo.
Proof. solve_decision. Defined.

#[global] Instance Func_eq_dec : EqDecision Func.
Proof. solve_decision. Defined.

#[global] Instance Config_eq_dec : EqDecision Config.
Proof. solve_decision. Defined.

(** [sort.Interface] on [*Config].  [Swap] and [Less] index [c.funcHelp];
    Go panics on an index out of range, which [sort.Sort] never passes: the
    model leaves the Config alone, respectively answers [false], there. *)
Definition Len (c : Config) : nat := length (funcHelp c).

Definition Swap (c : Config) (i j : nat) : Config :=
  match funcHelp c !! i, funcHelp c !! j with
  | Some hi, Some hj =>
      {| funcMap := funcMap c;
         funcHelp := <[j := hi]> (<[i := hj]> (funcHelp c)) |}
  | _, _ => c
  end.

Definition Less (c : Config) (i j : nat) : bool :=
  match funcHelp c !! i, funcHelp c !! j with
  | Some hi, Some hj => index hi <? index hj
  | _, _ => false
  end.

(** ** Usage texts *)

Definition nl : string := String (ascii_of_nat 10) EmptyString.

(** The [help...] constants, byte for byte.  A quotation mark inside a text
    is spliced in as [dq]. *)

Definition dq : string := String (ascii_of_nat 34) EmptyString.

Definition helpFilter : string :=
"- 'filter' operates on an slice or array of structures.  It allows the caller
  to filter the input array based on the value of a single field.
  The function returns a slice containing only the objects that satisfy the
  filter, e.g.

  {{len (filter . " +:+ dq +:+
"Protected" +:+ dq +:+
" " +:+ dq +:+
"true" +:+ dq +:+
")}}

  outputs the number of elements whose " +:+ dq +:+
"Protected" +:+ dq +:+
" field is equal to " +:+ dq +:+
"true" +:+ dq +:+
".
".

Definition helpFilterContains : string :=
"- 'filterContains' operates along the same lines as filter, but returns
  substring matches

  {{len(filterContains . " +:+ dq +:+
"Name" +:+ dq +:+
" " +:+ dq +:+
"Cloud" +:+ dq +:+
"}})

  outputs the number of elements whose " +:+ dq +:+
"Name" +:+ dq +:+
" field contains the word " +:+ dq +:+
"Cloud" +:+ dq +:+
".
".

Definition helpFilterHasPrefix : string :=
"- 'filterHasPrefix' is similar to filter, but returns prefix matches.
".

Definition helpFilterHasSuffix : string :=
"- 'filterHasSuffix' is similar to filter, but returns suffix matches.
".

Definition helpFilterFolded : string :=
"- 'filterFolded' is similar to filter, but returns matches based on equality
  under Unicode case-folding.
".

Definition helpFilterRegexp : string :=
"- 'filterRegexp' is similar to filter, but returns matches based on regular
  expression matching

  {{len (filterRegexp . " +:+ dq +:+
"Name" +:+ dq +:+
" " +:+ dq +:+
"^Docker[ a-zA-z]*latest$" +:+ dq +:+
"}})

  outputs the number of elements whose " +:+ dq +:+
"Name" +:+ dq +:+
" field have 'Docker' as a prefix
  and 'latest' as a suffix in their name.
".

Definition helpToJSON : string :=
"- 'tojson' outputs the target object in json format, e.g., {{tojson .}}
".

Definition helpToCSV : string :=
"- 'tocsv' converts a [][]string or a slice of structs to csv format, e.g.,
  {{tocsv .}}

  'tocsv' takes an optional boolean parameter, which if true, omits the
  first row containing the structure field name derived column headings.
  This boolean parameter defaults to false and is ignored when operating
  on a [][]string.
".

Definition helpSelect : string :=
"- 'select' operates on a slice of structs.  It outputs the value of a specified
  field for each struct on a new line , e.g.,

  {{select . " +:+ dq +:+
"Name" +:+ dq +:+
"}}

  prints the 'Name' field of each structure in the slice.
".

Definition helpSelectAlt : string :=
"- 'selectalt' Similar to select except that objects are formatted using %#v
".

Definition helpTable : string :=
"- 'table' outputs a table given an array or a slice of structs.  The table
  headings are taken from the names of the structs fields.  Hidden fields and
  fields of type channel are ignored.  The tabwidth and minimum column width
  are hardcoded to 8.  An example of table's usage is

  {{table .}}
".

Definition helpTableAlt : string :=
"- 'tablealt' Similar to table except that objects are formatted using %#v
".

Definition helpTableX : string :=
"- 'tablex' is similar to table but it allows the caller more control over the
  table's appearance.  Users can control the names of the headings and also set
  the tab and column width.  'tablex' takes 4 or more parameters.  The first
  parameter is the slice of structs to output, the second is the minimum column
  width, the third the tab width  and the fourth is the padding.  The fifth and
  subsequent parameters are the names of the column headings.  The column
  headings are optional and the field names of the structure will be used if
  they are absent.  Example of its usage are:

  {{tablex . 12 8 1 " +:+ dq +:+
"Column 1" +:+ dq +:+
" " +:+ dq +:+
"Column 2" +:+ dq +:+
"}}
  {{tablex . 8 8 1}}
".

Definition helpTableXAlt : string :=
"- 'tablexalt' Similar to tablex except that objects are formatted using %#v
".

Definition helpHTable : string :=
"- 'htable' outputs each element of an array or a slice of structs
  in its own two column table.  The values for the first column are taken from
  the names of the structs' fields.  The second column contains the field values.
  Hidden fields and fields of type channel are ignored. The tabwidth and minimum
  column width are hardcoded to 8.  An example of htable's usage is

  {{htable .}}
".

Definition helpHTableAlt : string :=
"- 'htablealt' Similar to htable except that objects are formatted using %#v
".

Definition helpHTableX : string :=
"- 'htablex' is similar to htable but it allows the caller more control over the
  tables' appearances.  Users can control the names displayed in the first column
  and also set the tab and column width.  'htablex' takes 4 or more parameters.
  The first parameter is the slice of structs to output, the second is the minimum
  column width, the third the tab width  and the fourth is the padding.  The
  fifth and subsequent parameters are the values displayed in the first column
  of each table.  These first column values are optional and the field names of
  the structures will be used if they are absent.  Example of its usage are:

  {{htablex . 12 8 1 " +:+ dq +:+
"Field 1" +:+ dq +:+
" " +:+ dq +:+
"Field 2" +:+ dq +:+
"}}
  {{htablex . 8 8 1}}
".

Definition helpHTableXAlt : string :=
"- 'htablexalt' Similar to htablex except that objects are formatted using %#v
".

Definition helpCols : string :=
"- 'cols' can be used to extract certain columns from a table consisting of a
  slice or array of structs.  It returns a new slice of structs which contain
  only the fields requested by the caller.   For example, given a slice of structs

  {{cols . " +:+ dq +:+
"Name" +:+ dq +:+
" " +:+ dq +:+
"Address" +:+ dq +:+
"}}

  returns a new slice of structs, each element of which is a structure with only
  two fields, 'Name' and 'Address'.
".

Definition helpSort : string :=
"- 'sort' sorts a slice or an array of structs.  It takes three parameters.  The
  first is the slice; the second is the name of the structure field by which to
  'sort'; the third provides the direction of the 'sort'.  The third parameter is
  optional.  If provided, it must be either " +:+ dq +:+
"asc" +:+ dq +:+
" or " +:+ dq +:+
"dsc" +:+ dq +:+
".  If omitted the
  elements of the slice are sorted in ascending order.  The type of the second
  field can be a number or a string.  When presented with another type, 'sort'
  will try to sort the elements by the string representation of the chosen field.
  The following example sorts a slice in ascending order by the Name field.
  
  {{sort . " +:+ dq +:+
"Name" +:+ dq +:+
"}}
".

Definition helpRows : string :=
"- 'rows' is used to extract a set of given rows from a slice or an array.  It
  takes at least two parameters. The first is the slice on which to operate.
  All subsequent parameters must be integers that correspond to a row in the
  input slice.  Indicies that refer to non-existent rows are ignored.  For
  example:

  {{rows . 1 2}}

  extracts the 2nd and 3rd rows from the slice represented by '.'.
".

Definition helpHead : string :=
"- 'head' operates on a slice or an array, returning the first n elements of
  that array as a new slice.  If n is not provided, a slice containing the
  first element of the input slice is returned.  For example,

  {{ head .}}

  returns a single element slice containing the first element of '.' and

  {{ head . 3}}

  returns a slice containing the first three elements of '.'.  If '.' contains
  only 2 elements the slice returned by {{ head . 3}} would be identical to the
  input slice.
".

Definition helpTail : string :=
"- 'tail' is similar to head except that it returns a slice containing the last
  n elements of the input slice.  For example,

  {{tail . 2}}

  returns a new slice containing the last two elements of '.'.
".

Definition helpDescribe : string :=
"- 'describe' takes a single argument and outputs a description of the
  type of that argument.  It can be useful if the type of the object
  operated on by a template program is not described in the help of the
  tool that executes the template.

  {{describe . }}

 outputs a description of the type of '.'.
".

Definition helpPromote : string :=
"- 'promote' takes two arguments, a slice or an array of structures and a field
  path.  It returns a new slice containing only the objects identified by the
  field path.  The field path is a period separated list of structure field
  names.  Promote can be useful to extract a set of objects deep within a data
  structure into a new slice that can be passed to other functions, e.g., table.
  For example, given the following type
 
   []struct {
      uninteresting int
      user struct {
          credentials struct {
              name string
              password string
          }
      }
  }

  {{promote . " +:+ dq +:+
"user.credentials" +:+ dq +:+
"}}

  returns a slice of credentials one for each element of the original top level
  slice.
".

Definition helpSliceof : string :=
"- 'sliceof' takes one argument and returns a new slice containing only that
argument.
".

Definition helpToTable : string :=
"- 'totable' converts a slice of a slice of strings into a slice of
  structures.  The field names of the structures are taken from the values of
  the first row in the slice.  The types of the fields are derived from the
  values specified in the second row.  The input slice should be of length 2
  or greater.  Data in columns in the second and subsequent rows should be
  homogenous.  The elements of the first row should be unique and ideally be
  valid exported variable names.  'totable' will try to sanitize the field
  names, if they are not valid go identifiers.
".


(** ** The package tables

    Modelled from the spec: the package variables [funcMap] and
    [funcHelpSlice] are declared outside tfortools.go.  [OptAllFns] is
    documented to enable all the template extension functions provided by the
    package, and [TemplateFunctionHelp] with a nil Config to describe all of
    them, so the tables hold one entry per function, in priority order. *)
Module pkg.

Definition funcHelpSlice : list funcHelpInfo :=
  [ {| name := "filter"; help := helpFilter; index := helpFilterIndex |};
    {| name := "filterContains"; help := helpFilterContains; index := helpFilterContainsIndex |};
    {| name := "filterHasPrefix"; help := helpFilterHasPrefix; index := helpFilterHasPrefixIndex |};
    {| name := "filterHasSuffix"; help := helpFilterHasSuffix; index := helpFilterHasSuffixIndex |};
    {| name := "filterFolded"; help := helpFilterFolded; index := helpFilterFoldedIndex |};
    {| name := "filterRegexp"; help := helpFilterRegexp; index := helpFilterRegexpIndex |};
    {| name := "tojson"; help := helpToJSON; index := helpToJSONIndex |};
    {| name := "tocsv"; help := helpToCSV; index := helpToCSVIndex |};
    {| name := "select"; help := helpSelect; index := helpSelectIndex |};
    {| name := "selectalt"; help := helpSelectAlt; index := helpSelectAltIndex |};
    {| name := "table"; help := helpTable; index := helpTableIndex |};
    {| name := "tablealt"; help := helpTableAlt; index := helpTableAltIndex |};
    {| name := "tablex"; help := helpTableX; index := helpTableXIndex |};
    {| name := "tablexalt"; help := helpTableXAlt; index := helpTableXAltIndex |};
    {| name := "htable"; help := helpHTable; index := helpHTableIndex |};
    {| name := "htablealt"; help := helpHTableAlt; index := helpHTableAltIndex |};
    {| name := "htablex"; help := helpHTableX; index := helpHTableXIndex |};
    {| name := "htablexalt"; help := helpHTableXAlt; index := helpHTableXAltIndex |};
    {| name := "cols"; help := helpCols; index := helpColsIndex |};
    {| name := "sort"; help := helpSort; index := helpSortIndex |};
    {| name := "rows"; help := helpRows; index := helpRowsIndex |};
    {| name := "head"; help := helpHead; index := helpHeadIndex |};
    {| name := "tail"; help := helpTail; index := helpTailIndex |};
    {| name := "describe"; help := helpDescribe; index := helpDescribeIndex |};
    {| name := "promote"; help := helpPromote; index := helpPromoteIndex |};
    {| name := "sliceof"; help := helpSliceof; index := helpSliceofIndex |};
    {| name := "totable"; help := helpToTable; index := helpToTableIndex |} ].

Definition funcMap : gmap string Func :=
  list_to_map
  [ ("filter", PkgFn "filterByField");
    ("filterContains", PkgFn "filterByContains");
    ("filterHasPrefix", PkgFn "filterByHasPrefix");
    ("filterHasSuffix", PkgFn "filterByHasSuffix");
    ("filterFolded", PkgFn "filterByFolded");
    ("filterRegexp", PkgFn "filterByRegexp");
    ("tojson", PkgFn "toJSON");
    ("tocsv", PkgFn "toCSV");
    ("select", PkgFn "selectField");
    ("selectalt", PkgFn "selectFieldAlt");
    ("table", PkgFn "table");
    ("tablealt", PkgFn "tableAlt");
    ("tablex", PkgFn "tablex");
    ("tablexalt", PkgFn "tablexAlt");
    ("htable", PkgFn "htable");
    ("htablealt", PkgFn "htableAlt");
    ("htablex", PkgFn "htablex");
    ("htablexalt", PkgFn "htablexAlt");
    ("cols", PkgFn "cols");
    ("sort", PkgFn "sortSlice");
    ("rows", PkgFn "rows");
    ("head", PkgFn "head");
    ("tail", PkgFn "tail");
    ("describe", PkgFn "describe");
    ("promote", PkgFn "promote");
    ("sliceof", PkgFn "sliceof");
    ("totable", PkgFn "toTable") ].

End pkg.

(** Modelled from the spec: [getFuncMap] and [getHelpers] are declared outside
    tfortools.go.  Their callers document them: with a nil Config all the
    functions of the package are meant, otherwise those of the Config. *)
Definition getFuncMap (cfg : option Config) : gmap string Func :=
  match cfg with
  | None => pkg.funcMap
  | Some c => funcMap c
  end.

Definition getHelpers (cfg : option Config) : list funcHelpInfo :=
  match cfg with
  | None => pkg.funcHelpSlice
  | Some c => funcHelp c
  end.

(** ** AddCustomFn *)

Definition AddCustomFn (c : Config) (fn : Func) (name helpText : string)
    : Config * option string :=
  if decide (is_Some (funcMap c !! name)) then
    (c, Some (name +:+ " already exists"))
  else
    let c := {| funcMap := <[name := fn]> (funcMap c); funcHelp := funcHelp c |} in
    let helpText := strings.TrimRightFunc helpText unicode.IsSpace in
    if decide (helpText = "") then (c, None)
    else
      let helpText := helpText +:+ nl in
      ({| funcMap := funcMap c;
          funcHelp := funcHelp c ++
            [ {| name := name; help := helpText; index := helpIndexCount |} ] |},
       None).

(** ** The options *)

(** [OptAllFns]: both members are replaced by copies of the package tables. *)
Definition OptAllFns (c : Config) : Config :=
  {| funcMap := pkg.funcMap; funcHelp := pkg.funcHelpSlice |}.

Definition OptFilter (c : Config) : Config :=
  if decide (is_Some (funcMap c !! "filter")) then c
  else
    {| funcMap := <["filter" := PkgFn "filterByField"]> (funcMap c);
       funcHelp := funcHelp c ++ [ {| name := "filter"; help := helpFilter; index := helpFilterIndex |} ] |}.

Definition OptFilterContains (c : Config) : Config :=
  if decide (is_Some (funcMap c !! "filterContains")) then c
  else
    {| funcMap := <["filterContains" := PkgFn "filterByContains"]> (funcMap c);
       funcHelp := funcHelp c ++ [ {| name := "filterContains"; help := helpFilterContains; index := helpFilterContainsIndex |} ] |}.

Definition OptFilterHasPrefix (c : Config) : Config :=
  if decide (is_Some (funcMap c !! "filterHasPrefix")) then c
  else
    {| funcMap := <["filterHasPrefix" := PkgFn "filterByHasPrefix"]> (funcMap c);
       funcHelp := funcHelp c ++ [ {| name := "filterHasPrefix"; help := helpFilterHasPrefix; index := helpFilterHasPrefixIndex |} ] |}.

Definition OptFilterHasSuffix (c : Config) : Config :=
  if decide (is_Some (funcMap c !! "filterHasSuffix")) then c
  else
    {| funcMap := <["filterHasSuffix" := PkgFn "filterByHasSuffix"]> (funcMap c);
       funcHelp := funcHelp c ++ [ {| name := "filterHasSuffix"; help := helpFilterHasSuffix; index := helpFilterHasSuffixIndex |} ] |}.

Definition OptFilterFolded (c : Config) : Config :=
  if decide (is_Some (funcMap c !! "filterFolded")) then c
  else
    {| funcMap := <["filterFolded" := PkgFn "filterByFolded"]> (funcMap c);
       funcHelp := funcHelp c ++ [ {| name := "filterFolded"; help := helpFilterFolded; index := helpFilterFoldedIndex |} ] |}.

Definition OptFilterRegexp (c : Config) : Config :=
  if decide (is_Some (funcMap c !! "filterRegexp")) then c
  else
    {| funcMap := <["filterRegexp" := PkgFn "filterByRegexp"]> (funcMap c);
       funcHelp := funcHelp c ++ [ {| name := "filterRegexp"; help := helpFilterRegexp; index := helpFilterRegexpIndex |} ] |}.

Definition OptAllFilters (c : Config) : Config :=
  let c := OptFilter c in
  let c := OptFilterContains c in
  let c := OptFilterHasPrefix c in
  let c := OptFilterHasSuffix c in
  let c := OptFilterFolded c in
  OptFilterRegexp c.

Definition OptToJSON (c : Config) : Config :=
  if decide (is_Some (funcMap c !! "tojson")) then c
  else
    {| funcMap := <["tojson" := PkgFn "toJSON"]> (funcMap c);
       funcHelp := funcHelp c ++ [ {| name := "tojson"; help := helpToJSON; index := helpToJSONIndex |} ] |}.

Definition OptToCSV (c : Config) : Config :=
  if decide (is_Some (funcMap c !! "tocsv")) then c
  else
    {| funcMap := <["tocsv" := PkgFn "toCSV"]> (funcMap c);
       funcHelp := funcHelp c ++ [ {| name := "tocsv"; help := helpToCSV; index := helpToCSVIndex |} ] |}.

Definition OptSelect (c : Config) : Config :=
  if decide (is_Some (funcMap c !! "select")) then c
  else
    {| funcMap := <["select" := PkgFn "selectField"]> (funcMap c);
       funcHelp := funcHelp c ++ [ {| name := "select"; help := helpSelect; index := helpSelectIndex |} ] |}.

Definition OptSelectAlt (c : Config) : Config :=
  if decide (is_Some (funcMap c !! "selectalt")) then c
  else
    {| funcMap := <["selectalt" := PkgFn "selectFieldAlt"]> (funcMap c);
       funcHelp := funcHelp c ++ [ {| name := "selectalt"; help := helpSelectAlt; index := helpSelectAltIndex |} ] |}.

Definition OptTable (c : Config) : Config :=
  if decide (is_Some (funcMap c !! "table")) then c
  else
    {| funcMap := <["table" := PkgFn "table"]> (funcMap c);
       funcHelp := funcHelp c ++ [ {| name := "table"; help := helpTable; index := helpTableIndex |} ] |}.

Definition OptTableAlt (c : Config) : Config :=
  if decide (is_Some (funcMap c !! "tablealt")) then c
  else
    {| funcMap := <["tablealt" := PkgFn "tableAlt"]> (funcMap c);
       funcHelp := funcHelp c ++ [ {| name := "tablealt"; help := helpTableAlt; index := helpTableAltIndex |} ] |}.

Definition OptTableX (c : Config) : Config :=
  if decide (is_Some (funcMap c !! "tablex")) then c
  else
    {| funcMap := <["tablex" := PkgFn "tablex"]> (funcMap c);
       funcHelp := funcHelp c ++ [ {| name := "tablex"; help := helpTableX; index := helpTableXIndex |} ] |}.

Definition OptTableXAlt (c : Config) : Config :=
  if decide (is_Some (funcMap c !! "tablexalt")) then c
  else
    {| funcMap := <["tablexalt" := PkgFn "tablexAlt"]> (funcMap c);
       funcHelp := funcHelp c ++ [ {| name := "tablexalt"; help := helpTableXAlt; index := helpTableXAltIndex |} ] |}.

Definition OptHTable (c : Config) : Config :=
  if decide (is_Some (funcMap c !! "htable")) then c
  else
    {| funcMap := <["htable" := PkgFn "htable"]> (funcMap c);
       funcHelp := funcHelp c ++ [ {| name := "htable"; help := helpHTable; index := helpHTableIndex |} ] |}.

Definition OptHTableAlt (c : Config) : Config :=
  if decide (is_Some (funcMap c !! "htablealt")) then c
  else
    {| funcMap := <["htablealt" := PkgFn "htableAlt"]> (funcMap c);
       funcHelp := funcHelp c ++ [ {| name := "htablealt"; help := helpHTableAlt; index := helpHTableAltIndex |} ] |}.

Definition OptHTableX (c : Config) : Config :=
  if decide (is_Some (funcMap c !! "htablex")) then c
  else
    {| funcMap := <["htablex" := PkgFn "htablex"]> (funcMap c);
       funcHelp := funcHelp c ++ [ {| name := "htablex"; help := helpHTableX; index := helpHTableXIndex |} ] |}.

Definition OptHTableXAlt (c : Config) : Config :=
  if decide (is_Some (funcMap c !! "htablexalt")) then c
  else
    {| funcMap := <["htablexalt" := PkgFn "htablexAlt"]> (funcMap c);
       funcHelp := funcHelp c ++ [ {| name := "htablexalt"; help := helpHTableXAlt; index := helpHTableXAltIndex |} ] |}.

Definition OptCols (c : Config) : Config :=
  if decide (is_Some (funcMap c !! "cols")) then c
  else
    {| funcMap := <["cols" := PkgFn "cols"]> (funcMap c);
       funcHelp := funcHelp c ++ [ {| name := "cols"; help := helpCols; index := helpColsIndex |} ] |}.

Definition OptSort (c : Config) : Config :=
  if decide (is_Some (funcMap c !! "sort")) then c
  else
    {| funcMap := <["sort" := PkgFn "sortSlice"]> (funcMap c);
       funcHelp := funcHelp c ++ [ {| name := "sort"; help := helpSort; index := helpSortIndex |} ] |}.

Definition OptRows (c : Config) : Config :=
  if decide (is_Some (funcMap c !! "rows")) then c
  else
    {| funcMap := <["rows" := PkgFn "rows"]> (funcMap c);
       funcHelp := funcHelp c ++ [ {| name := "rows"; help := helpRows; index := helpRowsIndex |} ] |}.

Definition OptHead (c : Config) : Config :=
  if decide (is_Some (funcMap c !! "head")) then c
  else
    {| funcMap := <["head" := PkgFn "head"]> (funcMap c);
       funcHelp := funcHelp c ++ [ {| name := "head"; help := helpHead; index := helpHeadIndex |} ] |}.

Definition OptTail (c : Config) : Config :=
  if decide (is_Some (funcMap c !! "tail")) then c
  else
    {| funcMap := <["tail" := PkgFn "tail"]> (funcMap c);
       funcHelp := funcHelp c ++ [ {| name := "tail"; help := helpTail; index := helpTailIndex |} ] |}.

Definition OptDescribe (c : Config) : Config :=
  if decide (is_Some (funcMap c !! "describe")) then c
  else
    {| funcMap := <["describe" := PkgFn "describe"]> (funcMap c);
       funcHelp := funcHelp c ++ [ {| name := "describe"; help := helpDescribe; index := helpDescribeIndex |} ] |}.

Definition OptPromote (c : Config) : Config :=
  if decide (is_Some (funcMap c !! "promote")) then c
  else
    {| funcMap := <["promote" := PkgFn "promote"]> (funcMap c);
       funcHelp := funcHelp c ++ [ {| name := "promote"; help := helpPromote; index := helpPromoteIndex |} ] |}.

Definition OptSliceof (c : Config) : Config :=
  if decide (is_Some (funcMap c !! "sliceof")) then c
  else
    {| funcMap := <["sliceof" := PkgFn "sliceof"]> (funcMap c);
       funcHelp := funcHelp c ++ [ {| name := "sliceof"; help := helpSliceof; index := helpSliceofIndex |} ] |}.

Definition OptToTable (c : Config) : Config :=
  if decide (is_Some (funcMap c !! "totable")) then c
  else
    {| funcMap := <["totable" := PkgFn "toTable"]> (funcMap c);
       funcHelp := funcHelp c ++ [ {| name := "totable"; help := helpToTable; index := helpToTableIndex |} ] |}.

(** The options of the package, as [NewConfig] takes them. *)
Definition package_options : list (Config -> Config) :=
  [ OptAllFns; OptAllFilters;
    OptFilter; OptFilterContains; OptFilterHasPrefix; OptFilterHasSuffix;
    OptFilterFolded; OptFilterRegexp; OptToJSON; OptToCSV; OptSelect;
    OptSelectAlt; OptTable; OptTableAlt; OptTableX; OptTableXAlt; OptHTable;
    OptHTableAlt; OptHTableX; OptHTableXAlt; OptCols; OptSort; OptRows;
    OptHead; OptTail; OptDescribe; OptPromote; OptSliceof; OptToTable ].

(** The options that enable one function each, with the name they guard. *)
Definition single_options : list (string * (Config -> Config)) :=
  [ ("filter", OptFilter); ("filterContains", OptFilterContains);
    ("filterHasPrefix", OptFilterHasPrefix);
    ("filterHasSuffix", OptFilterHasSuffix);
    ("filterFolded", OptFilterFolded); ("filterRegexp", OptFilterRegexp);
    ("tojson", OptToJSON); ("tocsv", OptToCSV); ("select", OptSelect);
    ("selectalt", OptSelectAlt); ("table", OptTable);
    ("tablealt", OptTableAlt); ("tablex", OptTableX);
    ("tablexalt", OptTableXAlt); ("htable", OptHTable);
    ("htablealt", OptHTableAlt); ("htablex", OptHTableX);
    ("htablexalt", OptHTableXAlt); ("cols", OptCols); ("sort", OptSort);
    ("rows", OptRows); ("head", OptHead); ("tail", OptTail);
    ("describe", OptDescribe); ("promote", OptPromote);
    ("sliceof", OptSliceof); ("totable", OptToTable) ].

(** The names [OptAllFilters] guards. *)
Definition filter_names : list string :=
  [ "filter"; "filterContains"; "filterHasPrefix"; "filterHasSuffix";
    "filterFolded"; "filterRegexp" ].

(** ** NewConfig *)

(** [sort.Sort] belongs to Go's library.  Its contract, on the
    [sort.Interface] of [*Config]: it only calls [Swap], so [funcMap] is left
    alone and [funcHelp] is rearranged, and afterwards no element is [Less]
    than one before it.  The sort is not promised to be stable. *)
Definition sort_Sort_contract (sort_Sort : Config -> Config) : Prop :=
  forall c : Config,
    funcMap (sort_Sort c) = funcMap c /\
    Permutation (funcHelp (sort_Sort c)) (funcHelp c) /\
    forall i j : nat,
      (i < j < Len (sort_Sort c))%nat -> Less (sort_Sort c) j i = false.

Definition NewConfig (sort_Sort : Config -> Config)
    (options : list (Config -> Config)) : Config :=
  let c := {| funcMap := ∅; funcHelp := [] |} in
  let c := fold_left (fun c f => f c) options c in
  sort_Sort c.

(** A sort that meets the contract: insertion by [index], used to run
    [NewConfig]. *)
Fixpoint insert_by_index (h : funcHelpInfo) (l : list funcHelpInfo)
    : list funcHelpInfo :=
  match l with
  | [] => [h]
  | x :: l' => if index h <? index x then h :: l else x :: insert_by_index h l'
  end.

Definition insertion_sort (c : Config) : Config :=
  {| funcMap := funcMap c;
     funcHelp := fold_right insert_by_index [] (funcHelp c) |}.

(** ** The help functions *)

Definition help_header : string :=
  "Some new functions have been added to Go's template language" +:+ nl +:+ nl.

Definition TemplateFunctionHelp (c : option Config) : string :=
  fold_left (fun b h => b +:+ help h) (getHelpers c) help_header.

Definition TemplateFunctionNames (c : option Config) : list string :=
  map name (getHelpers c).

Fixpoint find_help (nm : string) (helpers : list funcHelpInfo) : option string :=
  match helpers with
  | [] => None
  | h :: helpers' => if decide (name h = nm) then Some (help h)
                     else find_help nm helpers'
  end.

Definition TemplateFunctionHelpSingle (nm : string) (c : option Config)
    : string * option string :=
  match find_help nm (getHelpers c) with
  | Some h => (h, None)
  | None => ("", Some (nm +:+ " is not defined"))
  end.

(** ** CreateTemplate

    [template.New(name).Funcs(m).Parse(src)] belongs to Go's library; the
    model takes it as [template_Parse name m src], whatever it answers. *)
Section Templates.
Context {Template : Type}.
Variable template_Parse :
  string -> gmap string Func -> string -> option Template * option string.

Definition CreateTemplate (nm tmplSrc : string) (cfg : option Config)
    : option Template * option string :=
  if decide (tmplSrc = "") then
    (None, Some ("template " +:+ nm +:+ " contains no source"))
  else template_Parse nm (getFuncMap cfg) tmplSrc.
End Templates.

(** ** OutputToTemplate

    The template is parsed exactly as in [CreateTemplate], without the test
    for an empty source, and then executed.  [t.Execute(w, obj)] belongs to
    Go's library as well: [template_Execute t w obj] is the writer after the
    call and the error it returned.  The pointer that [Parse] returned is
    handed over as it is. *)
Section Output.
Context {Template Writer Object : Type}.
Variable template_Parse :
  string -> gmap string Func -> string -> option Template * option string.
Variable template_Execute :
  option Template -> Writer -> Object -> Writer * option string.

Definition OutputToTemplate (w : Writer) (nm tmplSrc : string) (obj : Object)
    (cfg : option Config) : Writer * option string :=
  let '(t, err) := template_Parse nm (getFuncMap cfg) tmplSrc in
  match err with
  | Some e => (w, Some e)
  | None =>
      let '(w, err) := template_Execute t w obj in
      match err with
      | Some e => (w, Some e)
      | None => (w, None)
      end
  end.
End Output.

(** * Notions used to state the properties of the Config object *)

(** ** The guarded registration every single option performs *)

Definition enable (nm : string) (fn : Func) (hlp : string) (idx : Z)
    (c : Config) : Config :=
  if decide (is_Some (funcMap c !! nm)) then c
  else
    {| funcMap := <[nm := fn]> (funcMap c);
       funcHelp := funcHelp c ++ [ {| name := nm; help := hlp; index := idx |} ] |}.

(** The Config that [NewConfig] starts from. *)
Definition empty_config : Config := {| funcMap := ∅; funcHelp := [] |}.

(** The names an option enables: those it registers in the fresh Config. *)
Definition enabled_by (opt : Config -> Config) : gset string :=
  dom (funcMap (opt empty_config)).

(** A Config whose functions and usage texts all come from the package
    tables, each text at most once. *)
Definition from_tables (c : Config) : Prop :=
  funcMap c ⊆ pkg.funcMap /\
  NoDup (funcHelp c) /\
  forall h, h ∈ funcHelp c <-> h ∈ pkg.funcHelpSlice /\ is_Some (funcMap c !! name h).

(** Custom functions are added to a Config after [NewConfig] has built it:
    a sequence of [AddCustomFn] calls, successful or not. *)
Definition add_customs (c : Config) (calls : list (Func * string * string))
    : Config :=
  fold_left (fun c '(fn, nm, helpText) => (AddCustomFn c fn nm helpText).1)
            calls c.

(** The usage texts of a list of helpers, one after the other. *)
Definition concat_help (helpers : list funcHelpInfo) : string :=
  fold_right (fun h rest => help h +:+ rest) "" helpers.

(** The entries of the priority table whose function a Config has. *)
Definition enabled_help (c : Config) : list funcHelpInfo :=
  filter (fun h => is_Some (funcMap c !! name h)) pkg.funcHelpSlice.

Definition by_priority (a b : funcHelpInfo) : Prop := index a <= index b.
Definition by_strict_priority (a b : funcHelpInfo) : Prop := index a < index b.

(** Usage texts in priority order, the custom ones last. *)
Definition priority_ordered (l : list funcHelpInfo) : Prop :=
  StronglySorted by_priority l /\ Forall (fun h => index h <= helpIndexCount) l.

(** The Configs a program can hold: built by [NewConfig] from options of the
    package, then changed by further options or by [AddCustomFn]. *)
Inductive reachable (sort_Sort : Config -> Config) : Config -> Prop :=
| reachable_new options :
    Forall (fun opt => opt ∈ package_options) options ->
    reachable sort_Sort (NewConfig sort_Sort options)
| reachable_option c opt :
    reachable sort_Sort c -> opt ∈ package_options ->
    reachable sort_Sort (opt c)
| reachable_custom c fn nm helpText :
    reachable sort_Sort c ->
    reachable sort_Sort (AddCustomFn c fn nm helpText).1.

(** Every usage text belongs to a registered function, and no name has two
    texts. *)
Definition help_registered (c : Config) : Prop :=
  NoDup (map name (funcHelp c)) /\
  forall h, h ∈ funcHelp c -> is_Some (funcMap c !! name h).

(** * The engine behind the function table

    The functions that [funcMap] names ([head], [rows], [sortSlice], [table],
    [toTable], ...) are declared outside tfortools.go.  This module models the
    ones the properties below speak about from the specification of the
    engine: its data model, its comparator, and the contracts of the
    operations. *)

Module Engine.

(** The error kinds of the engine. *)
Inductive Error : Type :=
| ShapeError | FieldNotFound | NotARecord | ArgumentError | ParseError.

Inductive result (A : Type) : Type :=
| Ok (a : A)
| Err (e : Error).
Arguments Ok {A} a.
Arguments Err {A} e.

(** Modelled from the spec: the kinds of a field. *)
Inductive Kind : Type :=
| KBool | KInt | KFloat | KString | KRecord | KSeq | KMap | KOpaque.

#[global] Instance Kind_eq_dec : EqDecision Kind.
Proof. solve_decision. Defined.

Set Warnings "-register-all".

Section Model.

(** Floating-point numbers stay abstract: the type, Go's [<] on it, its
    canonical string form and the parser that reads one back. *)
Context {float : Type}.
Variable float_lt : float -> float -> bool.
Variable formatFloat : float -> string.
Variable parseFloat : string -> option float.

(** Modelled from the spec: a Record is an ordered list of named fields,
    each with a current value and possibly hidden; a value is the tagged
    union of the kinds. *)
Inductive Value : Type :=
| VBool (b : bool)
| VInt (n : Z)
| VFloat (x : float)
| VString (s : string)
| VRecord (fields : list (string * bool * Value))
| VSeq (elems : list Value)
| VMap (entries : list (Value * Value))
| VOpaque.

Record Field : Type := mkField {
  fname : string;
  fhidden : bool;
  fvalue : Value
}.

Definition Record_ : Type := list Field.
Definition Collection : Type := list Record_.
Definition Grid : Type := list (list string).

Definition kind_of (v : Value) : Kind :=
  match v with
  | VBool _ => KBool
  | VInt _ => KInt
  | VFloat _ => KFloat
  | VString _ => KString
  | VRecord _ => KRecord
  | VSeq _ => KSeq
  | VMap _ => KMap
  | VOpaque => KOpaque
  end.

(** The canonical string form of the values of the other kinds; the
    specification does not fix it. *)
Variable render_other : Value -> string.

Definition formatBool (b : bool) : string := if b then "true" else "false".
Definition formatInt (n : Z) : string := NilZero.string_of_int (Z.to_int n).

(** Modelled from the spec: the canonical string form of a value. *)
Definition render (v : Value) : string :=
  match v with
  | VBool b => formatBool b
  | VInt n => formatInt n
  | VFloat x => formatFloat x
  | VString s => s
  | _ => render_other v
  end.

(** Hidden fields are never visited. *)
Definition visible (r : Record_) : list Field :=
  filter (fun fd => fhidden fd = false) r.

(** Modelled from the spec: the resolver, for a path of one field name. *)
Fixpoint lookup_field (nm : string) (fields : list Field) : option Value :=
  match fields with
  | [] => None
  | fd :: fields' =>
      if decide (fname fd = nm) then Some (fvalue fd)
      else lookup_field nm fields'
  end.

Definition resolve (r : Record_) (nm : string) : result Value :=
  match lookup_field nm (visible r) with
  | Some v => Ok v
  | None => Err FieldNotFound
  end.

(** ** Comparator

    Modelled from the spec: numeric kinds compare numerically, strings
    lexically by bytes, any other pair through the canonical string
    forms. *)
Definition compare_by_lt {A : Type} (lt : A -> A -> bool) (a b : A)
    : comparison :=
  if lt a b then Lt else if lt b a then Gt else Eq.

Definition compare_values (a b : Value) : comparison :=
  match a, b with
  | VInt x, VInt y => x ?= y
  | VFloat x, VFloat y => compare_by_lt float_lt x y
  | VString s, VString t => String.compare s t
  | _, _ => String.compare (render a) (render b)
  end.

(** ** head and rows *)

(** Modelled from the spec: [head(collection, n=1)] returns the first
    [min(n, len)] elements; [n < 0] is a call error. *)
Definition head {A : Type} (C : list A) (n : option Z) : result (list A) :=
  let n := match n with Some n => n | None => 1 end in
  if n <? 0 then Err ArgumentError
  else Ok (take (Z.to_nat (Z.min n (Z.of_nat (length C)))) C).

(** Modelled from the spec: [rows(collection, indices...)] returns the
    records at the given 0-based indices, in the order given; an index out
    of range is skipped without an error. *)
Definition row_at {A : Type} (C : list A) (i : Z) : option A :=
  if (0 <=? i) && (i <? Z.of_nat (length C)) then C !! Z.to_nat i else None.

Definition rows {A : Type} (C : list A) (indices : list Z) : result (list A) :=
  Ok (omap (row_at C) indices).

(** An index that names a row of the collection. *)
Definition in_range {A : Type} (C : list A) (i : Z) : Prop :=
  0 <= i < Z.of_nat (length C).

#[global] Instance in_range_dec {A : Type} (C : list A) (i : Z) :
  Decision (in_range C i).
Proof. unfold in_range. apply _. Defined.

(** ** sortBy *)

Inductive Direction : Type := Ascending | Descending.

(** Modelled from the spec: the direction is optional and ascending when
    left out; a string other than the two tokens is a call error. *)
Definition parse_direction (direction : option string) : result Direction :=
  match direction with
  | None => Ok Ascending
  | Some d =>
      if decide (d = "asc") then Ok Ascending
      else if decide (d = "dsc") then Ok Descending
      else Err ArgumentError
  end.

(** A field that fails to resolve sorts as the empty string. *)
Definition sort_key (nm : string) (r : Record_) : Value :=
  match resolve r nm with
  | Ok v => v
  | Err _ => VString ""
  end.

(** [before d a b]: [a] has to come before [b] in direction [d]. *)
Definition before (d : Direction) (a b : Value) : bool :=
  match d, compare_values a b with
  | Ascending, Lt => true
  | Descending, Gt => true
  | _, _ => false
  end.

(** Modelled from the spec: a stable sort.  A record is put in front of the
    sorted rest of the collection, behind the records that have to come
    before it and no further. *)
Fixpoint insert_stable {A : Type} (lt : A -> A -> bool) (a : A) (l : list A)
    : list A :=
  match l with
  | [] => [a]
  | x :: l' => if lt x a then x :: insert_stable lt a l' else a :: l
  end.

Definition stable_sort {A : Type} (lt : A -> A -> bool) (l : list A) : list A :=
  fold_right (insert_stable lt) [] l.

Definition sortBy (C : Collection) (fieldName : string)
    (direction : option string) : result Collection :=
  match parse_direction direction with
  | Err e => Err e
  | Ok d =>
      Ok (stable_sort
            (fun x a => before d (sort_key fieldName x) (sort_key fieldName a))
            C)
  end.

(** Records that carry their input position, compared as the records are. *)
Definition lt_tagged {A : Type} (lt : A -> A -> bool) (x y : nat * A) : bool :=
  lt (snd x) (snd y).

(** The input position of the record that [sortBy] puts at each output
    position. *)
Definition sort_order (C : Collection) (fieldName : string) (d : Direction)
    : list nat :=
  map fst
    (stable_sort
       (lt_tagged
          (fun x a => before d (sort_key fieldName x) (sort_key fieldName a)))
       (zip (seq 0 (length C)) C)).

(** In the output of the sort an element stands before another one only if
    it stood before it in the input or it has to come before it. *)
Definition in_order {A : Type} (lt : A -> A -> bool) (x y : nat * A) : Prop :=
  (fst x < fst y)%nat \/ lt (snd x) (snd y) = true.

(** Two records have equal keys when the comparator finds them equal. *)
Definition same_key (fieldName : string) (r1 r2 : Record_) : Prop :=
  compare_values (sort_key fieldName r1) (sort_key fieldName r2) = Eq.

(** Modelled from the spec: [sortBy] produces a new collection and the
    original is untouched.  Collections live in a store; the call reads the
    collection at [p] and puts its result at a location not in use. *)
Definition sortBy_call (st : gmap positive Collection) (p : positive)
    (fieldName : string) (direction : option string)
    : result (gmap positive Collection * positive) :=
  match st !! p with
  | None => Err ShapeError
  | Some C =>
      match sortBy C fieldName direction with
      | Err e => Err e
      | Ok C' => let q := fresh (dom st) in Ok (<[q := C']> st, q)
      end
  end.

(** ** table and totable *)

(** Modelled from the spec: row-oriented rendering gives one row per record
    and one column per visible field, under a header row of the field
    names; each cell is the canonical string form of the value.  An empty
    collection renders the empty table.  The layout of the grid as aligned
    text is left out. *)
Definition header_of (r : Record_) : list string := map fname (visible r).
Definition cells_of (r : Record_) : list string :=
  map (fun fd => render (fvalue fd)) (visible r).

Definition table_grid (C : Collection) : Grid :=
  match C with
  | [] => []
  | r :: _ => header_of r :: map cells_of C
  end.

Definition parseBool (s : string) : option bool :=
  if decide (s = "true") then Some true
  else if decide (s = "false") then Some false
  else None.

Definition parseInt (s : string) : option Z :=
  option_map Z.of_int (NilZero.int_of_string s).

(** Modelled from the spec: the kind of a column is the first of boolean,
    integer, floating point and string under which the value of the first
    data row parses. *)
Definition infer_kind (s : string) : Kind :=
  if decide (is_Some (parseBool s)) then KBool
  else if decide (is_Some (parseInt s)) then KInt
  else if decide (is_Some (parseFloat s)) then KFloat
  else KString.

Definition parse_as (k : Kind) (s : string) : option Value :=
  match k with
  | KBool => VBool <$> parseBool s
  | KInt => VInt <$> parseInt s
  | KFloat => VFloat <$> parseFloat s
  | KString => Some (VString s)
  | _ => None
  end.

(** The names of the header row turned into identifiers that are valid and
    distinct; the specification does not fix how. *)
Variable sanitize_names : list string -> list string.

(** One data row: as many cells as the header has names, each parsed under
    the kind of its column. *)
Fixpoint parse_row (names : list string) (kinds : list Kind)
    (cells : list string) : result Record_ :=
  match names, kinds, cells with
  | [], [], [] => Ok []
  | nm :: names', k :: kinds', s :: cells' =>
      match parse_as k s with
      | None => Err ParseError
      | Some v =>
          match parse_row names' kinds' cells' with
          | Ok r => Ok ({| fname := nm; fhidden := false; fvalue := v |} :: r)
          | Err e => Err e
          end
      end
  | _, _, _ => Err ShapeError
  end.

Fixpoint parse_rows (names : list string) (kinds : list Kind)
    (data : list (list string)) : result Collection :=
  match data with
  | [] => Ok []
  | cells :: data' =>
      match parse_row names kinds cells with
      | Err e => Err e
      | Ok r =>
          match parse_rows names kinds data' with
          | Ok C => Ok (r :: C)
          | Err e => Err e
          end
      end
  end.

(** Modelled from the spec: [totable] takes a grid of at least two rows.
    Row 0 holds the field names, which must be non-empty and distinct; row 1
    fixes the kind of each column; every data row is parsed under those
    kinds, and a value that does not parse is a call error. *)
Definition totable (g : Grid) : result Collection :=
  match g with
  | header :: first :: rest =>
      if decide (Forall (fun nm => nm <> "") header /\ NoDup header) then
        parse_rows (sanitize_names header) (map infer_kind first)
                   (first :: rest)
      else Err ArgumentError
  | _ => Err ArgumentError
  end.

End Model.

(** ** A model to run the engine on

    The three values of float64 that are not finite stand in for the
    floating-point numbers, with the names Go prints them under; values of
    the other kinds print as their kind; names of the header row that are
    identifiers already are taken as they are. *)
Inductive sample_float : Type := NegInf | PosInf | NaN.

Definition sample_lt (x y : sample_float) : bool :=
  match x, y with
  | NegInf, PosInf => true
  | _, _ => false
  end.

Definition sample_format (x : sample_float) : string :=
  match x with
  | NegInf => "-Inf"
  | PosInf => "+Inf"
  | NaN => "NaN"
  end.

Definition sample_parse (s : string) : option sample_float :=
  if decide (s = "-Inf") then Some NegInf
  else if decide (s = "+Inf") then Some PosInf
  else if decide (s = "NaN") then Some NaN
  else None.

Definition sample_render_other (v : @Value sample_float) : string :=
  match kind_of v with
  | KRecord => "{}"
  | KSeq => "[]"
  | KMap => "map[]"
  | _ => "<nil>"
  end.

Definition sample_sanitize (names : list string) : list string := names.

Definition field (nm : string) (v : @Value sample_float) : @Field sample_float :=
  {| fname := nm; fhidden := false; fvalue := v |}.

(** The stock records of the package documentation. *)
Definition stocks : @Collection sample_float :=
  [ [ field "Name" (VString "Big Company"); field "Volume" (VInt 7500000) ];
    [ field "Name" (VString "Happy Enterprises"); field "Volume" (VInt 6395624278) ];
    [ field "Name" (VString "Medium Company"); field "Volume" (VInt 300122) ];
    [ field "Name" (VString "Small Company"); field "Volume" (VInt 300122) ] ].

End Engine.

(** The options that [OptAllFilters] stands for. *)
Definition filter_options : list (Config -> Config) :=
  [ OptFilter; OptFilterContains; OptFilterHasPrefix; OptFilterHasSuffix;
    OptFilterFolded; OptFilterRegexp ].

(** A usage text in the form [AddCustomFn] stores: trimming the white space
    at its end leaves a text that is not empty, and takes away one newline
    and nothing else. *)
Definition trimmed_text (s : string) : Prop :=
  ~ strings.TrimRightFunc s unicode.IsSpace = EmptyString /\
  strings.TrimRightFunc s unicode.IsSpace +:+ nl = s.

Definition trimmed_textb (s : string) : bool :=
  negb (bool_decide (strings.TrimRightFunc s unicode.IsSpace = EmptyString)) &&
  bool_decide (strings.TrimRightFunc s unicode.IsSpace +:+ nl = s).

(** [c'] has everything [c] has, and more only at the end: the functions of
    [c] are kept, and the usage texts of [c'] are those of [c] followed by
    texts for names that [c] did not have. *)
Definition extends (c c' : Config) : Prop :=
  funcMap c ⊆ funcMap c' /\
  exists added : list funcHelpInfo,
    funcHelp c' = (funcHelp c ++ added)%list /\
    Forall (fun h => funcMap c !! name h = None) added.

(** * Proof automation *)

Ltac split_ifs :=
  repeat match goal with
  | |- context [ ?x <? ?y ] => destruct (Z.ltb_spec x y)
  | |- context [ ?x <=? ?y ] => destruct (Z.leb_spec x y)
  | |- context [ ?x =? ?y ] => destruct (Z.eqb_spec x y)
  end.

Ltac eval_first c :=
  let v1 := eval vm_compute in (utf8.as_ <=? c) in
  change (utf8.as_ <=? c) with v1;
  let v2 := eval vm_compute in (c =? utf8.as_) in
  try change (c =? utf8.as_) with v2;
  let v3 := eval vm_compute in (Z.land c 7) in
  try change (Z.land c 7) with v3;
  let v4 := eval vm_compute in (utf8.acceptRanges (Z.shiftr c 4)) in
  try change (utf8.acceptRanges (Z.shiftr c 4)) with v4;
  cbv beta iota; cbn [fst snd].

Ltac lia_cmp :=
  repeat match goal with
  | |- context [ ?x <? ?y ] =>
      first [ rewrite (proj2 (Z.ltb_lt x y)) by lia
            | rewrite (proj2 (Z.ltb_ge x y)) by lia ]
  | |- context [ ?x <=? ?y ] =>
      first [ rewrite (proj2 (Z.leb_le x y)) by lia
            | rewrite (proj2 (Z.leb_gt x y)) by lia ]
  | |- context [ ?x =? ?y ] =>
      first [ rewrite (proj2 (Z.eqb_eq x y)) by lia
            | rewrite (proj2 (Z.eqb_neq x y)) by lia ]
  end; cbn [andb orb].

Ltac step_ifs :=
  repeat first
    [ reflexivity
    | match goal with
      | |- context [ ?x <? ?y ] => destruct (Z.ltb_spec x y)
      | |- context [ ?x <=? ?y ] => destruct (Z.leb_spec x y)
      | |- context [ ?x =? ?y ] => destruct (Z.eqb_spec x y)
      end; cbn [andb orb]; try lia; lia_cmp ].

Ltac finish_decode :=
  unfold accepts, cont, rune2, rune3, rune4, utf8.locb, utf8.hicb;
  lia_cmp; step_ifs.



Ltac list_cases H :=
  repeat (apply elem_of_cons in H as [H | H]);
  [ .. | apply elem_of_nil in H; destruct H ].

(** * Properties of the Config object *)

Lemma single_options_enable (nm : string) (opt : Config -> Config) :
  (nm, opt) ∈ single_options ->
  exists fn hlp idx,
    opt = enable nm fn hlp idx /\
    pkg.funcMap !! nm = Some fn /\
    {| name := nm; help := hlp; index := idx |} ∈ pkg.funcHelpSlice.
Proof.
  intros H. unfold single_options in H. list_cases H;
    injection H as -> ->;
    (eexists _, _, _; split; [reflexivity | split; [vm_compute; reflexivity |]]);
    unfold pkg.funcHelpSlice;
    repeat (first [ apply list_elem_of_here | apply list_elem_of_further ]).
Qed.

(** ** Facts about the package tables *)

Lemma funcHelpSlice_indices : map index pkg.funcHelpSlice = seqZ 0 27.
Proof. reflexivity. Qed.

Lemma funcHelpSlice_names_NoDup : NoDup (map name pkg.funcHelpSlice).
Proof. apply (bool_decide_unpack _). vm_compute. exact I. Qed.

Lemma funcHelpSlice_index_NoDup : NoDup (map index pkg.funcHelpSlice).
Proof. rewrite funcHelpSlice_indices. apply NoDup_seqZ. Qed.

Lemma NoDup_map_inj {A B : Type} (f : A -> B) (l : list A) (x y : A) :
  NoDup (map f l) -> x ∈ l -> y ∈ l -> f x = f y -> x = y.
Proof.
  induction l as [|a l IH]; simpl; intros Hnd Hx Hy Hf.
  - apply elem_of_nil in Hx. destruct Hx.
  - apply NoDup_cons in Hnd as [Ha Hnd].
    apply elem_of_cons in Hx as [-> | Hx]; apply elem_of_cons in Hy as [-> | Hy].
    + reflexivity.
    + exfalso. apply Ha. rewrite Hf. apply (list_elem_of_fmap_2 f), Hy.
    + exfalso. apply Ha. rewrite <- Hf. apply (list_elem_of_fmap_2 f), Hx.
    + auto.
Qed.

Lemma NoDup_of_map {A B : Type} (f : A -> B) (l : list A) :
  NoDup (map f l) -> NoDup l.
Proof.
  induction l as [|a l IH]; simpl; intros Hnd; [constructor |].
  apply NoDup_cons in Hnd as [Ha Hnd]. apply NoDup_cons. split; [| auto].
  intros Hin. apply Ha. apply (list_elem_of_fmap_2 f), Hin.
Qed.

Lemma funcHelpSlice_NoDup : NoDup pkg.funcHelpSlice.
Proof. apply (NoDup_of_map name), funcHelpSlice_names_NoDup. Qed.

Lemma funcHelpSlice_registered (h : funcHelpInfo) :
  h ∈ pkg.funcHelpSlice -> is_Some (pkg.funcMap !! name h).
Proof.
  intros H. unfold pkg.funcHelpSlice in H. list_cases H; subst h;
    (eexists; vm_compute; reflexivity).
Qed.

Lemma funcHelpSlice_sorted :
  StronglySorted by_strict_priority pkg.funcHelpSlice.
Proof. unfold pkg.funcHelpSlice. repeat constructor. Qed.

(** ** The options keep a Config within the package tables *)

Lemma from_tables_empty : from_tables empty_config.
Proof.
  unfold from_tables, empty_config; simpl. split; [apply map_empty_subseteq |].
  split; [constructor |]. intros h. split.
  - intros H. apply elem_of_nil in H. destruct H.
  - intros [_ [x Hx]]. rewrite lookup_empty in Hx. discriminate.
Qed.

Lemma enable_dom nm fn hlp idx c :
  dom (funcMap (enable nm fn hlp idx c)) = dom (funcMap c) ∪ {[nm]}.
Proof.
  unfold enable. destruct (decide (is_Some (funcMap c !! nm))) as [Hs | Hn]; simpl.
  - apply elem_of_dom in Hs. set_solver.
  - rewrite dom_insert_L. set_solver.
Qed.

Lemma enable_from_tables nm fn hlp idx c :
  pkg.funcMap !! nm = Some fn ->
  {| name := nm; help := hlp; index := idx |} ∈ pkg.funcHelpSlice ->
  from_tables c -> from_tables (enable nm fn hlp idx c).
Proof.
  intros Hfn Hin (Hsub & Hnd & Hiff). unfold enable.
  destruct (decide (is_Some (funcMap c !! nm))) as [Hs | Hn]; [done |].
  split; [| split]; simpl.
  - by apply insert_subseteq_l.
  - apply NoDup_app. split; [done |]. split; [| apply NoDup_singleton].
    intros h Hh Hh'. apply list_elem_of_singleton in Hh'. subst h.
    apply Hiff in Hh as [_ Hs]. simpl in Hs. contradiction.
  - intros h. rewrite elem_of_app, list_elem_of_singleton, Hiff.
    rewrite lookup_insert_is_Some'. split.
    + intros [[Hh Hs] | ->]; [by auto | simpl; by auto].
    + intros [Hh [Hnm | Hs]]; [right | by auto].
      apply (NoDup_map_inj name pkg.funcHelpSlice);
        [apply funcHelpSlice_names_NoDup | done | done | by simpl].
Qed.

Lemma enabled_by_enable nm fn hlp idx :
  enabled_by (enable nm fn hlp idx) = {[nm]}.
Proof.
  unfold enabled_by. rewrite enable_dom. unfold empty_config; simpl.
  rewrite dom_empty_L. set_solver.
Qed.

Lemma package_options_cases (opt : Config -> Config) :
  opt ∈ package_options ->
  opt = OptAllFns \/ opt = OptAllFilters \/ exists nm, (nm, opt) ∈ single_options.
Proof.
  intros H. unfold package_options in H.
  apply elem_of_cons in H as [-> | H]; [by left |].
  apply elem_of_cons in H as [-> | H]; [by right; left |].
  right; right. list_cases H; subst opt; eexists; unfold single_options;
    repeat (first [ apply list_elem_of_here | apply list_elem_of_further ]).
Qed.

Lemma OptAllFilters_enable :
  OptAllFilters =
  fun c =>
    enable "filterRegexp" (PkgFn "filterByRegexp") helpFilterRegexp helpFilterRegexpIndex
   (enable "filterFolded" (PkgFn "filterByFolded") helpFilterFolded helpFilterFoldedIndex
   (enable "filterHasSuffix" (PkgFn "filterByHasSuffix") helpFilterHasSuffix helpFilterHasSuffixIndex
   (enable "filterHasPrefix" (PkgFn "filterByHasPrefix") helpFilterHasPrefix helpFilterHasPrefixIndex
   (enable "filterContains" (PkgFn "filterByContains") helpFilterContains helpFilterContainsIndex
   (enable "filter" (PkgFn "filterByField") helpFilter helpFilterIndex c))))).
Proof. reflexivity. Qed.

Lemma package_option_spec (opt : Config -> Config) (c : Config) :
  opt ∈ package_options -> from_tables c ->
  from_tables (opt c) /\
  dom (funcMap (opt c)) = dom (funcMap c) ∪ enabled_by opt.
Proof.
  intros Hopt Hc. apply package_options_cases in Hopt as [-> | [-> | [nm Hopt]]].
  - split.
    + split; [| split].
      * change (pkg.funcMap ⊆ pkg.funcMap). reflexivity.
      * exact funcHelpSlice_NoDup.
      * intros h. change (h ∈ pkg.funcHelpSlice <->
                          h ∈ pkg.funcHelpSlice /\ is_Some (pkg.funcMap !! name h)).
        split; [| tauto]. intros Hh. split; [done | by apply funcHelpSlice_registered].
    + change (dom pkg.funcMap = dom (funcMap c) ∪ dom pkg.funcMap).
      destruct Hc as [Hsub _]. apply subseteq_dom in Hsub.
      generalize dependent (dom pkg.funcMap). intros D HD.
      generalize dependent (dom (funcMap c)). intros D' HD'. set_solver.
  - split.
    + rewrite OptAllFilters_enable.
      repeat (apply enable_from_tables;
              [ vm_compute; reflexivity
              | unfold pkg.funcHelpSlice;
                repeat (first [ apply list_elem_of_here | apply list_elem_of_further ])
              | ]).
      exact Hc.
    + unfold enabled_by. rewrite OptAllFilters_enable. rewrite !enable_dom.
      change (funcMap empty_config) with (∅ : gmap string Func).
      rewrite dom_empty_L.
      generalize dependent (dom (funcMap c)). intros D. set_solver.
  - apply single_options_enable in Hopt as (fn & hlp & idx & -> & Hfn & Hin).
    split; [by apply enable_from_tables |].
    by rewrite enable_dom, enabled_by_enable.
Qed.

Lemma apply_options_spec (options : list (Config -> Config)) (c : Config) :
  Forall (fun opt => opt ∈ package_options) options -> from_tables c ->
  from_tables (fold_left (fun c f => f c) options c) /\
  dom (funcMap (fold_left (fun c f => f c) options c))
  = dom (funcMap c) ∪ ⋃ (enabled_by <$> options).
Proof.
  intros Hall. revert c. induction Hall as [| opt options Hopt Hall IH];
    intros c Hc.
  - split; [exact Hc |]. cbn [fold_left fmap list_fmap union_list foldr].
    rewrite (right_id_L ∅ (∪)). reflexivity.
  - destruct (package_option_spec opt c Hopt Hc) as [Hc' Hdom].
    destruct (IH _ Hc') as [Hft Hd]. split; [exact Hft |].
    cbn [fold_left]. rewrite Hd, Hdom. rewrite fmap_cons, union_list_cons.
    rewrite (assoc_L (∪)). reflexivity.
Qed.

Lemma enabled_same_options (o1 o2 : list (Config -> Config)) :
  (forall f, f ∈ o1 <-> f ∈ o2) ->
  ⋃ (enabled_by <$> o1) = ⋃ (enabled_by <$> o2).
Proof.
  intros Hsame. apply set_eq. intros x. rewrite !elem_of_union_list.
  split; intros (X & HX & Hx); apply list_elem_of_fmap in HX as (f & -> & Hf);
    exists (enabled_by f); (split; [| exact Hx]);
    apply list_elem_of_fmap_2; by apply Hsame.
Qed.

Lemma from_tables_determined (c1 c2 : Config) :
  from_tables c1 -> from_tables c2 ->
  dom (funcMap c1) = dom (funcMap c2) ->
  funcMap c1 = funcMap c2 /\ funcHelp c1 ≡ₚ funcHelp c2.
Proof.
  intros (Hs1 & Hn1 & Hi1) (Hs2 & Hn2 & Hi2) Hdom.
  assert (Hsome : forall k, is_Some (funcMap c1 !! k) <-> is_Some (funcMap c2 !! k)).
  { intros k. by rewrite <- !elem_of_dom, Hdom. }
  split.
  - apply map_eq. intros k.
    destruct (funcMap c1 !! k) as [x |] eqn:E1.
    + destruct (proj1 (Hsome k)) as [y E2]; [by rewrite E1 |]. rewrite E2.
      pose proof (lookup_weaken _ _ _ _ E1 Hs1).
      pose proof (lookup_weaken _ _ _ _ E2 Hs2). congruence.
    + destruct (funcMap c2 !! k) as [y |] eqn:E2; [| reflexivity].
      destruct (proj2 (Hsome k)) as [x E1']; [by rewrite E2 |]. congruence.
  - apply NoDup_Permutation; [exact Hn1 | exact Hn2 |]. intros h.
    rewrite Hi1, Hi2, Hsome. tauto.
Qed.

(** ** What [sort.Sort] leaves behind *)

Lemma StronglySorted_lookup {A : Type} (R : A -> A -> Prop) (l : list A) :
  (forall (i j : nat) a b,
     (i < j)%nat -> l !! i = Some a -> l !! j = Some b -> R a b) ->
  StronglySorted R l.
Proof.
  induction l as [| x l IH]; intros H; constructor.
  - apply IH. intros i j a b Hij Ha Hb. apply (H (S i) (S j)); [lia | done | done].
  - apply Forall_forall. intros y Hy.
    apply list_elem_of_lookup in Hy as [j Hj].
    apply (H 0%nat (S j)); [lia | done | done].
Qed.

Lemma StronglySorted_filter_list {A : Type} (R : A -> A -> Prop)
    (P : A -> Prop) `{forall x, Decision (P x)} (l : list A) :
  StronglySorted R l -> StronglySorted R (filter P l).
Proof.
  induction 1 as [| x l Hl IH Hx]; [constructor |].
  rewrite filter_cons. destruct (decide (P x)); [| exact IH].
  constructor; [exact IH |]. apply Forall_forall. intros y Hy.
  apply list_elem_of_filter in Hy as [_ Hy].
  rewrite Forall_forall in Hx. by apply Hx.
Qed.

Lemma StronglySorted_weaken {A : Type} (R R' : A -> A -> Prop) (l : list A) :
  (forall a b, R a b -> R' a b) -> StronglySorted R l -> StronglySorted R' l.
Proof.
  intros HR. induction 1 as [| x l Hl IH Hx]; constructor; [exact IH |].
  eapply Forall_impl; [exact Hx |]. intros y. apply HR.
Qed.

Lemma contract_sorted (sort_Sort : Config -> Config) (c : Config) :
  sort_Sort_contract sort_Sort ->
  StronglySorted by_priority (funcHelp (sort_Sort c)).
Proof.
  intros Hsort. destruct (Hsort c) as (_ & _ & Hless).
  apply StronglySorted_lookup. intros i j a b Hij Ha Hb.
  assert (Hj : (j < Len (sort_Sort c))%nat).
  { unfold Len. by apply lookup_lt_Some in Hb. }
  specialize (Hless i j (conj Hij Hj)). unfold Less in Hless.
  rewrite Ha, Hb in Hless. unfold by_priority. lia.
Qed.

Lemma funcHelpSlice_index_inj (x y : funcHelpInfo) :
  x ∈ pkg.funcHelpSlice -> y ∈ pkg.funcHelpSlice -> index x = index y -> x = y.
Proof. apply NoDup_map_inj, funcHelpSlice_index_NoDup. Qed.

Lemma funcHelpSlice_index_bound (h : funcHelpInfo) :
  h ∈ pkg.funcHelpSlice -> 0 <= index h < helpIndexCount.
Proof.
  intros Hh. apply (list_elem_of_fmap_2 index) in Hh.
  change (index <$> pkg.funcHelpSlice) with (seqZ 0 27) in Hh.
  apply elem_of_seqZ in Hh. unfold helpIndexCount. lia.
Qed.

(** A Config within the package tables whose texts are in priority order
    holds exactly the enabled part of the priority table. *)
Lemma from_tables_sorted_canonical (c : Config) :
  from_tables c -> StronglySorted by_priority (funcHelp c) ->
  funcHelp c = enabled_help c.
Proof.
  intros (Hsub & Hnd & Hiff) Hsorted. unfold enabled_help.
  apply (StronglySorted_unique_strong by_priority).
  - intros x y Hx Hy Hxy Hyx. apply Hiff in Hx as [Hx _].
    apply list_elem_of_filter in Hy as [_ Hy].
    apply funcHelpSlice_index_inj; [done | done |].
    unfold by_priority in *. lia.
  - exact Hsorted.
  - apply StronglySorted_filter_list.
    eapply StronglySorted_weaken; [| exact funcHelpSlice_sorted].
    unfold by_strict_priority, by_priority. intros; lia.
  - apply NoDup_Permutation; [done | |].
    + apply NoDup_filter, funcHelpSlice_NoDup.
    + intros h. rewrite Hiff, list_elem_of_filter. tauto.
Qed.

Lemma sort_from_tables (sort_Sort : Config -> Config) (c : Config) :
  sort_Sort_contract sort_Sort -> from_tables c -> from_tables (sort_Sort c).
Proof.
  intros Hsort (Hsub & Hnd & Hiff). destruct (Hsort c) as (Hmap & Hperm & _).
  split; [by rewrite Hmap |]. split; [by rewrite Hperm |].
  intros h. rewrite Hperm, Hmap. apply Hiff.
Qed.

Lemma NewConfig_spec (sort_Sort : Config -> Config)
    (options : list (Config -> Config)) :
  sort_Sort_contract sort_Sort ->
  Forall (fun opt => opt ∈ package_options) options ->
  from_tables (NewConfig sort_Sort options) /\
  dom (funcMap (NewConfig sort_Sort options)) = ⋃ (enabled_by <$> options) /\
  funcHelp (NewConfig sort_Sort options) = enabled_help (NewConfig sort_Sort options).
Proof.
  intros Hsort Hall. unfold NewConfig.
  destruct (apply_options_spec options _ Hall from_tables_empty) as [Hft Hdom].
  fold empty_config.
  assert (Hft' := sort_from_tables sort_Sort _ Hsort Hft).
  split; [exact Hft' |]. split.
  - destruct (Hsort (fold_left (fun c f => f c) options empty_config)) as (-> & _ & _).
    rewrite Hdom. change (funcMap empty_config) with (∅ : gmap string Func).
    rewrite dom_empty_L. apply (left_id_L ∅ (∪)).
  - apply from_tables_sorted_canonical; [exact Hft' |].
    by apply contract_sorted.
Qed.

(** The Config that [NewConfig] returns depends on which options it is given,
    not on their order nor on how often each one occurs. *)
Lemma NewConfig_same_options (sort_Sort : Config -> Config)
    (o1 o2 : list (Config -> Config)) :
  sort_Sort_contract sort_Sort ->
  Forall (fun opt => opt ∈ package_options) o1 ->
  (forall f, f ∈ o1 <-> f ∈ o2) ->
  NewConfig sort_Sort o1 = NewConfig sort_Sort o2.
Proof.
  intros Hsort H1 Hsame.
  assert (H2 : Forall (fun opt => opt ∈ package_options) o2).
  { rewrite Forall_forall in *. intros f Hf. apply H1, Hsame, Hf. }
  destruct (NewConfig_spec sort_Sort o1 Hsort H1) as (Hf1 & Hd1 & Hh1).
  destruct (NewConfig_spec sort_Sort o2 Hsort H2) as (Hf2 & Hd2 & Hh2).
  assert (Hmap : funcMap (NewConfig sort_Sort o1) = funcMap (NewConfig sort_Sort o2)).
  { apply from_tables_determined; [done | done |].
    rewrite Hd1, Hd2. by apply enabled_same_options. }
  destruct (NewConfig sort_Sort o1) as [m1 l1], (NewConfig sort_Sort o2) as [m2 l2].
  unfold enabled_help in *. simpl in Hmap, Hh1, Hh2. subst m2. by rewrite Hh1, Hh2.
Qed.

(** ** The insertion sort meets the contract of [sort.Sort] *)

Lemma insert_by_index_perm (h : funcHelpInfo) (l : list funcHelpInfo) :
  insert_by_index h l ≡ₚ h :: l.
Proof.
  induction l as [| x l IH]; simpl; [reflexivity |].
  destruct (index h <? index x); [reflexivity |].
  rewrite IH. apply Permutation_swap.
Qed.

Lemma insert_by_index_sorted (h : funcHelpInfo) (l : list funcHelpInfo) :
  StronglySorted by_priority l -> StronglySorted by_priority (insert_by_index h l).
Proof.
  induction 1 as [| x l Hl IH Hx]; simpl; [repeat constructor |].
  destruct (index h <? index x) eqn:E.
  - apply Z.ltb_lt in E. constructor; [by constructor |].
    constructor; [unfold by_priority; lia |].
    eapply Forall_impl; [exact Hx |]. unfold by_priority. intros; lia.
  - apply Z.ltb_ge in E. constructor; [exact IH |].
    rewrite insert_by_index_perm. by constructor.
Qed.

Lemma StronglySorted_at {A : Type} (R : A -> A -> Prop) (l : list A)
    (i j : nat) (a b : A) :
  StronglySorted R l -> (i < j)%nat ->
  l !! i = Some a -> l !! j = Some b -> R a b.
Proof.
  intros Hs. revert i j. induction Hs as [| x l Hl IH Hx]; intros i j Hij Ha Hb.
  - by rewrite lookup_nil in Ha.
  - destruct j as [| j]; [lia |]. simpl in Hb. destruct i as [| i]; simpl in Ha.
    + injection Ha as ->. rewrite Forall_forall in Hx. apply Hx.
      by eapply list_elem_of_lookup_2.
    + apply (IH i j); [lia | done | done].
Qed.

Lemma insertion_perm (l : list funcHelpInfo) :
  fold_right insert_by_index [] l ≡ₚ l.
Proof.
  induction l as [| h l IH]; simpl; [reflexivity |].
  by rewrite insert_by_index_perm, IH.
Qed.

Lemma insertion_sorted (l : list funcHelpInfo) :
  StronglySorted by_priority (fold_right insert_by_index [] l).
Proof.
  induction l as [| h l IH]; simpl; [constructor |].
  apply insert_by_index_sorted, IH.
Qed.

Lemma insertion_sort_contract : sort_Sort_contract insertion_sort.
Proof.
  intros c. unfold insertion_sort; simpl. split; [reflexivity |].
  split; [apply insertion_perm |]. intros i j [Hij Hj].
  unfold Len, Less in *; simpl in *.
  destruct (fold_right insert_by_index [] (funcHelp c) !! j) as [b |] eqn:Eb;
    [| reflexivity].
  destruct (fold_right insert_by_index [] (funcHelp c) !! i) as [a |] eqn:Ea;
    [| reflexivity].
  pose proof (StronglySorted_at _ _ _ _ _ _ (insertion_sorted (funcHelp c)) Hij Ea Eb)
    as Hab.
  unfold by_priority in Hab. apply Z.ltb_ge. exact Hab.
Qed.

(** ** Custom functions go behind the functions of the package *)

Lemma append_cons (a : ascii) (s t : string) :
  String a s +:+ t = String a (s +:+ t).
Proof. reflexivity. Qed.

Lemma append_empty_l (s : string) : "" +:+ s = s.
Proof. reflexivity. Qed.

Lemma append_assoc (s1 s2 s3 : string) : (s1 +:+ s2) +:+ s3 = s1 +:+ (s2 +:+ s3).
Proof.
  induction s1 as [| a s1 IH]; [reflexivity |].
  rewrite !append_cons. f_equal. exact IH.
Qed.

Lemma append_empty_r (s : string) : s +:+ "" = s.
Proof.
  induction s as [| a s IH]; [reflexivity |]. rewrite append_cons. f_equal. exact IH.
Qed.

Lemma TemplateFunctionHelp_concat (c : option Config) :
  TemplateFunctionHelp c = help_header +:+ concat_help (getHelpers c).
Proof.
  unfold TemplateFunctionHelp. generalize help_header.
  induction (getHelpers c) as [| h l IH]; intros acc;
    unfold concat_help; cbn [fold_left fold_right].
  - by rewrite append_empty_r.
  - rewrite IH. apply append_assoc.
Qed.

Lemma AddCustomFn_funcHelp (c : Config) (fn : Func) (nm helpText : string) :
  funcHelp (AddCustomFn c fn nm helpText).1 = funcHelp c \/
  exists hlp, funcHelp (AddCustomFn c fn nm helpText).1 =
    (funcHelp c ++ [ {| name := nm; help := hlp; index := helpIndexCount |} ])%list.
Proof.
  unfold AddCustomFn.
  destruct (decide (is_Some (funcMap c !! nm))); [by left |]. simpl.
  destruct (decide (strings.TrimRightFunc helpText unicode.IsSpace = ""));
    [by left | right; by eexists].
Qed.

Lemma add_customs_ordered (calls : list (Func * string * string)) (c : Config) :
  priority_ordered (funcHelp c) ->
  priority_ordered (funcHelp (add_customs c calls)).
Proof.
  revert c. induction calls as [| [[fn nm] helpText] calls IH]; intros c Hc;
    [exact Hc |].
  unfold add_customs in *. cbn [fold_left]. apply IH.
  destruct (AddCustomFn_funcHelp c fn nm helpText) as [-> | [hlp ->]]; [exact Hc |].
  destruct Hc as [Hs Hb]. split.
  - apply StronglySorted_app_2; [| exact Hs | repeat constructor].
    intros x y Hx Hy. apply list_elem_of_singleton in Hy. subst y.
    rewrite Forall_forall in Hb. unfold by_priority. simpl. by apply Hb.
  - apply Forall_app. split; [exact Hb |]. apply Forall_singleton. simpl. lia.
Qed.

(** * The claims about the Config object *)

(** C1.  For every list of options of the package, the documentation that
    [TemplateFunctionHelp] produces for the Config built by [NewConfig] is the
    header followed by the usage texts of the helpers, one after the other;
    the helpers of the new Config are exactly the enabled entries of the
    priority table, in the order of the priority constants; and the output is
    the same for every order in which the options are passed.  Custom
    functions, which [AddCustomFn] adds to the Config once it is built, all
    carry [helpIndexCount]: they follow the functions of the package in the
    order of their registration, and the output stays independent of the
    order of the options. *)
Theorem TemplateFunctionHelp_order_independent
    (sort_Sort : Config -> Config)
    (options1 options2 : list (Config -> Config))
    (customs : list (Func * string * string)) :
  sort_Sort_contract sort_Sort ->
  Forall (fun opt => opt ∈ package_options) options1 ->
  options1 ≡ₚ options2 ->
  let c1 := add_customs (NewConfig sort_Sort options1) customs in
  let c2 := add_customs (NewConfig sort_Sort options2) customs in
  TemplateFunctionHelp (Some c1) = TemplateFunctionHelp (Some c2) /\
  TemplateFunctionHelp (Some c1)
    = help_header +:+ concat_help (getHelpers (Some c1)) /\
  priority_ordered (getHelpers (Some c1)) /\
  getHelpers (Some (NewConfig sort_Sort options1))
    = enabled_help (NewConfig sort_Sort options1) /\
  StronglySorted by_strict_priority
    (getHelpers (Some (NewConfig sort_Sort options1))).
Proof.
  intros Hsort Hall Hperm c1 c2.
  assert (Heq : NewConfig sort_Sort options1 = NewConfig sort_Sort options2).
  { apply NewConfig_same_options; [done | done |]. intros f. by rewrite Hperm. }
  destruct (NewConfig_spec sort_Sort options1 Hsort Hall) as (Hft & Hdom & Hhelp).
  assert (Hstrict : StronglySorted by_strict_priority
                      (funcHelp (NewConfig sort_Sort options1))).
  { rewrite Hhelp. apply StronglySorted_filter_list, funcHelpSlice_sorted. }
  split; [| split; [| split; [| split]]].
  - subst c1 c2. by rewrite Heq.
  - apply TemplateFunctionHelp_concat.
  - subst c1. cbn [getHelpers]. apply add_customs_ordered. split.
    + eapply StronglySorted_weaken; [| exact Hstrict].
      unfold by_strict_priority, by_priority. intros; lia.
    + apply Forall_forall. intros h Hh. destruct Hft as (_ & _ & Hiff).
      apply Hiff in Hh as [Hh _]. apply funcHelpSlice_index_bound in Hh. lia.
  - exact Hhelp.
  - exact Hstrict.
Qed.

Lemma TemplateFunctionHelp_order_independent_witness :
  let customs :=
    [ (UserFn 1, "sum", "- 'sum' adds up the elements of a slice");
      (UserFn 2, "avg", "- 'avg' averages the elements of a slice") ] in
  TemplateFunctionHelp
    (Some (add_customs
             (NewConfig insertion_sort [OptTail; OptAllFilters; OptHead]) customs))
  = TemplateFunctionHelp
    (Some (add_customs
             (NewConfig insertion_sort [OptHead; OptTail; OptAllFilters]) customs)).
Proof.
  intros customs.
  refine (proj1 (TemplateFunctionHelp_order_independent insertion_sort
            [OptTail; OptAllFilters; OptHead] [OptHead; OptTail; OptAllFilters]
            customs insertion_sort_contract _ _)).
  - unfold package_options.
    repeat (apply Forall_cons; split;
            [ repeat (first [ apply list_elem_of_here | apply list_elem_of_further ]) |]).
    apply Forall_nil_2.
  - apply Permutation_sym, (Permutation_cons_append [OptTail; OptAllFilters] OptHead).
Defined.

(** C4.  [AddCustomFn] returns an error exactly when a function of the given
    name is already associated with the Config; then the Config is unchanged,
    function map and help list alike.  When it succeeds the function is in
    the function map under the given name. *)
Theorem AddCustomFn_error_iff (c : Config) (fn : Func) (nm helpText : string) :
  let r := AddCustomFn c fn nm helpText in
  (is_Some r.2 <-> is_Some (funcMap c !! nm)) /\
  (is_Some r.2 ->
     r.2 = Some (nm +:+ " already exists") /\
     r.1 = c /\ funcMap r.1 = funcMap c /\ funcHelp r.1 = funcHelp c) /\
  (r.2 = None ->
     funcMap r.1 = <[nm := fn]> (funcMap c) /\ funcMap r.1 !! nm = Some fn).
Proof.
  unfold AddCustomFn.
  destruct (decide (is_Some (funcMap c !! nm))) as [Hs | Hn]; cbn zeta.
  - cbn [fst snd]. split; [by split |]. split; [by intros _ | intros [=]].
  - destruct (decide (strings.TrimRightFunc helpText unicode.IsSpace = ""));
      cbn [fst snd funcMap].
    + split; [split; [intros [? [=]] | by intros ?] |].
      split; [intros [? [=]] |]. intros _. split; [done | apply lookup_insert_eq].
    + split; [split; [intros [? [=]] | by intros ?] |].
      split; [intros [? [=]] |]. intros _. split; [done | apply lookup_insert_eq].
Qed.

Lemma AddCustomFn_error_iff_witness :
  let c := NewConfig insertion_sort [OptHead] in
  (AddCustomFn c (UserFn 1) "head" "- my head").2 = Some "head already exists" /\
  (AddCustomFn c (UserFn 1) "head" "- my head").1 = c /\
  (AddCustomFn c (UserFn 1) "first" "- my head").2 = None /\
  funcMap (AddCustomFn c (UserFn 1) "first" "- my head").1 !! "first"
    = Some (UserFn 1).
Proof.
  intros c.
  pose proof (AddCustomFn_error_iff c (UserFn 1) "head" "- my head") as (Hiff & Herr & _).
  pose proof (AddCustomFn_error_iff c (UserFn 1) "first" "- my head") as (_ & _ & Hok).
  assert (Hs : is_Some (AddCustomFn c (UserFn 1) "head" "- my head").2).
  { apply Hiff. eexists. vm_compute. reflexivity. }
  destruct (Herr Hs) as (He & Hc & _).
  split; [exact He |]. split; [exact Hc |].
  assert (Hn : (AddCustomFn c (UserFn 1) "first" "- my head").2 = None).
  { vm_compute. reflexivity. }
  split; [exact Hn |]. exact (proj2 (Hok Hn)).
Defined.

(** ** The options are guarded *)

Lemma enable_present nm fn hlp idx c :
  is_Some (funcMap c !! nm) -> enable nm fn hlp idx c = c.
Proof. intros H. unfold enable. by destruct (decide (is_Some (funcMap c !! nm))). Qed.

Lemma enable_registers nm fn hlp idx c :
  is_Some (funcMap (enable nm fn hlp idx c) !! nm).
Proof.
  unfold enable. destruct (decide (is_Some (funcMap c !! nm))); [done |].
  cbn [funcMap]. rewrite lookup_insert_eq. by eexists.
Qed.

Lemma enable_keeps nm fn hlp idx c k :
  is_Some (funcMap c !! k) -> is_Some (funcMap (enable nm fn hlp idx c) !! k).
Proof.
  intros H. unfold enable. destruct (decide (is_Some (funcMap c !! nm))); [done |].
  cbn [funcMap]. apply lookup_insert_is_Some'. by right.
Qed.

Lemma enable_idempotent nm fn hlp idx c :
  enable nm fn hlp idx (enable nm fn hlp idx c) = enable nm fn hlp idx c.
Proof. apply enable_present, enable_registers. Qed.

Lemma OptAllFilters_present (c : Config) :
  Forall (fun nm => is_Some (funcMap c !! nm)) filter_names ->
  OptAllFilters c = c.
Proof.
  unfold filter_names. rewrite !Forall_cons. intros (H1 & H2 & H3 & H4 & H5 & H6 & _).
  rewrite OptAllFilters_enable.
  rewrite (enable_present "filter"); [| done].
  rewrite (enable_present "filterContains"); [| done].
  rewrite (enable_present "filterHasPrefix"); [| done].
  rewrite (enable_present "filterHasSuffix"); [| done].
  rewrite (enable_present "filterFolded"); [| done].
  by rewrite (enable_present "filterRegexp").
Qed.

Lemma OptAllFilters_registers (c : Config) :
  Forall (fun nm => is_Some (funcMap (OptAllFilters c) !! nm)) filter_names.
Proof.
  rewrite OptAllFilters_enable. unfold filter_names.
  repeat (apply Forall_cons; split;
          [ repeat (first [ apply enable_registers | apply enable_keeps ]) |]).
  apply Forall_nil_2.
Qed.

Lemma package_option_idempotent (opt : Config -> Config) (c : Config) :
  opt ∈ package_options -> opt (opt c) = opt c.
Proof.
  intros Hopt. apply package_options_cases in Hopt as [-> | [-> | [nm Hopt]]].
  - reflexivity.
  - apply OptAllFilters_present, OptAllFilters_registers.
  - apply single_options_enable in Hopt as (fn & hlp & idx & -> & _ & _).
    apply enable_idempotent.
Qed.

(** ** No name has two usage texts *)

Lemma help_registered_add (c : Config) (nm : string) (fn : Func)
    (extra : list funcHelpInfo) :
  help_registered c -> funcMap c !! nm = None ->
  (extra = [] \/ exists hlp idx, extra = [ {| name := nm; help := hlp; index := idx |} ]) ->
  help_registered {| funcMap := <[nm := fn]> (funcMap c);
                     funcHelp := funcHelp c ++ extra |}.
Proof.
  intros [Hnd Hreg] Hnone Hextra. unfold help_registered; cbn [funcMap funcHelp].
  assert (Hfresh : nm ∉ map name (funcHelp c)).
  { intros Hin. apply list_elem_of_fmap in Hin as (h & -> & Hh).
    apply Hreg in Hh as [x Hx]. congruence. }
  destruct Hextra as [-> | (hlp & idx & ->)].
  - rewrite app_nil_r. split; [exact Hnd |]. intros h Hh.
    apply lookup_insert_is_Some'. right. by apply Hreg.
  - split.
    + rewrite map_app. apply NoDup_app. split; [exact Hnd |].
      split; [| apply NoDup_singleton]. intros x Hx Hx'. cbn in Hx'.
      apply list_elem_of_singleton in Hx'. by subst x.
    + intros h Hh. apply lookup_insert_is_Some'.
      apply elem_of_app in Hh as [Hh | Hh]; [right; by apply Hreg |].
      apply list_elem_of_singleton in Hh. subst h. by left.
Qed.

Lemma enable_help_registered nm fn hlp idx c :
  help_registered c -> help_registered (enable nm fn hlp idx c).
Proof.
  intros Hc. unfold enable.
  destruct (decide (is_Some (funcMap c !! nm))) as [Hs | Hn]; [exact Hc |].
  apply help_registered_add; [exact Hc | | right; by eexists _, _].
  destruct (funcMap c !! nm) eqn:E; [| reflexivity]. exfalso. apply Hn. by eexists.
Qed.

Lemma AddCustomFn_help_registered c fn nm helpText :
  help_registered c -> help_registered (AddCustomFn c fn nm helpText).1.
Proof.
  intros Hc. unfold AddCustomFn.
  destruct (decide (is_Some (funcMap c !! nm))) as [Hs | Hn]; [exact Hc |].
  assert (Hnone : funcMap c !! nm = None).
  { destruct (funcMap c !! nm) eqn:E; [| reflexivity]. exfalso. apply Hn. by eexists. }
  cbn zeta.
  destruct (decide (strings.TrimRightFunc helpText unicode.IsSpace = ""));
    cbn [fst funcMap funcHelp].
  - pose proof (help_registered_add c nm fn [] Hc Hnone (or_introl eq_refl)) as H.
    by rewrite app_nil_r in H.
  - apply (help_registered_add c nm fn); [exact Hc | exact Hnone |].
    right. by eexists _, _.
Qed.

Lemma from_tables_help_registered (c : Config) :
  from_tables c -> help_registered c.
Proof.
  intros (Hsub & Hnd & Hiff). split.
  - apply NoDup_fmap_2_strong; [| exact Hnd]. intros x y Hx Hy Hxy.
    apply Hiff in Hx as [Hx _]. apply Hiff in Hy as [Hy _].
    by apply (NoDup_map_inj name pkg.funcHelpSlice);
      [apply funcHelpSlice_names_NoDup | | |].
  - intros h Hh. by apply Hiff in Hh as [_ Hh].
Qed.

Lemma package_option_help_registered (opt : Config -> Config) (c : Config) :
  opt ∈ package_options -> help_registered c -> help_registered (opt c).
Proof.
  intros Hopt Hc. apply package_options_cases in Hopt as [-> | [-> | [nm Hopt]]].
  - apply from_tables_help_registered.
    apply (package_option_spec OptAllFns empty_config);
      [unfold package_options; apply list_elem_of_here | apply from_tables_empty].
  - rewrite OptAllFilters_enable. by repeat apply enable_help_registered.
  - apply single_options_enable in Hopt as (fn & hlp & idx & -> & _ & _).
    by apply enable_help_registered.
Qed.

Lemma reachable_help_registered (sort_Sort : Config -> Config) (c : Config) :
  sort_Sort_contract sort_Sort -> reachable sort_Sort c -> help_registered c.
Proof.
  intros Hsort. induction 1 as [options Hall | c opt Hc IH Hopt | c fn nm helpText Hc IH].
  - apply from_tables_help_registered. by apply NewConfig_spec.
  - by apply package_option_help_registered.
  - by apply AddCustomFn_help_registered.
Qed.

(** C8.  Every option that enables one function is guarded by the name of
    that function: when the name is in the function map of the Config, the
    option leaves the function map and the help list as they are, and so does
    [OptAllFilters] when its six names are there.  Applying an option of the
    package a second time changes nothing.  In every Config a program can
    reach, no name has two usage texts and every usage text belongs to a
    registered name. *)
Theorem options_idempotent :
  (forall (nm : string) (opt : Config -> Config) (c : Config),
     (nm, opt) ∈ single_options -> is_Some (funcMap c !! nm) ->
     opt c = c /\ funcMap (opt c) = funcMap c /\ funcHelp (opt c) = funcHelp c) /\
  (forall c : Config,
     Forall (fun nm => is_Some (funcMap c !! nm)) filter_names ->
     OptAllFilters c = c) /\
  (forall (opt : Config -> Config) (c : Config),
     opt ∈ package_options -> opt (opt c) = opt c) /\
  (forall (sort_Sort : Config -> Config) (c : Config),
     sort_Sort_contract sort_Sort -> reachable sort_Sort c ->
     NoDup (map name (funcHelp c)) /\
     forall h, h ∈ funcHelp c -> is_Some (funcMap c !! name h)).
Proof.
  split; [| split; [| split]].
  - intros nm opt c Hopt Hs.
    apply single_options_enable in Hopt as (fn & hlp & idx & -> & _ & _).
    rewrite (enable_present nm fn hlp idx c Hs). done.
  - exact OptAllFilters_present.
  - intros opt c Hopt. by apply package_option_idempotent.
  - intros sort_Sort c Hsort Hc. by apply (reachable_help_registered sort_Sort).
Qed.

Lemma options_idempotent_witness :
  let c := NewConfig insertion_sort [OptHead; OptSort] in
  OptHead c = c /\ OptSort (OptSort c) = OptSort c /\
  OptTable (OptTable c) = OptTable c /\
  NoDup (map name (funcHelp (OptAllFns (AddCustomFn (OptHead c) (UserFn 1) "sum" "- sum").1))).
Proof.
  intros c. destruct options_idempotent as (H1 & _ & H3 & H4).
  split; [| split; [| split]].
  - apply (H1 "head" OptHead c).
    + unfold single_options.
      repeat (first [ apply list_elem_of_here | apply list_elem_of_further ]).
    + eexists. vm_compute. reflexivity.
  - apply H3. unfold package_options.
    repeat (first [ apply list_elem_of_here | apply list_elem_of_further ]).
  - apply H3. unfold package_options.
    repeat (first [ apply list_elem_of_here | apply list_elem_of_further ]).
  - apply (H4 insertion_sort); [exact insertion_sort_contract |].
    apply reachable_option; [| unfold package_options; apply list_elem_of_here].
    apply reachable_custom. apply reachable_option.
    + apply reachable_new. unfold package_options.
      repeat (apply Forall_cons; split;
              [ repeat (first [ apply list_elem_of_here | apply list_elem_of_further ]) |]).
      apply Forall_nil_2.
    + unfold package_options.
      repeat (first [ apply list_elem_of_here | apply list_elem_of_further ]).
Defined.

(** C10.  [CreateTemplate] returns an error and no template when the source
    of the template is empty, for every name and every Config, nil included;
    a source that is not empty is handed to the parser of the template
    library together with the function map of the Config. *)
Theorem CreateTemplate_empty_source {Template : Type}
    (template_Parse : string -> gmap string Func -> string ->
                      option Template * option string)
    (nm : string) (cfg : option Config) :
  CreateTemplate template_Parse nm "" cfg
    = (None, Some ("template " +:+ nm +:+ " contains no source")) /\
  forall tmplSrc : string,
    tmplSrc <> "" ->
    CreateTemplate template_Parse nm tmplSrc cfg
      = template_Parse nm (getFuncMap cfg) tmplSrc.
Proof.
  split.
  - reflexivity.
  - intros tmplSrc Hne. unfold CreateTemplate.
    by destruct (decide (tmplSrc = "")).
Qed.

Lemma CreateTemplate_empty_source_witness :
  let parse := fun (nm : string) (m : gmap string Func) (src : string) =>
                 (Some (nm, src), @None string) in
  CreateTemplate parse "list" "" None
    = (None, Some "template list contains no source") /\
  CreateTemplate parse "list" "{{head .}}" None = (Some ("list", "{{head .}}"), None).
Proof.
  intros parse.
  destruct (CreateTemplate_empty_source parse "list" None) as [Hempty Hsrc].
  split; [exact Hempty |]. apply Hsrc. discriminate.
Defined.

(** * Go strings: slices and bytes *)

Lemma list_of_append (a b : string) :
  list_ascii_of_string (a +:+ b)
  = (list_ascii_of_string a ++ list_ascii_of_string b)%list.
Proof.
  induction a as [| c a IH]; [reflexivity |].
  rewrite append_cons. simpl. by rewrite IH.
Qed.

Lemma list_of_length (s : string) :
  length (list_ascii_of_string s) = String.length s.
Proof. induction s as [| c s IH]; simpl; [reflexivity | by rewrite IH]. Qed.

Lemma list_of_substring (n m : nat) (s : string) :
  list_ascii_of_string (String.substring n m s)
  = take m (drop n (list_ascii_of_string s)).
Proof.
  revert n m. induction s as [| c s IH]; intros n m.
  - destruct n, m; reflexivity.
  - destruct n as [| n]; simpl.
    + destruct m as [| m]; simpl; [reflexivity |]. f_equal. apply (IH 0%nat m).
    + apply IH.
Qed.

Lemma list_of_get (n : nat) (s : string) :
  String.get n s = list_ascii_of_string s !! n.
Proof.
  revert n. induction s as [| c s IH]; intros n; [by destruct n |].
  destruct n as [| n]; simpl; [reflexivity | apply IH].
Qed.

Lemma list_of_inj (s t : string) :
  list_ascii_of_string s = list_ascii_of_string t -> s = t.
Proof.
  intros H. rewrite <- (string_of_list_ascii_of_string s),
    <- (string_of_list_ascii_of_string t). by rewrite H.
Qed.

Lemma len_nonneg (s : string) : 0 <= len s.
Proof. unfold len. lia. Qed.

Lemma len_append (a b : string) : len (a +:+ b) = len a + len b.
Proof.
  unfold len. rewrite <- !list_of_length, list_of_append, length_app. lia.
Qed.

Lemma len_empty_inv (s : string) : len s = 0 -> s = "".
Proof. destruct s; [done |]. unfold len. simpl. lia. Qed.

Lemma len_slice (s : string) (lo hi : Z) :
  0 <= lo <= hi -> hi <= len s -> len (slice s lo hi) = hi - lo.
Proof.
  intros H1 H2. unfold len, slice in *.
  rewrite <- list_of_length, list_of_substring, length_take, length_drop,
    list_of_length. lia.
Qed.

Lemma slice_split (s : string) (i : Z) :
  0 <= i <= len s -> s = slice s 0 i +:+ slice s i (len s).
Proof.
  intros H. apply list_of_inj. unfold slice, len in *.
  rewrite list_of_append, !list_of_substring. simpl. rewrite drop_0.
  replace (Z.to_nat (i - 0)) with (Z.to_nat i) by lia.
  rewrite <- (take_drop (Z.to_nat i) (list_ascii_of_string s)) at 1. f_equal.
  symmetry. apply take_ge. rewrite length_drop, list_of_length. lia.
Qed.

Lemma slice_app_l (a b : string) (lo hi : Z) :
  0 <= lo <= hi -> hi <= len a -> slice (a +:+ b) lo hi = slice a lo hi.
Proof.
  intros H1 H2. apply list_of_inj. unfold slice, len in *.
  rewrite !list_of_substring, list_of_append.
  rewrite drop_app_le by (rewrite list_of_length; lia).
  rewrite take_app_le; [reflexivity |].
  rewrite length_drop, list_of_length. lia.
Qed.

Lemma slice_app_r (a b : string) (lo hi : Z) :
  0 <= lo <= hi ->
  slice (a +:+ b) (len a + lo) (len a + hi) = slice b lo hi.
Proof.
  intros H. apply list_of_inj. unfold slice, len in *.
  rewrite !list_of_substring, list_of_append.
  rewrite drop_app_ge by (rewrite list_of_length; lia).
  rewrite list_of_length. f_equal; [lia |]. f_equal. lia.
Qed.

Lemma slice_all (s : string) : slice s 0 (len s) = s.
Proof.
  apply list_of_inj. unfold slice, len. rewrite list_of_substring. simpl.
  rewrite drop_0. apply take_ge. rewrite list_of_length. lia.
Qed.

Lemma slice_empty (s : string) (lo hi : Z) : hi <= lo -> slice s lo hi = "".
Proof.
  intros H. apply list_of_inj. unfold slice. rewrite list_of_substring.
  replace (Z.to_nat (hi - lo)) with 0%nat by lia. reflexivity.
Qed.

Lemma byte_of_range (a : ascii) : 0 <= byte_of a < 256.
Proof.
  unfold byte_of. pose proof (N_ascii_bounded a). lia.
Qed.

Lemma byte_at_range (s : string) (k : Z) : 0 <= byte_at s k < 256.
Proof.
  unfold byte_at. destruct (k <? 0); [lia |].
  destruct (String.get (Z.to_nat k) s); [apply byte_of_range | lia].
Qed.

Lemma byte_at_app_l (a b : string) (k : Z) :
  0 <= k < len a -> byte_at (a +:+ b) k = byte_at a k.
Proof.
  intros H. unfold byte_at, len in *. destruct (k <? 0); [reflexivity |].
  rewrite !list_of_get, list_of_append.
  rewrite lookup_app_l by (rewrite list_of_length; lia). reflexivity.
Qed.

Lemma byte_at_app_r (a b : string) (k : Z) :
  0 <= k -> byte_at (a +:+ b) (len a + k) = byte_at b k.
Proof.
  intros H. unfold byte_at, len in *.
  destruct (Z.ltb_spec (Z.of_nat (String.length a) + k) 0); [lia |].
  destruct (Z.ltb_spec k 0); [lia |].
  rewrite !list_of_get, list_of_append.
  rewrite lookup_app_r by (rewrite list_of_length; lia).
  rewrite list_of_length.
  replace (Z.to_nat (Z.of_nat (String.length a) + k) - String.length a)%nat
    with (Z.to_nat k) by lia.
  reflexivity.
Qed.

Lemma byte_at_slice (s : string) (lo hi k : Z) :
  0 <= lo -> 0 <= k < hi - lo -> hi <= len s ->
  byte_at (slice s lo hi) k = byte_at s (lo + k).
Proof.
  intros Hlo Hk Hhi. unfold byte_at, slice, len in *.
  destruct (Z.ltb_spec k 0); [lia |].
  destruct (Z.ltb_spec (lo + k) 0); [lia |].
  rewrite !list_of_get, list_of_substring.
  rewrite lookup_take_lt by lia. rewrite lookup_drop.
  replace (Z.to_nat lo + Z.to_nat k)%nat with (Z.to_nat (lo + k)) by lia.
  reflexivity.
Qed.

Lemma byte_at_out (s : string) (k : Z) : len s <= k -> byte_at s k = 0.
Proof.
  intros H. unfold byte_at, len in *. destruct (k <? 0); [reflexivity |].
  rewrite list_of_get, lookup_ge_None_2; [reflexivity |].
  rewrite list_of_length. lia.
Qed.

(** * The decoder of unicode/utf8 *)

Lemma first_class (b : Z) :
  (b < 128 /\ utf8.first b = utf8.as_) \/
  ((128 <= b < 194 \/ 244 < b) /\ utf8.first b = utf8.xx) \/
  (194 <= b <= 223 /\ utf8.first b = utf8.s1) \/
  (b = 224 /\ utf8.first b = utf8.s2) \/
  ((225 <= b <= 236 \/ 238 <= b <= 239) /\ utf8.first b = utf8.s3) \/
  (b = 237 /\ utf8.first b = utf8.s4) \/
  (b = 240 /\ utf8.first b = utf8.s5) \/
  (241 <= b <= 243 /\ utf8.first b = utf8.s6) \/
  (b = 244 /\ utf8.first b = utf8.s7).
Proof. unfold utf8.first. split_ifs; intuition lia. Qed.

Lemma decode_by_class_ok (n : Z) (at_ : Z -> Z) :
  utf8.decode n at_ = decode_by_class n at_.
Proof.
  unfold utf8.decode, decode_by_class.
  destruct (Z.ltb_spec n 1); [reflexivity |]. cbv zeta.
  destruct (first_class (at_ 0))
    as [[H0 ->] | [[[H0 | H0] ->] | [[H0 ->] | [[H0 ->] | [[[H0 | H0] ->] |
         [[H0 ->] | [[H0 ->] | [[H0 ->] | [H0 ->]]]]]]]]].
  - eval_first utf8.as_. finish_decode.
  - eval_first utf8.xx. finish_decode.
  - eval_first utf8.xx. finish_decode.
  - eval_first utf8.s1. finish_decode.
  - eval_first utf8.s2. finish_decode.
  - eval_first utf8.s3. finish_decode.
  - eval_first utf8.s3. finish_decode.
  - eval_first utf8.s4. finish_decode.
  - eval_first utf8.s5. finish_decode.
  - eval_first utf8.s6. finish_decode.
  - eval_first utf8.s7. finish_decode.
Qed.

Lemma range_forallb (P : Z -> bool) (lo hi : Z) :
  forallb P (seqZ lo (hi - lo + 1)) = true ->
  forall z, lo <= z <= hi -> P z = true.
Proof.
  intros H z Hz. rewrite forallb_forall in H. apply H.
  apply list_elem_of_In, elem_of_seqZ. lia.
Qed.

Lemma IsSpace_RuneError : unicode.IsSpace utf8.RuneError = false.
Proof. reflexivity. Qed.

Lemma IsSpace_bound (r : Z) : unicode.IsSpace r = true -> 9 <= r <= 12288.
Proof.
  intros H. destruct (Z.leb_spec 9 r), (Z.leb_spec r 12288); [lia | exfalso ..];
    revert H; unfold unicode.IsSpace, unicode.MaxLatin1, unicode.White_Space_R16;
    cbn [existsb]; lia_cmp; split_ifs; cbn; intros; first [ discriminate | lia ].
Qed.

Lemma space2 (s0 s1 : Z) :
  194 <= s0 <= 223 -> 128 <= s1 <= 191 ->
  unicode.IsSpace (rune2 s0 s1) = true ->
  utf8.of_bytes [s0; s1] = utf8.EncodeRune (rune2 s0 s1).
Proof.
  intros H0 H1 Hsp.
  assert (Hall : forallb (fun s0 => forallb (fun s1 =>
            if unicode.IsSpace (rune2 s0 s1)
            then String.eqb (utf8.of_bytes [s0; s1]) (utf8.EncodeRune (rune2 s0 s1))
            else true) (seqZ 128 (191 - 128 + 1))) (seqZ 194 (223 - 194 + 1)) = true)
    by (vm_compute; reflexivity).
  pose proof (range_forallb _ _ _ (range_forallb _ _ _ Hall s0 H0) s1 H1) as H.
  cbv beta in H. rewrite Hsp in H. by apply String.eqb_eq.
Qed.

Lemma space3 (s0 s1 s2 : Z) :
  224 <= s0 <= 239 -> accepts s0 s1 = true -> 128 <= s2 <= 191 ->
  unicode.IsSpace (rune3 s0 s1 s2) = true ->
  utf8.of_bytes [s0; s1; s2] = utf8.EncodeRune (rune3 s0 s1 s2).
Proof.
  intros H0 Hacc H2 Hsp.
  assert (H1 : 128 <= s1 <= 191).
  { unfold accepts in Hacc. apply andb_true_iff in Hacc as [Hacc _].
    apply andb_true_iff in Hacc as [Ha Hb]. lia. }
  assert (Hall : forallb (fun s0 => forallb (fun s1 => forallb (fun s2 =>
            if accepts s0 s1 && unicode.IsSpace (rune3 s0 s1 s2)
            then String.eqb (utf8.of_bytes [s0; s1; s2])
                            (utf8.EncodeRune (rune3 s0 s1 s2))
            else true) (seqZ 128 (191 - 128 + 1))) (seqZ 128 (191 - 128 + 1)))
            (seqZ 224 (239 - 224 + 1)) = true)
    by (vm_compute; reflexivity).
  pose proof (range_forallb _ _ _
                (range_forallb _ _ _ (range_forallb _ _ _ Hall s0 H0) s1 H1) s2 H2) as H.
  cbv beta in H. rewrite Hacc, Hsp in H. by apply String.eqb_eq.
Qed.

Lemma lor_lower (a b : Z) : 0 <= b -> a <= Z.lor a b.
Proof.
  intros Hb. pose proof (Zbitwise.Z.sub_lor_l_same_l b a) as H.
  assert (0 <= Z.land b (Z.lnot a)) by (apply Z.land_nonneg; by left). lia.
Qed.

Lemma space4 (s0 s1 s2 s3 : Z) :
  240 <= s0 <= 244 -> accepts s0 s1 = true ->
  0 <= s2 -> 0 <= s3 ->
  unicode.IsSpace (rune4 s0 s1 s2 s3) = false.
Proof.
  intros H0 Hacc H2 H3.
  destruct (unicode.IsSpace (rune4 s0 s1 s2 s3)) eqn:Hsp; [| reflexivity].
  apply IsSpace_bound in Hsp. exfalso.
  assert (H1 : 128 <= s1 <= 191).
  { unfold accepts in Hacc. apply andb_true_iff in Hacc as [Hacc _].
    apply andb_true_iff in Hacc as [Ha Hb]. lia. }
  assert (Hall : forallb (fun s0 => forallb (fun s1 =>
            if accepts s0 s1
            then 65536 <=? Z.lor (Z.shiftl (Z.land s0 utf8.mask4) 18)
                                 (Z.shiftl (Z.land s1 utf8.maskx) 12)
            else true) (seqZ 128 (191 - 128 + 1))) (seqZ 240 (244 - 240 + 1)) = true)
    by (vm_compute; reflexivity).
  pose proof (range_forallb _ _ _ (range_forallb _ _ _ Hall s0 H0) s1 H1) as H.
  cbv beta in H. rewrite Hacc in H. apply Z.leb_le in H.
  unfold rune4 in Hsp.
  assert (0 <= Z.shiftl (Z.land s2 utf8.maskx) 6).
  { apply Z.shiftl_nonneg, Z.land_nonneg. by right. }
  assert (0 <= Z.land s3 utf8.maskx) by (apply Z.land_nonneg; by right).
  pose proof (lor_lower (Z.lor (Z.shiftl (Z.land s0 utf8.mask4) 18)
                               (Z.shiftl (Z.land s1 utf8.maskx) 12))
                        (Z.shiftl (Z.land s2 utf8.maskx) 6)).
  pose proof (lor_lower (Z.lor (Z.lor (Z.shiftl (Z.land s0 utf8.mask4) 18)
                                      (Z.shiftl (Z.land s1 utf8.maskx) 12))
                               (Z.shiftl (Z.land s2 utf8.maskx) 6))
                        (Z.land s3 utf8.maskx)).
  lia.
Qed.

(** ** Consequences for the decoder *)

Ltac by_class :=
  rewrite ?decode_by_class_ok; unfold decode_by_class.

Lemma decode_width (n : Z) (at_ : Z -> Z) :
  1 <= n -> 1 <= (utf8.decode n at_).2 <= n.
Proof.
  intros Hn. by_class. lia_cmp.
  repeat match goal with
  | |- context [ if ?b then _ else _ ] => destruct b eqn:?
  end; cbn [snd]; try lia;
  repeat match goal with
  | H : _ && _ = true |- _ => apply andb_true_iff in H as [? ?]
  | H : (_ <=? _) = true |- _ => apply Z.leb_le in H
  end; lia.
Qed.

(** A rune that takes the whole string keeps its decoding when bytes are
    added behind it. *)
Lemma decode_extend (n n' : Z) (at_ at' : Z -> Z) (r : Z) :
  utf8.decode n at_ = (r, n) -> 2 <= n -> n <= n' ->
  (forall k, 0 <= k < n -> at' k = at_ k) ->
  utf8.decode n' at' = (r, n) /\ 194 <= at_ 0.
Proof.
  intros Hdec Hn Hn' Hat. revert Hdec. by_class.
  rewrite (proj2 (Z.ltb_ge n 1)), (proj2 (Z.ltb_ge n' 1)) by lia.
  destruct (at_ 0 <? 128) eqn:E0; [intros [= _ H]; lia |].
  assert (H0 : at' 0 = at_ 0) by (apply Hat; lia).
  assert (H1 : at' 1 = at_ 1) by (apply Hat; lia).
  rewrite H0, E0, H1.
  destruct ((194 <=? at_ 0) && (at_ 0 <=? 223)) eqn:C2.
  { destruct ((2 <=? n) && accepts (at_ 0) (at_ 1)) eqn:A; [| intros [= _ H]; lia].
    intros [= <- <-]. lia_cmp. apply andb_true_iff in A as [_ ->].
    apply andb_true_iff in C2 as [C2 _]. apply Z.leb_le in C2. by split. }
  destruct ((224 <=? at_ 0) && (at_ 0 <=? 239)) eqn:C3.
  { destruct ((3 <=? n) && accepts (at_ 0) (at_ 1) && cont (at_ 2)) eqn:A;
      [| intros [= _ H]; lia].
    intros [= <- <-]. rewrite (Hat 2) by lia. lia_cmp.
    apply andb_true_iff in A as [A ->]. apply andb_true_iff in A as [_ ->].
    apply andb_true_iff in C3 as [C3 _]. apply Z.leb_le in C3. split; [done | lia]. }
  destruct ((240 <=? at_ 0) && (at_ 0 <=? 244)) eqn:C4; [| intros [= _ H]; lia].
  destruct ((4 <=? n) && accepts (at_ 0) (at_ 1) && cont (at_ 2) && cont (at_ 3)) eqn:A;
    [| intros [= _ H]; lia].
  intros [= <- <-]. rewrite (Hat 2), (Hat 3) by lia. lia_cmp.
  apply andb_true_iff in A as [A ->]. apply andb_true_iff in A as [A ->].
  apply andb_true_iff in A as [_ ->].
  apply andb_true_iff in C4 as [C4 _]. apply Z.leb_le in C4. split; [done | lia].
Qed.

(** A byte that is not ASCII and is not followed by a continuation byte is
    decoded on its own. *)
Lemma decode_single (n : Z) (at_ : Z -> Z) :
  1 <= n -> 128 <= at_ 0 -> cont (at_ 1) = false ->
  (utf8.decode n at_).2 = 1.
Proof.
  intros Hn H0 Hc. by_class. lia_cmp.
  assert (Hacc : accepts (at_ 0) (at_ 1) = false).
  { unfold accepts. unfold cont in Hc. by rewrite Hc. }
  rewrite Hacc, !andb_false_r. cbn [andb].
  repeat match goal with
  | |- context [ if ?b then _ else _ ] => destruct b
  end; reflexivity.
Qed.

(** ** Strings by their bytes *)

Lemma of_bytes_byte_of (a : ascii) (s : string) :
  String a s = utf8.of_bytes [byte_of a] +:+ s.
Proof.
  unfold byte_of. cbn [utf8.of_bytes]. rewrite N2Z.id, ascii_N_embedding.
  reflexivity.
Qed.

Lemma byte_at_cons_0 (a : ascii) (s : string) : byte_at (String a s) 0 = byte_of a.
Proof. reflexivity. Qed.

Lemma byte_at_cons_S (a : ascii) (s : string) (k : Z) :
  0 < k -> byte_at (String a s) k = byte_at s (k - 1).
Proof.
  intros Hk. unfold byte_at.
  destruct (Z.ltb_spec k 0), (Z.ltb_spec (k - 1) 0); try lia.
  replace (Z.to_nat k) with (S (Z.to_nat (k - 1))) by lia. reflexivity.
Qed.

Lemma len_cons (a : ascii) (s : string) : len (String a s) = len s + 1.
Proof. unfold len. simpl. lia. Qed.

Lemma string_of_len_1 (t : string) :
  len t = 1 -> t = utf8.of_bytes [byte_at t 0].
Proof.
  destruct t as [| a t]; [unfold len; simpl; lia |]. rewrite len_cons. intros H.
  rewrite (len_empty_inv t) by (pose proof (len_nonneg t); lia).
  rewrite byte_at_cons_0. rewrite (of_bytes_byte_of a ""). by rewrite append_empty_r.
Qed.

Lemma string_of_len_2 (t : string) :
  len t = 2 -> t = utf8.of_bytes [byte_at t 0; byte_at t 1].
Proof.
  destruct t as [| a t]; [unfold len; simpl; lia |]. rewrite len_cons. intros H.
  rewrite byte_at_cons_0, (byte_at_cons_S a t 1) by lia.
  change (1 - 1) with 0.
  rewrite (string_of_len_1 t) at 1 by lia. rewrite (of_bytes_byte_of a). reflexivity.
Qed.

Lemma string_of_len_3 (t : string) :
  len t = 3 -> t = utf8.of_bytes [byte_at t 0; byte_at t 1; byte_at t 2].
Proof.
  destruct t as [| a t]; [unfold len; simpl; lia |]. rewrite len_cons. intros H.
  rewrite byte_at_cons_0, (byte_at_cons_S a t 1), (byte_at_cons_S a t 2) by lia.
  change (1 - 1) with 0. change (2 - 1) with 1.
  rewrite (string_of_len_2 t) at 1 by lia. rewrite (of_bytes_byte_of a). reflexivity.
Qed.

Lemma EncodeRune_ascii (b : Z) :
  0 <= b < 128 -> utf8.EncodeRune b = utf8.of_bytes [b].
Proof. intros H. unfold utf8.EncodeRune, utf8.rune1Max. by lia_cmp. Qed.

(** A string that decodes as a whole to a white space rune is the encoding
    of that rune. *)
Lemma DecodeRune_space (t : string) (r : Z) :
  utf8.DecodeRuneInString t = (r, len t) -> unicode.IsSpace r = true ->
  t = utf8.EncodeRune r.
Proof.
  unfold utf8.DecodeRuneInString. by_class. intros Hdec Hsp.
  pose proof (byte_at_range t 0) as B0. pose proof (byte_at_range t 1) as B1.
  pose proof (byte_at_range t 2) as B2. pose proof (byte_at_range t 3) as B3.
  revert Hdec.
  destruct (len t <? 1); [intros [= <- _]; by rewrite IsSpace_RuneError in Hsp |].
  destruct (Z.ltb_spec (byte_at t 0) 128).
  { intros [= <- H1]. rewrite EncodeRune_ascii by lia. by apply string_of_len_1. }
  destruct ((194 <=? byte_at t 0) && (byte_at t 0 <=? 223)) eqn:C2.
  { destruct ((2 <=? len t) && accepts (byte_at t 0) (byte_at t 1)) eqn:A;
      [| intros [= <- _]; by rewrite IsSpace_RuneError in Hsp].
    intros [= <- H2]. rewrite (string_of_len_2 t) at 1 by done.
    apply andb_true_iff in A as [_ A]. unfold accepts in A.
    apply andb_true_iff in A as [A _]. apply andb_true_iff in A as [? ?].
    apply andb_true_iff in C2 as [? ?]. apply space2; [lia | lia | done]. }
  destruct ((224 <=? byte_at t 0) && (byte_at t 0 <=? 239)) eqn:C3.
  { destruct ((3 <=? len t) && accepts (byte_at t 0) (byte_at t 1) && cont (byte_at t 2)) eqn:A;
      [| intros [= <- _]; by rewrite IsSpace_RuneError in Hsp].
    intros [= <- H3]. rewrite (string_of_len_3 t) at 1 by done.
    apply andb_true_iff in A as [A Hc]. apply andb_true_iff in A as [_ A].
    unfold cont in Hc. apply andb_true_iff in Hc as [? ?].
    apply andb_true_iff in C3 as [? ?]. apply space3; [lia | done | lia | done]. }
  destruct ((240 <=? byte_at t 0) && (byte_at t 0 <=? 244)) eqn:C4;
    [| intros [= <- _]; by rewrite IsSpace_RuneError in Hsp].
  destruct ((4 <=? len t) && accepts (byte_at t 0) (byte_at t 1)
            && cont (byte_at t 2) && cont (byte_at t 3)) eqn:A;
    [| intros [= <- _]; by rewrite IsSpace_RuneError in Hsp].
  intros [= <- H4]. exfalso.
  apply andb_true_iff in A as [A _]. apply andb_true_iff in A as [A _].
  apply andb_true_iff in A as [_ A]. apply andb_true_iff in C4 as [? ?].
  rewrite space4 in Hsp; [discriminate | lia | done | lia | lia].
Qed.

(** ** The last rune of a string *)

Lemma byte_at_app_r' (a b : string) (i : Z) :
  len a <= i -> byte_at (a +:+ b) i = byte_at b (i - len a).
Proof.
  intros H. replace i with (len a + (i - len a)) at 1 by lia.
  apply byte_at_app_r. lia.
Qed.

Lemma slice_suffix (a b : string) :
  slice (a +:+ b) (len a) (len a + len b) = b.
Proof.
  pose proof (len_nonneg b).
  rewrite <- (Z.add_0_r (len a)) at 1. rewrite slice_app_r by lia. apply slice_all.
Qed.

Lemma slice_prefix (a b : string) : slice (a +:+ b) 0 (len a) = a.
Proof.
  pose proof (len_nonneg a). rewrite slice_app_l by lia. apply slice_all.
Qed.

Lemma slice_slice (s : string) (i lo hi : Z) :
  0 <= lo <= hi -> hi <= i -> i <= len s ->
  slice (slice s 0 i) lo hi = slice s lo hi.
Proof.
  intros H1 H2 H3. rewrite (slice_split s i) at 2 by lia.
  rewrite slice_app_l; [reflexivity | lia | rewrite len_slice; lia].
Qed.

Lemma slice_join (s : string) (a b c : Z) :
  0 <= a <= b -> b <= c -> c <= len s ->
  slice s a c = slice s a b +:+ slice s b c.
Proof.
  intros H1 H2 H3.
  rewrite (slice_split (slice s a c) (b - a)) by (rewrite len_slice; lia).
  rewrite (len_slice s a c) by lia.
  f_equal; apply list_of_inj; unfold slice; rewrite !list_of_substring.
  - rewrite drop_0, take_take. f_equal. lia.
  - rewrite !take_drop_commute, !drop_drop. f_equal; [lia |].
    rewrite take_take. f_equal. lia.
Qed.

Lemma scan_start_le (fuel : nat) (s : string) (lim start : Z) :
  utf8.scan_start fuel s lim start <= start.
Proof.
  revert start. induction fuel as [| fuel IH]; intros start; simpl; [lia |].
  destruct (start <? lim); [lia |].
  destruct (utf8.RuneStart (byte_at s start)); [lia |].
  specialize (IH (start - 1)). lia.
Qed.

(** How [DecodeLastRuneInString] comes to its answer. *)
Lemma DecodeLast_cases (s : string) :
  1 <= len s ->
  let last := byte_at s (len s - 1) in
  let r := (utf8.DecodeLastRuneInString s).1 in
  let size := (utf8.DecodeLastRuneInString s).2 in
  (last < 128 /\ r = last /\ size = 1) \/
  (128 <= last /\ r = utf8.RuneError /\ size = 1) \/
  (128 <= last /\ 1 <= size <= len s /\
   utf8.DecodeRuneInString (slice s (len s - size) (len s)) = (r, size)).
Proof.
  intros Hlen. cbv zeta. unfold utf8.DecodeLastRuneInString, utf8.RuneSelf.
  rewrite (proj2 (Z.eqb_neq (len s) 0)) by lia.
  destruct (Z.ltb_spec (byte_at s (len s - 1)) 128) as [Hb | Hb]; [left; by auto |].
  right.
  set (start := Z.max 0 (utf8.scan_start 4 s (Z.max 0 (len s - utf8.UTFMax))
                                         (len s - 1 - 1))).
  assert (Hstart : 0 <= start < len s).
  { unfold start.
    pose proof (scan_start_le 4 s (Z.max 0 (len s - utf8.UTFMax)) (len s - 1 - 1)).
    lia. }
  destruct (utf8.DecodeRuneInString (slice s start (len s))) as [r0 size0] eqn:Hdec.
  destruct (Z.eqb_spec (start + size0) (len s)) as [Heq | Hne]; cbn [negb fst snd].
  - right. split; [done |].
    pose proof (decode_width (len (slice s start (len s))) (byte_at (slice s start (len s)))) as Hw.
    unfold utf8.DecodeRuneInString in Hdec. rewrite Hdec in Hw. cbn [snd] in Hw.
    rewrite len_slice in Hw by lia. split; [lia |].
    replace (len s - size0) with start by lia. exact Hdec.
  - left. by auto.
Qed.

Lemma DecodeLast_width (s : string) :
  1 <= len s -> 1 <= (utf8.DecodeLastRuneInString s).2 <= len s.
Proof.
  intros H. destruct (DecodeLast_cases s H) as [(_ & _ & ->) | [(_ & _ & ->) | (_ & ? & _)]];
    lia.
Qed.

(** A white space rune at the end of a string: the string ends in its
    encoding. *)
Lemma DecodeLast_space (s : string) (r size : Z) :
  1 <= len s -> utf8.DecodeLastRuneInString s = (r, size) ->
  unicode.IsSpace r = true ->
  1 <= size <= len s /\
  slice s (len s - size) (len s) = utf8.EncodeRune r.
Proof.
  intros Hlen Hdec Hsp. pose proof (DecodeLast_cases s Hlen) as H.
  cbv zeta in H. rewrite Hdec in H. cbn [fst snd] in H.
  destruct H as [(Hb & -> & ->) | [(_ & -> & _) | (Hb & Hsize & Hrune)]].
  - split; [lia |]. pose proof (byte_at_range s (len s - 1)).
    rewrite EncodeRune_ascii by lia.
    rewrite (string_of_len_1 (slice s (len s - 1) (len s))) by (rewrite len_slice; lia).
    rewrite byte_at_slice by lia. do 3 f_equal. lia.
  - by rewrite IsSpace_RuneError in Hsp.
  - split; [done |]. apply DecodeRune_space; [| done].
    rewrite len_slice by lia. replace (len s - (len s - size)) with size by lia. done.
Qed.

(** The width that [TrimRightFunc] reads forward at the start of the last
    rune is the width [DecodeLastRuneInString] found, whatever follows, as
    long as it does not start with a continuation byte. *)
Lemma DecodeLast_forward (s u : string) :
  1 <= len s -> cont (byte_at u 0) = false ->
  let size := (utf8.DecodeLastRuneInString s).2 in
  let j := len s - size in
  (if utf8.RuneSelf <=? byte_at (s +:+ u) j
   then (utf8.DecodeRuneInString (slice (s +:+ u) j (len (s +:+ u)))).2
   else 1) = size.
Proof.
  intros Hlen Hu. cbv zeta. pose proof (DecodeLast_cases s Hlen) as H.
  cbv zeta in H. pose proof (len_nonneg u) as Hlu.
  set (size := (utf8.DecodeLastRuneInString s).2) in *.
  set (r := (utf8.DecodeLastRuneInString s).1) in *.
  assert (Hsz : 1 <= size <= len s) by apply DecodeLast_width, Hlen.
  rewrite byte_at_app_l by lia. unfold utf8.RuneSelf.
  assert (Htail : slice (s +:+ u) (len s - size) (len (s +:+ u))
                  = slice s (len s - size) (len s) +:+ u).
  { rewrite len_append.
    rewrite (slice_join (s +:+ u) (len s - size) (len s) (len s + len u))
      by (rewrite ?len_append; lia).
    rewrite slice_app_l by lia. rewrite slice_suffix. reflexivity. }
  rewrite Htail. clear Htail.
  set (t := slice s (len s - size) (len s)).
  assert (Hlt : len t = size) by (unfold t; rewrite len_slice; lia).
  assert (Ht0 : byte_at t 0 = byte_at s (len s - size)).
  { unfold t. rewrite byte_at_slice by lia. f_equal. lia. }
  assert (Hsingle : size = 1 -> 128 <= byte_at s (len s - 1) ->
            (utf8.DecodeRuneInString (t +:+ u)).2 = 1).
  { intros H1 Hb. unfold utf8.DecodeRuneInString. apply decode_single.
    - rewrite len_append. lia.
    - rewrite byte_at_app_l by lia. rewrite Ht0, H1. exact Hb.
    - rewrite byte_at_app_r' by lia.
      replace (1 - len t) with 0 by lia. exact Hu. }
  destruct H as [(Hb & _ & H1) | [(Hb & _ & H1) | (Hb & _ & Hrune)]].
  - rewrite H1. by rewrite (proj2 (Z.leb_gt 128 (byte_at s (len s - 1)))) by lia.
  - rewrite H1 in *. rewrite (proj2 (Z.leb_le 128 (byte_at s (len s - 1)))) by lia.
    by apply Hsingle.
  - destruct (Z.eq_dec size 1) as [H1 | H1].
    + rewrite H1 in *. rewrite (proj2 (Z.leb_le 128 (byte_at s (len s - 1)))) by lia.
      by apply Hsingle.
    + fold t in Hrune. unfold utf8.DecodeRuneInString in Hrune. rewrite Hlt in Hrune.
      rewrite <- Hlt in Hrune at 2.
      assert (Hext := decode_extend (len t) (len (t +:+ u)) (byte_at t)
                        (byte_at (t +:+ u)) r).
      rewrite Hlt in Hext. destruct Hext as [Hext H194].
      * rewrite <- Hlt at 2. exact Hrune.
      * lia.
      * rewrite len_append. lia.
      * intros k Hk. apply byte_at_app_l. lia.
      * rewrite <- Ht0. rewrite (proj2 (Z.leb_le 128 (byte_at t 0))) by lia.
        unfold utf8.DecodeRuneInString. by rewrite Hext.
Qed.

(** The last rune of a string that ends in a well-formed encoding of at most
    three bytes is the rune of that encoding. *)
Lemma DecodeLast_suffix (p e : string) (r : Z) :
  1 <= len e <= 3 ->
  utf8.DecodeRuneInString e = (r, len e) ->
  (len e = 1 -> byte_at e 0 < 128) ->
  (2 <= len e ->
   utf8.RuneStart (byte_at e 0) = true /\ 128 <= byte_at e (len e - 1)) ->
  (len e = 3 -> utf8.RuneStart (byte_at e 1) = false) ->
  utf8.DecodeLastRuneInString (p +:+ e) = (r, len e).
Proof.
  intros Hlen Hdec H1 H2 H3. pose proof (len_nonneg p) as Hp.
  unfold utf8.DecodeLastRuneInString, utf8.RuneSelf, utf8.UTFMax.
  rewrite len_append. rewrite (proj2 (Z.eqb_neq (len p + len e) 0)) by lia.
  rewrite (byte_at_app_r' p e (len p + len e - 1)) by lia.
  replace (len p + len e - 1 - len p) with (len e - 1) by lia.
  destruct (Z.eq_dec (len e) 1) as [E1 | E1].
  { rewrite E1 in *. change (1 - 1) with 0. specialize (H1 eq_refl).
    rewrite (proj2 (Z.ltb_lt (byte_at e 0) 128)) by lia.
    unfold utf8.DecodeRuneInString in Hdec. revert Hdec. by_class.
    rewrite E1. lia_cmp. by intros [= <-]. }
  destruct H2 as [Hs0 Hlast]; [lia |].
  rewrite (proj2 (Z.ltb_ge (byte_at e (len e - 1)) 128)) by lia.
  assert (Hscan : utf8.scan_start 4 (p +:+ e) (Z.max 0 (len p + len e - 4))
                    (len p + len e - 1 - 1) = len p).
  { destruct (Z.eq_dec (len e) 2) as [E2 | E2].
    - rewrite E2. cbn [utf8.scan_start].
      rewrite (proj2 (Z.ltb_ge (len p + 2 - 1 - 1) _)) by lia.
      rewrite (byte_at_app_r' p e) by lia.
      replace (len p + 2 - 1 - 1 - len p) with 0 by lia. rewrite Hs0. lia.
    - assert (E3 : len e = 3) by lia. rewrite E3. cbn [utf8.scan_start].
      rewrite (proj2 (Z.ltb_ge (len p + 3 - 1 - 1) _)) by lia.
      rewrite (byte_at_app_r' p e (len p + 3 - 1 - 1)) by lia.
      replace (len p + 3 - 1 - 1 - len p) with 1 by lia. rewrite (H3 E3).
      rewrite (proj2 (Z.ltb_ge (len p + 3 - 1 - 1 - 1) _)) by lia.
      rewrite (byte_at_app_r' p e) by lia.
      replace (len p + 3 - 1 - 1 - 1 - len p) with 0 by lia. rewrite Hs0. lia. }
  rewrite Hscan. rewrite (Z.max_r 0 (len p)) by lia.
  rewrite slice_suffix, Hdec.
  by rewrite (proj2 (Z.eqb_eq (len p + len e) (len p + len e))) by lia.
Qed.

Lemma space_runes_ok : forallb suffix_ok space_runes = true.
Proof. vm_compute. reflexivity. Qed.

Lemma IsSpace_space_runes (r : Z) :
  unicode.IsSpace r = true -> r ∈ space_runes.
Proof.
  intros Hsp. pose proof (IsSpace_bound r Hsp) as Hr.
  assert (Hall : forallb (fun r => if unicode.IsSpace r
                                   then bool_decide (r ∈ space_runes) else true)
                         (seqZ 9 (12288 - 9 + 1)) = true)
    by (vm_compute; reflexivity).
  pose proof (range_forallb _ _ _ Hall r Hr) as H. cbv beta in H.
  rewrite Hsp in H. by apply bool_decide_eq_true in H.
Qed.

Lemma IsSpace_suffix_ok (r : Z) : unicode.IsSpace r = true -> suffix_ok r = true.
Proof.
  intros Hsp. apply IsSpace_space_runes, list_elem_of_In in Hsp.
  pose proof space_runes_ok as H. rewrite forallb_forall in H. by apply H.
Qed.

Lemma space_encoding (r : Z) :
  unicode.IsSpace r = true ->
  1 <= len (utf8.EncodeRune r) /\
  cont (byte_at (utf8.EncodeRune r) 0) = false /\
  forall p, utf8.DecodeLastRuneInString (p +:+ utf8.EncodeRune r)
            = (r, len (utf8.EncodeRune r)).
Proof.
  intros Hsp. apply IsSpace_suffix_ok in Hsp. unfold suffix_ok in Hsp. cbv zeta in Hsp.
  repeat match type of Hsp with
  | _ && _ = true => let H := fresh "H" in apply andb_true_iff in Hsp as [Hsp H]
  end.
  apply Z.leb_le in Hsp. apply Z.leb_le in H4. apply Z.eqb_eq in H3, H2.
  apply negb_true_iff in H. split; [done |]. split; [done |]. intros p.
  apply DecodeLast_suffix.
  - lia.
  - destruct (utf8.DecodeRuneInString (utf8.EncodeRune r)). simpl in *. congruence.
  - intros E. rewrite E in H1. cbn in H1. by apply Z.ltb_lt.
  - intros E. rewrite (proj2 (Z.eqb_neq _ 1)) in H1 by lia.
    apply andb_true_iff in H1 as [? ?%Z.leb_le]. by split.
  - intros E. rewrite E in H0. cbn in H0. by apply negb_true_iff.
Qed.

(** ** Strings of white space *)

Lemma encode_runes_app (a b : list Z) :
  encode_runes (a ++ b) = encode_runes a +:+ encode_runes b.
Proof.
  unfold encode_runes. induction a as [| r a IH]; cbn [fold_right app]; [reflexivity |].
  rewrite IH. by rewrite append_assoc.
Qed.

Lemma encode_runes_snoc (a : list Z) (r : Z) :
  encode_runes (a ++ [r]) = encode_runes a +:+ utf8.EncodeRune r.
Proof.
  rewrite encode_runes_app. unfold encode_runes at 2. cbn [fold_right].
  by rewrite append_empty_r.
Qed.

Lemma only_space_empty : only_space "".
Proof. exists []. by split. Qed.

Lemma only_space_app (a b : string) :
  only_space a -> only_space b -> only_space (a +:+ b).
Proof.
  intros (ra & Ha & ->) (rb & Hb & ->). exists (ra ++ rb)%list.
  split; [by apply Forall_app | by rewrite encode_runes_app].
Qed.

Lemma only_space_rune (r : Z) :
  unicode.IsSpace r = true -> only_space (utf8.EncodeRune r).
Proof.
  intros H. exists [r]. split; [by constructor |].
  unfold encode_runes. cbn [fold_right]. by rewrite append_empty_r.
Qed.

Lemma only_space_first (u : string) : only_space u -> cont (byte_at u 0) = false.
Proof.
  intros (rs & Hrs & ->). destruct rs as [| r rs]; [reflexivity |].
  apply Forall_cons in Hrs as [Hr _].
  destruct (space_encoding r Hr) as (Hlen & Hc & _).
  unfold encode_runes. cbn [fold_right]. by rewrite byte_at_app_l by lia.
Qed.

Lemma append_cancel_r (a b c : string) : a +:+ c = b +:+ c -> a = b.
Proof.
  intros H. apply list_of_inj. apply (f_equal list_ascii_of_string) in H.
  rewrite !list_of_append in H. by apply app_inv_tail in H.
Qed.

(** A string of white space is one to the left of every place where a
    string of white space starts. *)
Lemma only_space_prefix (ws rs : list Z) (p : string) :
  Forall (fun r => unicode.IsSpace r = true) ws ->
  Forall (fun r => unicode.IsSpace r = true) rs ->
  encode_runes rs = p +:+ encode_runes ws ->
  only_space p.
Proof.
  revert rs. induction ws as [| w ws IH] using rev_ind; intros rs Hws Hrs Heq.
  - exists rs. split; [done |]. unfold encode_runes at 2 in Heq. cbn in Heq.
    by rewrite append_empty_r in Heq.
  - apply Forall_app in Hws as [Hws Hw]. apply Forall_cons in Hw as [Hw _].
    rewrite encode_runes_snoc, <- append_assoc in Heq.
    destruct (space_encoding w Hw) as (Hlw & _ & Hlast).
    destruct rs as [| x rs _] using rev_ind.
    { exfalso. apply (f_equal len) in Heq. rewrite len_append in Heq.
      pose proof (len_nonneg (p +:+ encode_runes ws)).
      change (len (encode_runes [])) with 0 in Heq. lia. }
    apply Forall_app in Hrs as [Hrs Hx]. apply Forall_cons in Hx as [Hx _].
    rewrite encode_runes_snoc in Heq.
    destruct (space_encoding x Hx) as (_ & _ & Hlastx).
    pose proof (Hlastx (encode_runes rs)) as Hl. rewrite Heq, Hlast in Hl.
    injection Hl as Hwx _. subst x.
    apply append_cancel_r in Heq. by apply (IH rs).
Qed.

Lemma only_space_last (t : string) :
  only_space t -> t <> "" ->
  unicode.IsSpace (utf8.DecodeLastRuneInString t).1 = true.
Proof.
  intros (rs & Hrs & ->) Hne. destruct rs as [| x rs _] using rev_ind; [done |].
  apply Forall_app in Hrs as [_ Hx]. apply Forall_cons in Hx as [Hx _].
  rewrite encode_runes_snoc.
  destruct (space_encoding x Hx) as (_ & _ & Hlast). by rewrite Hlast.
Qed.

(** ** TrimRightFunc with unicode.IsSpace *)

Lemma lastIndexFunc_loop_spec (s : string) (fuel : nat) (i : Z) :
  0 <= i <= len s -> i <= Z.of_nat fuel ->
  let j := strings.lastIndexFunc_loop fuel s unicode.IsSpace false i in
  (j = -1 /\ only_space (slice s 0 i)) \/
  (exists i', 0 < i' <= i /\
     unicode.IsSpace (utf8.DecodeLastRuneInString (slice s 0 i')).1 = false /\
     j = i' - (utf8.DecodeLastRuneInString (slice s 0 i')).2 /\
     only_space (slice s i' i)).
Proof.
  revert i. induction fuel as [| fuel IH]; intros i Hi Hfuel; cbv zeta.
  - left. split; [reflexivity |]. rewrite slice_empty by lia. apply only_space_empty.
  - cbn [strings.lastIndexFunc_loop].
    destruct (Z.gtb_spec i 0) as [Hpos | Hzero].
    2: { left. split; [reflexivity |]. rewrite slice_empty by lia.
         apply only_space_empty. }
    destruct (utf8.DecodeLastRuneInString (slice s 0 i)) as [r size] eqn:Hdec.
    assert (Hlen : len (slice s 0 i) = i) by (rewrite len_slice; lia).
    pose proof (DecodeLast_width (slice s 0 i)) as Hw.
    rewrite Hdec, Hlen in Hw. cbn [snd] in Hw. specialize (Hw ltac:(lia)).
    destruct (unicode.IsSpace r) eqn:Hsp; cbn [Bool.eqb].
    + destruct (DecodeLast_space (slice s 0 i) r size) as [_ Henc];
        [lia | done | done |].
      rewrite Hlen, slice_slice in Henc by lia.
      assert (Hrune : only_space (slice s (i - size) i)).
      { rewrite Henc. by apply only_space_rune. }
      destruct (IH (i - size)) as [[Hj Hall] | (i' & Hi' & Hns & Hj & Hall)];
        [lia | lia | |].
      * left. split; [exact Hj |].
        rewrite (slice_join s 0 (i - size) i) by lia. by apply only_space_app.
      * right. exists i'. split; [lia |]. split; [exact Hns |]. split; [exact Hj |].
        rewrite (slice_join s i' (i - size) i) by lia. by apply only_space_app.
    + right. exists i. split; [lia |]. rewrite Hdec. cbn [fst snd].
      split; [exact Hsp |]. split; [reflexivity |].
      rewrite slice_empty by lia. apply only_space_empty.
Qed.

(** [TrimRightFunc(s, unicode.IsSpace)] is [s] without a string of white
    space at its end, and what is left does not end in white space. *)
Lemma TrimRightFunc_IsSpace (s : string) :
  let t := strings.TrimRightFunc s unicode.IsSpace in
  exists u : string,
    s = t +:+ u /\ only_space u /\
    (t = "" \/ unicode.IsSpace (utf8.DecodeLastRuneInString t).1 = false).
Proof.
  cbv zeta. unfold strings.TrimRightFunc, strings.lastIndexFunc.
  pose proof (len_nonneg s) as Hs.
  destruct (lastIndexFunc_loop_spec s (String.length s) (len s))
    as [[Hj Hall] | (i' & Hi' & Hns & Hj & Hall)]; [lia | unfold len; lia | |].
  - rewrite Hj. change (0 <=? -1) with false. cbn [andb]. change (-1 + 1) with 0.
    rewrite slice_empty by lia. exists s. rewrite slice_all in Hall.
    split; [reflexivity |]. split; [exact Hall | by left].
  - set (P := slice s 0 i') in *. set (u := slice s i' (len s)) in *.
    assert (HP : len P = i') by (unfold P; rewrite len_slice; lia).
    assert (Hsplit : s = P +:+ u) by (apply slice_split; lia).
    pose proof (DecodeLast_width P ltac:(lia)) as Hw. rewrite HP in Hw.
    pose proof (DecodeLast_forward P u ltac:(lia) (only_space_first u Hall)) as Hfw.
    cbv zeta in Hfw. rewrite <- Hsplit, HP in Hfw.
    rewrite Hj. rewrite (proj2 (Z.leb_le 0 _)) by lia. cbn [andb].
    assert (Hi : (if utf8.RuneSelf <=?
                       byte_at s (i' - (utf8.DecodeLastRuneInString P).2)
                  then i' - (utf8.DecodeLastRuneInString P).2 +
                       (utf8.DecodeRuneInString
                          (slice s (i' - (utf8.DecodeLastRuneInString P).2) (len s))).2
                  else i' - (utf8.DecodeLastRuneInString P).2 + 1) = i').
    { destruct (utf8.RuneSelf <=? byte_at s (i' - (utf8.DecodeLastRuneInString P).2));
        lia. }
    rewrite Hi. fold P. exists u. split; [exact Hsplit |]. split; [exact Hall |].
    by right.
Qed.

Lemma TrimRightFunc_empty_iff (s : string) :
  strings.TrimRightFunc s unicode.IsSpace = "" <-> only_space s.
Proof.
  destruct (TrimRightFunc_IsSpace s) as (u & Hs & Hu & Ht). cbv zeta in *. split.
  - intros E. rewrite E in Hs. cbn in Hs. by rewrite Hs.
  - intros (rs & Hrs & Hall). destruct Hu as (ws & Hws & Hu).
    destruct Ht as [Ht | Ht]; [exact Ht |].
    destruct (decide (strings.TrimRightFunc s unicode.IsSpace = "")) as [E | E];
      [exact E |].
    assert (Hp : only_space (strings.TrimRightFunc s unicode.IsSpace)).
    { apply (only_space_prefix ws rs); [done | done |]. by rewrite <- Hall, <- Hu. }
    rewrite (only_space_last _ Hp E) in Ht. discriminate.
Qed.

(** ** Looking up one usage text *)

Lemma find_help_absent (nm : string) (l : list funcHelpInfo) :
  nm ∉ map name l -> find_help nm l = None.
Proof.
  induction l as [| h l IH]; [reflexivity |]. cbn [map find_help]. intros Hn.
  apply not_elem_of_cons in Hn as [Hne Hn].
  destruct (decide (name h = nm)); [congruence | by apply IH].
Qed.

Lemma find_help_last (nm : string) (l : list funcHelpInfo) (h : funcHelpInfo) :
  nm ∉ map name l -> name h = nm -> find_help nm (l ++ [h]) = Some (help h).
Proof.
  induction l as [| x l IH]; cbn [map app find_help]; intros Hn Hh.
  - by destruct (decide (name h = nm)).
  - apply not_elem_of_cons in Hn as [Hne Hn].
    destruct (decide (name x = nm)); [congruence | by apply IH].
Qed.

(** C9.  On a Config a program can reach and a name that is not taken,
    [AddCustomFn] registers the function.  With a help text that is a string
    of white space, the empty string included, it records no help entry: the
    help list is as before, [TemplateFunctionNames] does not list the name
    and [TemplateFunctionHelpSingle] reports it as not defined.  With any
    other help text it stores the text without the string of white space at
    its end, followed by one newline, as the last help entry. *)
Theorem AddCustomFn_help_text (sort_Sort : Config -> Config) (c : Config)
    (fn : Func) (nm helpText : string) :
  sort_Sort_contract sort_Sort -> reachable sort_Sort c ->
  funcMap c !! nm = None ->
  let c' := (AddCustomFn c fn nm helpText).1 in
  (AddCustomFn c fn nm helpText).2 = None /\
  funcMap c' !! nm = Some fn /\
  (only_space helpText ->
     funcHelp c' = funcHelp c /\
     nm ∉ TemplateFunctionNames (Some c') /\
     TemplateFunctionHelpSingle nm (Some c')
       = ("", Some (nm +:+ " is not defined"))) /\
  (~ only_space helpText ->
     exists text ws : string,
       helpText = text +:+ ws /\ only_space ws /\ text <> "" /\
       unicode.IsSpace (utf8.DecodeLastRuneInString text).1 = false /\
       funcHelp c' = (funcHelp c ++
         [ {| name := nm; help := text +:+ nl; index := helpIndexCount |} ])%list /\
       TemplateFunctionNames (Some c')
         = (TemplateFunctionNames (Some c) ++ [nm])%list /\
       TemplateFunctionHelpSingle nm (Some c') = (text +:+ nl, None)).
Proof.
  intros Hsort Hreach Hnone c'.
  destruct (reachable_help_registered sort_Sort c Hsort Hreach) as [_ Hreg].
  assert (Hfresh : nm ∉ map name (funcHelp c)).
  { intros Hin. apply list_elem_of_fmap in Hin as (h & -> & Hh).
    apply Hreg in Hh as [x Hx]. congruence. }
  assert (Hguard : ~ is_Some (funcMap c !! nm)).
  { rewrite Hnone. by intros [x Hx]. }
  subst c'. unfold AddCustomFn.
  destruct (decide (is_Some (funcMap c !! nm))) as [Hs | _]; [contradiction |].
  cbv zeta.
  destruct (TrimRightFunc_IsSpace helpText) as (ws & Hsplit & Hws & Hlast).
  cbv zeta in Hsplit, Hlast.
  destruct (decide (strings.TrimRightFunc helpText unicode.IsSpace = ""))
    as [Hempty | Hfull]; cbn [fst snd funcMap funcHelp].
  - split; [reflexivity |]. split; [apply lookup_insert_eq |]. split.
    + intros _. split; [reflexivity |].
      unfold TemplateFunctionNames, TemplateFunctionHelpSingle.
      cbn [getHelpers funcHelp]. split; [exact Hfresh |].
      by rewrite find_help_absent.
    + intros Hnot. exfalso. apply Hnot. by apply TrimRightFunc_empty_iff.
  - split; [reflexivity |]. split; [apply lookup_insert_eq |]. split.
    + intros Hall. exfalso. apply Hfull. by apply TrimRightFunc_empty_iff.
    + intros _. exists (strings.TrimRightFunc helpText unicode.IsSpace), ws.
      split; [exact Hsplit |]. split; [exact Hws |]. split; [exact Hfull |].
      split; [by destruct Hlast |]. split; [reflexivity |].
      unfold TemplateFunctionNames, TemplateFunctionHelpSingle.
      cbn [getHelpers funcHelp]. split; [by rewrite map_app |].
      by rewrite find_help_last.
Qed.

Lemma AddCustomFn_help_text_witness :
  let c := NewConfig insertion_sort [OptHead] in
  let blank := " " +:+ nl +:+ utf8.EncodeRune 160 +:+ utf8.EncodeRune 8195 in
  TemplateFunctionNames (Some (AddCustomFn c (UserFn 1) "sum" blank).1) = ["head"] /\
  TemplateFunctionHelpSingle "sum" (Some (AddCustomFn c (UserFn 1) "sum" blank).1)
    = ("", Some "sum is not defined") /\
  exists text ws,
    "- sum of a slice" +:+ blank = text +:+ ws /\
    TemplateFunctionHelpSingle "sum"
      (Some (AddCustomFn c (UserFn 1) "sum" ("- sum of a slice" +:+ blank)).1)
    = (text +:+ nl, None).
Proof.
  intros c blank.
  assert (Hreach : reachable insertion_sort c).
  { apply reachable_new. apply Forall_cons. split; [| apply Forall_nil_2].
    unfold package_options.
    repeat (first [ apply list_elem_of_here | apply list_elem_of_further ]). }
  assert (Hnone : funcMap c !! "sum" = None) by (vm_compute; reflexivity).
  assert (Hblank : only_space blank).
  { exists [32; 10; 160; 8195]. split; [| vm_compute; reflexivity].
    repeat (apply Forall_cons; split; [reflexivity |]). apply Forall_nil_2. }
  assert (Htext : ~ only_space ("- sum of a slice" +:+ blank)).
  { intros H. apply TrimRightFunc_empty_iff in H. vm_compute in H. discriminate. }
  destruct (AddCustomFn_help_text insertion_sort c (UserFn 1) "sum" blank
              insertion_sort_contract Hreach Hnone) as (_ & _ & Hb & _).
  destruct (Hb Hblank) as (Hhelp & _ & Hsingle).
  destruct (AddCustomFn_help_text insertion_sort c (UserFn 1) "sum"
              ("- sum of a slice" +:+ blank)
              insertion_sort_contract Hreach Hnone) as (_ & _ & _ & Ht).
  destruct (Ht Htext) as (text & ws & Hsplit & _ & _ & _ & _ & _ & Hone).
  split; [| split; [exact Hsingle |]].
  - unfold TemplateFunctionNames. cbn [getHelpers]. rewrite Hhelp.
    vm_compute. reflexivity.
  - exists text, ws. by split.
Defined.

(** * Properties of the engine *)

Import Engine.

(** ** The stable sort *)

Section StableSort.
Context {A : Type} (lt : A -> A -> bool).

Lemma insert_stable_perm (a : A) (l : list A) : insert_stable lt a l ≡ₚ a :: l.
Proof.
  induction l as [| x l IH]; simpl; [reflexivity |].
  destruct (lt x a); [| reflexivity]. rewrite IH. apply Permutation_swap.
Qed.

Lemma stable_sort_perm (l : list A) : stable_sort lt l ≡ₚ l.
Proof.
  unfold stable_sort. induction l as [| a l IH]; simpl; [reflexivity |].
  by rewrite insert_stable_perm, IH.
Qed.

Lemma stable_sort_length (l : list A) : length (stable_sort lt l) = length l.
Proof. apply Permutation_length, stable_sort_perm. Qed.

End StableSort.

Section Tagged.
Context {A : Type} (lt : A -> A -> bool).

Lemma insert_stable_snd (a : nat * A) (l : list (nat * A)) :
  map snd (insert_stable (lt_tagged lt) a l) = insert_stable lt (snd a) (map snd l).
Proof.
  induction l as [| x l IH]; simpl; [reflexivity |].
  unfold lt_tagged at 1. destruct (lt (snd x) (snd a)); simpl; [by rewrite IH | done].
Qed.

Lemma stable_sort_snd (l : list (nat * A)) :
  map snd (stable_sort (lt_tagged lt) l) = stable_sort lt (map snd l).
Proof.
  unfold stable_sort. induction l as [| a l IH]; simpl; [reflexivity |].
  by rewrite insert_stable_snd, IH.
Qed.

Lemma insert_stable_in_order (a : nat * A) (l : list (nat * A)) :
  StronglySorted (in_order lt) l ->
  Forall (fun y => (fst a < fst y)%nat) l ->
  StronglySorted (in_order lt) (insert_stable (lt_tagged lt) a l).
Proof.
  induction 1 as [| x l Hl IH Hx]; intros Ha; simpl; [repeat constructor |].
  apply Forall_cons in Ha as [Hax Ha].
  destruct (lt_tagged lt x a) eqn:E.
  - constructor; [by apply IH |]. rewrite insert_stable_perm.
    constructor; [right; exact E | exact Hx].
  - constructor; [by constructor |]. constructor; [by left |].
    eapply Forall_impl; [exact Ha |]. intros y Hy. by left.
Qed.

Lemma stable_sort_in_order (l : list (nat * A)) :
  StronglySorted (fun x y => (fst x < fst y)%nat) l ->
  StronglySorted (in_order lt) (stable_sort (lt_tagged lt) l).
Proof.
  unfold stable_sort. induction 1 as [| a l Hl IH Ha]; simpl; [constructor |].
  apply insert_stable_in_order; [exact IH |].
  change (Forall (fun y => (fst a < fst y)%nat) (stable_sort (lt_tagged lt) l)).
  by rewrite stable_sort_perm.
Qed.

End Tagged.

Lemma zip_seq_tags {A : Type} (l : list A) (start : nat) :
  StronglySorted (fun x y : nat * A => (fst x < fst y)%nat) (zip (seq start (length l)) l).
Proof.
  revert start. induction l as [| a l IH]; intros start; simpl; [constructor |].
  constructor; [apply IH |]. apply Forall_forall. intros [i r] Hin.
  apply elem_of_zip_l in Hin. apply list_elem_of_In, in_seq in Hin. simpl. lia.
Qed.

Lemma zip_seq_lookup {A : Type} (l : list A) (i : nat) (r : A) :
  (i, r) ∈ zip (seq 0 (length l)) l -> l !! i = Some r.
Proof.
  intros Hin. apply elem_of_lookup_zip_with in Hin as (p & x & y & Heq & Hx & Hy).
  injection Heq as -> ->. apply lookup_seq in Hx as [-> _]. exact Hy.
Qed.

(** ** The comparator finds equality both ways round *)

Section Sorting.
Context {float : Type}.
Variable float_lt : float -> float -> bool.
Variable formatFloat : float -> string.
Variable render_other : @Value float -> string.

Notation compare_values := (compare_values float_lt formatFloat render_other).
Notation sort_key := (@sort_key float).
Notation sortBy := (sortBy float_lt formatFloat render_other).
Notation sort_order := (sort_order float_lt formatFloat render_other).
Notation same_key := (same_key float_lt formatFloat render_other).
Notation sortBy_call := (sortBy_call float_lt formatFloat render_other).

Lemma string_compare_Eq_sym (s t : string) :
  String.compare s t = Eq -> String.compare t s = Eq.
Proof. intros H. rewrite String.compare_antisym, H. reflexivity. Qed.

Lemma compare_values_Eq_sym (a b : Value) :
  compare_values a b = Eq -> compare_values b a = Eq.
Proof.
  destruct a, b; simpl; try apply string_compare_Eq_sym.
  - intros H. rewrite Z.compare_antisym, H. reflexivity.
  - unfold compare_by_lt. destruct (float_lt x x0), (float_lt x0 x); done.
Qed.

Lemma same_key_not_before (d : Direction) (nm : string) (r1 r2 : Record_) :
  same_key nm r1 r2 -> before float_lt formatFloat render_other d
                         (sort_key nm r1) (sort_key nm r2) = false.
Proof.
  unfold Engine.same_key, before. intros ->. by destruct d.
Qed.

Lemma same_key_sym (nm : string) (r1 r2 : Record_) :
  same_key nm r1 r2 -> same_key nm r2 r1.
Proof. apply compare_values_Eq_sym. Qed.

(** C7.  The direction of [sortBy] is optional and ascending when left out;
    with the direction given, the two tokens sort and every other string
    makes the call fail with an error. *)
Theorem sortBy_direction (C : Collection) (fieldName : string) :
  sortBy C fieldName None = sortBy C fieldName (Some "asc") /\
  (exists C', sortBy C fieldName (Some "asc") = Ok C') /\
  (exists C', sortBy C fieldName (Some "dsc") = Ok C') /\
  forall d : string,
    d <> "asc" -> d <> "dsc" ->
    sortBy C fieldName (Some d) = Err ArgumentError.
Proof.
  split; [reflexivity |]. split; [by eexists |]. split; [by eexists |].
  intros d Hasc Hdsc. unfold Engine.sortBy, parse_direction.
  destruct (decide (d = "asc")); [done |]. by destruct (decide (d = "dsc")).
Qed.

(** C3.  For every collection, field name and accepted direction, [sortBy]
    returns a collection of the same length that is a permutation of the
    input.  The sort is stable: of two records with equal keys, the one that
    stood first in the input stands first in the output.  The call produces
    a new collection and leaves the one it was given as it was. *)
Theorem sortBy_stable_permutation (C : Collection) (fieldName : string)
    (direction : option string) (d : Direction) :
  parse_direction direction = Ok d ->
  exists C' : Collection,
    sortBy C fieldName direction = Ok C' /\
    length C' = length C /\
    C' ≡ₚ C /\
    (let order := sort_order C fieldName d in
     order ≡ₚ seq 0 (length C) /\
     Forall2 (fun i r => C !! i = Some r) order C' /\
     forall (p q i j : nat) (ri rj : Record_),
       (p < q)%nat -> order !! p = Some i -> order !! q = Some j ->
       C !! i = Some ri -> C !! j = Some rj ->
       same_key fieldName ri rj -> (i < j)%nat) /\
    forall (st : gmap positive Collection) (p : positive),
      st !! p = Some C ->
      exists (st' : gmap positive Collection) (q : positive),
        sortBy_call st p fieldName direction = Ok (st', q) /\
        q <> p /\ st !! q = None /\
        st' !! q = Some C' /\ st' !! p = Some C /\
        forall p', p' <> q -> st' !! p' = st !! p'.
Proof.
  intros Hdir.
  set (lt := fun x a : Record_ =>
               before float_lt formatFloat render_other d
                      (sort_key fieldName x) (sort_key fieldName a)).
  set (T := stable_sort (lt_tagged lt) (zip (seq 0 (length C)) C)).
  assert (HC' : sortBy C fieldName direction = Ok (stable_sort lt C)).
  { unfold Engine.sortBy. by rewrite Hdir. }
  assert (Hsnd : map snd T = stable_sort lt C).
  { unfold T. rewrite stable_sort_snd. f_equal. apply snd_zip.
    by rewrite length_seq. }
  assert (HT : T ≡ₚ zip (seq 0 (length C)) C) by apply stable_sort_perm.
  exists (stable_sort lt C). split; [exact HC' |].
  split; [apply stable_sort_length |]. split; [apply stable_sort_perm |].
  split; [| intros st p Hp].
  - change (sort_order C fieldName d) with (map fst T). cbn zeta. split; [| split].
    + rewrite HT. rewrite fst_zip; [reflexivity | by rewrite length_seq].
    + rewrite <- Hsnd. apply Forall2_fmap, Forall_Forall2_diag, Forall_forall.
      intros [i r] Hin. simpl. apply zip_seq_lookup. by rewrite <- HT.
    + intros p q i j ri rj Hpq Hp Hq Hi Hj Hkey.
      apply list_lookup_fmap_Some in Hp as ([i' ri'] & Hi' & Hp). simpl in Hi'. subst i'.
      apply list_lookup_fmap_Some in Hq as ([j' rj'] & Hj' & Hq). simpl in Hj'. subst j'.
      assert (ri' = ri).
      { pose proof (list_elem_of_lookup_2 _ _ _ Hp) as Hin. rewrite HT in Hin.
        apply zip_seq_lookup in Hin.
        assert (Heq : Some ri' = Some ri) by (rewrite <- Hin; exact Hi).
        by injection Heq. }
      assert (rj' = rj).
      { pose proof (list_elem_of_lookup_2 _ _ _ Hq) as Hin. rewrite HT in Hin.
        apply zip_seq_lookup in Hin.
        assert (Heq : Some rj' = Some rj) by (rewrite <- Hin; exact Hj).
        by injection Heq. }
      subst ri' rj'.
      pose proof (stable_sort_in_order lt _ (zip_seq_tags C 0)) as Hord.
      destruct (StronglySorted_at _ _ _ _ _ _ Hord Hpq Hp Hq) as [Hlt | Hlt];
        [exact Hlt |].
      simpl in Hlt. unfold lt in Hlt.
      rewrite (same_key_not_before d fieldName ri rj Hkey) in Hlt. discriminate.
  - unfold Engine.sortBy_call. rewrite Hp, HC'.
    pose proof (is_fresh (dom st)) as Hfresh.
    set (q := fresh (dom st)) in *.
    assert (Hq : st !! q = None) by (by apply not_elem_of_dom).
    assert (Hne : q <> p).
    { intros Heq. rewrite Heq in Hq. rewrite Hp in Hq. discriminate. }
    eexists _, q. split; [reflexivity |].
    split; [exact Hne |]. split; [exact Hq |].
    split; [apply lookup_insert_eq |].
    split; [by rewrite lookup_insert_ne |].
    intros p' Hp'. by rewrite lookup_insert_ne.
Qed.

End Sorting.

(** ** head and rows *)

(** C5.  [head(C, n)] returns the first [min(n, len(C))] elements of [C]; a
    negative [n] is an error; an [n] greater than the length returns the
    whole collection; without [n] the call is [head(C, 1)]. *)
Theorem head_first_elements {A : Type} (C : list A) (n : Z) :
  (n < 0 -> head C (Some n) = Err ArgumentError) /\
  (0 <= n ->
   exists front rest : list A,
     head C (Some n) = Ok front /\ C = (front ++ rest)%list /\
     Z.of_nat (length front) = Z.min n (Z.of_nat (length C))) /\
  (Z.of_nat (length C) < n -> head C (Some n) = Ok C) /\
  head C None = head C (Some 1).
Proof.
  unfold head. split; [| split; [| split]].
  - intros Hn. destruct (n <? 0) eqn:E; [reflexivity | lia].
  - intros Hn. destruct (n <? 0) eqn:E; [lia |].
    exists (take (Z.to_nat (Z.min n (Z.of_nat (length C)))) C),
           (drop (Z.to_nat (Z.min n (Z.of_nat (length C)))) C).
    split; [reflexivity |]. split; [by rewrite take_drop |].
    rewrite length_take. lia.
  - intros Hn. destruct (n <? 0) eqn:E; [lia |]. f_equal. apply take_ge. lia.
  - reflexivity.
Qed.

Lemma head_first_elements_witness :
  head [10; 20; 30] (Some (-1)) = Err ArgumentError /\
  head [10; 20; 30] (Some 5) = Ok [10; 20; 30] /\
  head [10; 20; 30] None = head [10; 20; 30] (Some 1) /\
  exists front rest,
    head [10; 20; 30] (Some 2) = Ok front /\ [10; 20; 30] = (front ++ rest)%list.
Proof.
  destruct (head_first_elements [10; 20; 30] (-1)) as (Hneg & _ & _ & _).
  destruct (head_first_elements [10; 20; 30] 5) as (_ & _ & Hbig & Hdef).
  destruct (head_first_elements [10; 20; 30] 2) as (_ & Hmin & _ & _).
  split; [apply Hneg; lia |]. split; [apply Hbig; simpl; lia |].
  split; [exact Hdef |].
  destruct Hmin as (front & rest & H1 & H2 & _); [lia |].
  exists front, rest. by split.
Defined.

(** C6.  [rows(C, indices...)] never fails.  Its result lists, for the
    indices that are in range and in the order they were given, the record of
    [C] at that index; an index out of range contributes nothing.  On a
    collection of two records the indices 0, 1, 2 give the records at 0 and
    1. *)
Theorem rows_in_range {A : Type} (C : list A) (indices : list Z) :
  (exists out : list A,
     rows C indices = Ok out /\
     Forall2 (fun i r => C !! Z.to_nat i = Some r)
             (filter (in_range C) indices) out) /\
  (forall a b : A, rows [a; b] [0; 1; 2] = Ok [a; b]).
Proof.
  split; [| reflexivity].
  exists (omap (row_at C) indices). split; [reflexivity |].
  induction indices as [| i indices IH]; [constructor |].
  rewrite filter_cons. cbn [omap list_omap]. unfold row_at at 1.
  destruct (decide (in_range C i)) as [Hi | Hi]; unfold in_range in Hi.
  - assert (E : (0 <=? i) && (i <? Z.of_nat (length C)) = true).
    { apply andb_true_iff. split; [apply Z.leb_le | apply Z.ltb_lt]; lia. }
    rewrite E. destruct (C !! Z.to_nat i) as [r |] eqn:Er.
    + constructor; [exact Er | exact IH].
    + apply lookup_ge_None in Er. lia.
  - assert (E : (0 <=? i) && (i <? Z.of_nat (length C)) = false).
    { apply andb_false_iff.
      destruct (Z.leb_spec 0 i); [right; apply Z.ltb_ge; lia | by left]. }
    rewrite E. exact IH.
Qed.

Lemma rows_in_range_witness :
  rows ["r0"; "r1"] [0; 1; 2] = Ok ["r0"; "r1"] /\
  exists out, rows ["r0"; "r1"; "r2"] [2; -1; 0; 7; 2] = Ok out /\
    Forall2 (fun i r => ["r0"; "r1"; "r2"] !! Z.to_nat i = Some r) [2; 0; 2] out.
Proof.
  split.
  - exact (proj2 (rows_in_range ["r0"; "r1"] []) "r0" "r1").
  - exact (proj1 (rows_in_range ["r0"; "r1"; "r2"] [2; -1; 0; 7; 2])).
Defined.

Lemma sortBy_direction_witness :
  sortBy sample_lt sample_format sample_render_other stocks "Volume" None
  = sortBy sample_lt sample_format sample_render_other stocks "Volume" (Some "asc") /\
  sortBy sample_lt sample_format sample_render_other stocks "Volume" (Some "up")
  = Err ArgumentError.
Proof.
  destruct (sortBy_direction sample_lt sample_format sample_render_other
              stocks "Volume") as (Hdefault & _ & _ & Hbad).
  split; [exact Hdefault |]. apply Hbad; discriminate.
Defined.

Lemma sortBy_stable_permutation_witness :
  exists C',
    sortBy sample_lt sample_format sample_render_other stocks "Volume" (Some "dsc")
    = Ok C' /\
    length C' = 4%nat /\ C' ≡ₚ stocks.
Proof.
  destruct (sortBy_stable_permutation sample_lt sample_format sample_render_other
              stocks "Volume" (Some "dsc") Descending eq_refl)
    as (C' & Hrun & Hlen & Hperm & _).
  exists C'. split; [exact Hrun |]. split; [exact Hlen | exact Hperm].
Defined.

(** * Further properties of tfortools.go *)

(** * The sort.Interface of the Config object *)

Lemma insert_head_perm {A : Type} (l : list A) (j : nat) (x y : A) :
  l !! j = Some y -> y :: <[j := x]> l ≡ₚ x :: l.
Proof.
  revert j. induction l as [| a l IH]; intros [| j] Hj; try discriminate.
  - injection Hj as ->. apply perm_swap.
  - cbn [lookup list_lookup] in Hj. cbn [insert list_insert].
    rewrite (perm_swap a y). rewrite (IH j Hj). apply perm_swap.
Qed.

Lemma swap_perm {A : Type} (l : list A) (i j : nat) (hi hj : A) :
  l !! i = Some hi -> l !! j = Some hj ->
  <[j := hi]> (<[i := hj]> l) ≡ₚ l.
Proof.
  revert i j. induction l as [| a l IH]; intros [| i] [| j] Hi Hj;
    try discriminate.
  - injection Hi as ->. reflexivity.
  - injection Hi as ->. cbn [lookup list_lookup] in Hj. cbn [insert list_insert].
    by apply insert_head_perm.
  - injection Hj as ->. cbn [lookup list_lookup] in Hi. cbn [insert list_insert].
    by apply insert_head_perm.
  - cbn [lookup list_lookup] in Hi, Hj. cbn [insert list_insert].
    apply Permutation_cons; [reflexivity |]. by apply IH.
Qed.

Lemma swap_lookup {A : Type} (l : list A) (i j k : nat) (hi hj : A) :
  l !! i = Some hi -> l !! j = Some hj ->
  <[j := hi]> (<[i := hj]> l) !! k =
  if decide (k = j) then Some hi else if decide (k = i) then Some hj else l !! k.
Proof.
  intros Hi Hj.
  assert (Hli := lookup_lt_Some _ _ _ Hi). assert (Hlj := lookup_lt_Some _ _ _ Hj).
  destruct (decide (k = j)) as [-> | Hkj].
  - apply list_lookup_insert_eq. by rewrite length_insert.
  - rewrite list_lookup_insert_ne by done.
    destruct (decide (k = i)) as [-> | Hki].
    + by apply list_lookup_insert_eq.
    + by rewrite list_lookup_insert_ne.
Qed.

Lemma Swap_permutes (c : Config) (i j : nat) :
  (i < Len c)%nat -> (j < Len c)%nat ->
  Len (Swap c i j) = Len c /\
  funcMap (Swap c i j) = funcMap c /\
  funcHelp (Swap c i j) ≡ₚ funcHelp c.
Proof.
  unfold Len. intros Hi Hj.
  destruct (lookup_lt_is_Some_2 _ _ Hi) as [hi Ei].
  destruct (lookup_lt_is_Some_2 _ _ Hj) as [hj Ej].
  unfold Swap. rewrite Ei, Ej. cbn [funcMap funcHelp].
  split; [by rewrite !length_insert |]. split; [reflexivity |].
  by apply swap_perm.
Qed.

(** X1.  [Swap] at two positions of the usage texts exchanges the two
    entries and nothing else: the length, the function map and every other
    entry stay, the texts are rearranged, and swapping again restores the
    Config. *)
Theorem Swap_exchanges (c : Config) (i j : nat) :
  (i < Len c)%nat -> (j < Len c)%nat ->
  Len (Swap c i j) = Len c /\
  funcMap (Swap c i j) = funcMap c /\
  funcHelp (Swap c i j) !! i = funcHelp c !! j /\
  funcHelp (Swap c i j) !! j = funcHelp c !! i /\
  (forall k : nat, k <> i -> k <> j ->
     funcHelp (Swap c i j) !! k = funcHelp c !! k) /\
  funcHelp (Swap c i j) ≡ₚ funcHelp c /\
  Swap (Swap c i j) i j = c.
Proof.
  unfold Len. intros Hi Hj.
  destruct (lookup_lt_is_Some_2 _ _ Hi) as [hi Ei].
  destruct (lookup_lt_is_Some_2 _ _ Hj) as [hj Ej].
  assert (Hlook := fun k => swap_lookup (funcHelp c) i j k hi hj Ei Ej).
  assert (Ei' : <[j := hi]> (<[i := hj]> (funcHelp c)) !! i = Some hj).
  { rewrite Hlook. destruct (decide (i = j)) as [-> | _].
    - rewrite Ei in Ej. exact Ej.
    - by rewrite decide_True. }
  assert (Ej' : <[j := hi]> (<[i := hj]> (funcHelp c)) !! j = Some hi).
  { rewrite Hlook. by rewrite decide_True. }
  unfold Swap at 1 2 3 4 5 6. rewrite Ei, Ej. cbn [funcMap funcHelp].
  split; [by rewrite !length_insert |]. split; [reflexivity |].
  split; [by rewrite Ei' |]. split; [by rewrite Ej' |]. split.
  - intros k Hki Hkj. rewrite Hlook. by rewrite !decide_False.
  - split; [by apply swap_perm |].
    unfold Swap. rewrite Ei, Ej. cbn [funcMap funcHelp]. rewrite Ei', Ej'.
    destruct c as [m l]. cbn [funcMap funcHelp] in *. f_equal.
    apply list_eq. intros k.
    rewrite (swap_lookup _ i j k hj hi Ei' Ej'), Hlook.
    destruct (decide (k = j)) as [-> | Hkj]; [done |].
    destruct (decide (k = i)) as [-> | Hki]; done.
Qed.

Lemma Swap_exchanges_witness :
  let c := insertion_sort (OptTail (OptHead (OptFilter empty_config))) in
  funcHelp (Swap c 0 2) !! 0%nat = funcHelp c !! 2%nat /\
  Swap (Swap c 0 2) 0 2 = c.
Proof.
  intros c.
  destruct (Swap_exchanges c 0 2) as (_ & _ & H0 & _ & _ & _ & Hinv);
    [vm_compute; lia | vm_compute; lia |].
  split; [exact H0 | exact Hinv].
Defined.

(** X2.  On the positions of the usage texts, [Less] is a strict weak
    order: it is never true of a position and itself, it is asymmetric and
    transitive, and so is its negation.  Two positions neither of which is
    [Less] than the other hold the same priority index. *)
Theorem Less_strict_weak_order (c : Config) (i j k : nat) :
  (i < Len c)%nat -> (j < Len c)%nat -> (k < Len c)%nat ->
  Less c i i = false /\
  (Less c i j = true -> Less c j k = true -> Less c i k = true) /\
  (Less c i j = false -> Less c j k = false -> Less c i k = false) /\
  (Less c i j = true -> Less c j i = false) /\
  (Less c i j = false -> Less c j i = false ->
   index <$> funcHelp c !! i = index <$> funcHelp c !! j).
Proof.
  unfold Len. intros Hi Hj Hk.
  destruct (lookup_lt_is_Some_2 _ _ Hi) as [hi Ei].
  destruct (lookup_lt_is_Some_2 _ _ Hj) as [hj Ej].
  destruct (lookup_lt_is_Some_2 _ _ Hk) as [hk Ek].
  unfold Less. rewrite Ei, Ej, Ek. cbn [fmap option_fmap option_map].
  rewrite !Z.ltb_lt, !Z.ltb_ge. repeat split; try lia.
  intros. f_equal. lia.
Qed.

Lemma Less_strict_weak_order_witness :
  let c := OptFilter (OptTail (OptHead empty_config)) in
  Less c 0 0 = false /\ (Less c 2 0 = true -> Less c 0 2 = false).
Proof.
  intros c.
  destruct (Less_strict_weak_order c 2 0 1) as (_ & _ & _ & H & _);
    [vm_compute; lia | vm_compute; lia | vm_compute; lia |].
  destruct (Less_strict_weak_order c 0 0 0) as (H0 & _);
    [vm_compute; lia | vm_compute; lia | vm_compute; lia |].
  split; [exact H0 | exact H].
Defined.

(** * Sorting through the interface *)

(** X3.  Whatever a sort does through [Swap], at positions inside the
    usage texts, it cannot lose or invent anything: after any sequence of
    swaps the function map and the length are the same, and the usage texts
    and the names of [TemplateFunctionNames] are rearranged. *)
Theorem swaps_rearrange (swaps : list (nat * nat)) (c : Config) :
  Forall (fun ij => (ij.1 < Len c)%nat /\ (ij.2 < Len c)%nat) swaps ->
  let c' := fold_left (fun c ij => Swap c ij.1 ij.2) swaps c in
  funcMap c' = funcMap c /\
  Len c' = Len c /\
  funcHelp c' ≡ₚ funcHelp c /\
  TemplateFunctionNames (Some c') ≡ₚ TemplateFunctionNames (Some c).
Proof.
  revert c. induction swaps as [| [i j] swaps IH]; intros c Hall; cbv zeta.
  - done.
  - apply Forall_cons in Hall as [[Hi Hj] Hall]. cbn [fst snd] in Hi, Hj.
    cbn [fold_left fst snd].
    destruct (Swap_permutes c i j Hi Hj) as (Hlen & Hmap & Hperm).
    destruct (IH (Swap c i j)) as (Hm & Hl & Hp & Hn).
    { rewrite Hlen. exact Hall. }
    cbv zeta in Hm, Hl, Hp, Hn.
    split; [by rewrite Hm |]. split; [by rewrite Hl |].
    split; [by rewrite Hp |].
    rewrite Hn. unfold TemplateFunctionNames. cbn [getHelpers].
    by apply Permutation_map.
Qed.

Lemma swaps_rearrange_witness :
  let c := OptFilter (OptTail (OptHead empty_config)) in
  let c' := fold_left (fun c ij => Swap c ij.1 ij.2) [(0, 2); (1, 2)]%nat c in
  funcMap c' = funcMap c /\
  TemplateFunctionNames (Some c') ≡ₚ TemplateFunctionNames (Some c).
Proof.
  intros c c'.
  destruct (swaps_rearrange [(0, 2); (1, 2)]%nat c) as (Hm & _ & _ & Hn).
  - repeat constructor; vm_compute; lia.
  - split; [exact Hm | exact Hn].
Defined.

(** * What NewConfig enables *)

Lemma NewConfig_same_enabled (sort_Sort : Config -> Config)
    (o1 o2 : list (Config -> Config)) :
  sort_Sort_contract sort_Sort ->
  Forall (fun opt => opt ∈ package_options) o1 ->
  Forall (fun opt => opt ∈ package_options) o2 ->
  ⋃ (enabled_by <$> o1) = ⋃ (enabled_by <$> o2) ->
  NewConfig sort_Sort o1 = NewConfig sort_Sort o2.
Proof.
  intros Hsort H1 H2 Hsame.
  destruct (NewConfig_spec sort_Sort o1 Hsort H1) as (Hf1 & Hd1 & Hh1).
  destruct (NewConfig_spec sort_Sort o2 Hsort H2) as (Hf2 & Hd2 & Hh2).
  assert (Hmap : funcMap (NewConfig sort_Sort o1) = funcMap (NewConfig sort_Sort o2)).
  { apply from_tables_determined; [done | done |]. by rewrite Hd1, Hd2. }
  destruct (NewConfig sort_Sort o1) as [m1 l1], (NewConfig sort_Sort o2) as [m2 l2].
  unfold enabled_help in *. cbn [funcMap funcHelp] in Hmap, Hh1, Hh2.
  subst m2. by rewrite Hh1, Hh2.
Qed.

Lemma filter_options_package (opt : Config -> Config) :
  opt ∈ filter_options -> opt ∈ package_options.
Proof.
  intros H. unfold filter_options in H. list_cases H; subst opt;
    unfold package_options;
    repeat (first [ apply list_elem_of_here | apply list_elem_of_further ]).
Qed.

Lemma enabled_by_filter_options :
  ⋃ (enabled_by <$> filter_options) = enabled_by OptAllFilters.
Proof.
  unfold filter_options.
  cbn [fmap list_fmap union_list foldr].
  unfold OptFilter, OptFilterContains, OptFilterHasPrefix, OptFilterHasSuffix,
    OptFilterFolded, OptFilterRegexp.
  change (enabled_by (enable "filter" (PkgFn "filterByField") helpFilter helpFilterIndex)
          ∪ (enabled_by (enable "filterContains" (PkgFn "filterByContains") helpFilterContains helpFilterContainsIndex)
          ∪ (enabled_by (enable "filterHasPrefix" (PkgFn "filterByHasPrefix") helpFilterHasPrefix helpFilterHasPrefixIndex)
          ∪ (enabled_by (enable "filterHasSuffix" (PkgFn "filterByHasSuffix") helpFilterHasSuffix helpFilterHasSuffixIndex)
          ∪ (enabled_by (enable "filterFolded" (PkgFn "filterByFolded") helpFilterFolded helpFilterFoldedIndex)
          ∪ (enabled_by (enable "filterRegexp" (PkgFn "filterByRegexp") helpFilterRegexp helpFilterRegexpIndex)
          ∪ ∅))))) = enabled_by OptAllFilters).
  rewrite !enabled_by_enable.
  unfold enabled_by at 1. rewrite OptAllFilters_enable. rewrite !enable_dom.
  change (funcMap empty_config) with (∅ : gmap string Func).
  rewrite dom_empty_L. set_solver.
Qed.

Lemma union_list_perm (Xs Ys : list (gset string)) :
  Xs ≡ₚ Ys -> ⋃ Xs = ⋃ Ys.
Proof.
  intros HP. apply set_eq. intros x. rewrite !elem_of_union_list.
  split; intros (X & HX & Hx); exists X; (split; [| exact Hx]).
  - by rewrite <- HP.
  - by rewrite HP.
Qed.

(** X4.  [OptAllFilters] stands for the six filter options: given to
    [NewConfig] among options of the package, it yields the same Config as
    the six options [OptFilter] ... [OptFilterRegexp] given in any order. *)
Theorem OptAllFilters_six_options (sort_Sort : Config -> Config)
    (six options : list (Config -> Config)) :
  sort_Sort_contract sort_Sort ->
  Forall (fun opt => opt ∈ package_options) options ->
  six ≡ₚ filter_options ->
  NewConfig sort_Sort (OptAllFilters :: options) =
  NewConfig sort_Sort (six ++ options)%list.
Proof.
  intros Hsort Hall Hsix.
  apply NewConfig_same_enabled; [exact Hsort | | |].
  - constructor; [| exact Hall]. unfold package_options.
    apply list_elem_of_further, list_elem_of_here.
  - apply Forall_app. split; [| exact Hall].
    apply Forall_forall. intros opt Hopt. apply filter_options_package.
    by rewrite <- Hsix.
  - rewrite fmap_cons, union_list_cons, fmap_app, union_list_app_L.
    f_equal. rewrite <- enabled_by_filter_options.
    apply union_list_perm. by rewrite Hsix.
Qed.

Lemma OptAllFilters_six_options_witness :
  NewConfig insertion_sort [OptAllFilters; OptHead] =
  NewConfig insertion_sort
    [OptFilterContains; OptFilter; OptFilterHasPrefix; OptFilterHasSuffix;
     OptFilterFolded; OptFilterRegexp; OptHead].
Proof.
  apply (OptAllFilters_six_options insertion_sort
           [OptFilterContains; OptFilter; OptFilterHasPrefix; OptFilterHasSuffix;
            OptFilterFolded; OptFilterRegexp] [OptHead]).
  - exact insertion_sort_contract.
  - apply Forall_singleton. unfold package_options.
    repeat (first [ apply list_elem_of_here | apply list_elem_of_further ]).
  - unfold filter_options. apply perm_swap.
Defined.

(** X5.  [OptAllFns] replaces both members of the Config, so whatever was
    set up before it is discarded: the options given to [NewConfig] before
    [OptAllFns] have no effect on the result, whatever they are, and a custom
    function added to a Config is gone once [OptAllFns] is applied to it. *)
Theorem OptAllFns_discards (sort_Sort : Config -> Config)
    (before after : list (Config -> Config)) (c : Config)
    (fn : Func) (nm helpText : string) :
  NewConfig sort_Sort (before ++ OptAllFns :: after)%list =
  NewConfig sort_Sort (OptAllFns :: after) /\
  OptAllFns (AddCustomFn c fn nm helpText).1 = OptAllFns c.
Proof.
  split; [| reflexivity].
  unfold NewConfig. cbv zeta. f_equal.
  rewrite fold_left_app. reflexivity.
Qed.

(** X6.  [NewConfig] enables exactly the functions that its options
    enable one by one; with no options it enables none. *)
Theorem NewConfig_enabled (sort_Sort : Config -> Config)
    (options : list (Config -> Config)) (nm : string) :
  sort_Sort_contract sort_Sort ->
  Forall (fun opt => opt ∈ package_options) options ->
  is_Some (funcMap (NewConfig sort_Sort options) !! nm) <->
  exists opt, opt ∈ options /\ is_Some (funcMap (NewConfig sort_Sort [opt]) !! nm).
Proof.
  intros Hsort Hall.
  destruct (NewConfig_spec sort_Sort options Hsort Hall) as (_ & Hd & _).
  rewrite <- elem_of_dom, Hd, elem_of_union_list.
  assert (Hone : forall opt, opt ∈ options ->
            dom (funcMap (NewConfig sort_Sort [opt])) = enabled_by opt).
  { intros opt Hopt.
    destruct (NewConfig_spec sort_Sort [opt] Hsort) as (_ & Hd1 & _).
    - apply Forall_singleton. rewrite Forall_forall in Hall. by apply Hall.
    - rewrite Hd1. cbn [fmap list_fmap union_list foldr].
      apply (right_id_L ∅ (∪)). }
  split.
  - intros (X & HX & Hx). apply list_elem_of_fmap in HX as (opt & -> & Hopt).
    exists opt. split; [exact Hopt |]. apply elem_of_dom. by rewrite Hone.
  - intros (opt & Hopt & Hs). exists (enabled_by opt). split.
    + by apply list_elem_of_fmap_2.
    + rewrite <- Hone by done. by apply elem_of_dom.
Qed.

Lemma NewConfig_enabled_witness :
  is_Some (funcMap (NewConfig insertion_sort [OptTail; OptHead]) !! "head") <->
  exists opt, opt ∈ [OptTail; OptHead] /\
              is_Some (funcMap (NewConfig insertion_sort [opt]) !! "head").
Proof.
  apply (NewConfig_enabled insertion_sort [OptTail; OptHead] "head").
  - exact insertion_sort_contract.
  - repeat constructor; unfold package_options;
      repeat (first [ apply list_elem_of_here | apply list_elem_of_further ]).
Defined.

(** * The help functions *)

Lemma funcMap_has_help (nm : string) :
  is_Some (pkg.funcMap !! nm) -> nm ∈ map name pkg.funcHelpSlice.
Proof.
  intros [fn H]. unfold pkg.funcMap in H. apply elem_of_list_to_map_2 in H.
  list_cases H; injection H as -> _; unfold pkg.funcHelpSlice; cbn [map name];
    repeat (first [ apply list_elem_of_here | apply list_elem_of_further ]).
Qed.

Lemma find_help_first (nm : string) (l : list funcHelpInfo) :
  nm ∈ map name l ->
  exists (i : nat) (h : funcHelpInfo),
    l !! i = Some h /\ name h = nm /\ find_help nm l = Some (help h) /\
    forall (k : nat) (x : funcHelpInfo), (k < i)%nat -> l !! k = Some x -> name x <> nm.
Proof.
  induction l as [| x l IH]; cbn [map find_help]; intros Hin.
  - apply elem_of_nil in Hin. destruct Hin.
  - destruct (decide (name x = nm)) as [Hx | Hx].
    + exists 0%nat, x. repeat split; try done. intros k y Hk. lia.
    + apply elem_of_cons in Hin as [Hin | Hin]; [congruence |].
      destruct (IH Hin) as (i & h & Hi & Hh & Hf & Hbefore).
      exists (S i), h. repeat split; try done.
      intros [| k] y Hk Hy.
      * injection Hy as <-. exact Hx.
      * apply (Hbefore k); [lia | exact Hy].
Qed.

Lemma find_help_NoDup (l : list funcHelpInfo) (h : funcHelpInfo) :
  NoDup (map name l) -> h ∈ l -> find_help (name h) l = Some (help h).
Proof.
  induction l as [| x l IH]; cbn [map find_help]; intros Hnd Hin.
  - apply elem_of_nil in Hin. destruct Hin.
  - apply NoDup_cons in Hnd as [Hx Hnd].
    apply elem_of_cons in Hin as [-> | Hin].
    + by rewrite decide_True.
    + rewrite decide_False; [by apply IH |].
      intros Heq. apply Hx. rewrite Heq. by apply list_elem_of_fmap_2.
Qed.

(** X7.  [TemplateFunctionHelpSingle] finds a name exactly when
    [TemplateFunctionNames] lists it.  It then returns, without an error, the
    usage text of the first helper of that name; otherwise the text is empty
    and the error reads "<name> is not defined". *)
Theorem TemplateFunctionHelpSingle_names (nm : string) (c : option Config) :
  ((TemplateFunctionHelpSingle nm c).2 = None <-> nm ∈ TemplateFunctionNames c) /\
  (nm ∈ TemplateFunctionNames c ->
   exists (i : nat) (h : funcHelpInfo),
     getHelpers c !! i = Some h /\ name h = nm /\
     TemplateFunctionNames c !! i = Some nm /\
     (forall k : nat, (k < i)%nat -> TemplateFunctionNames c !! k <> Some nm) /\
     TemplateFunctionHelpSingle nm c = (help h, None)) /\
  (nm ∉ TemplateFunctionNames c ->
   TemplateFunctionHelpSingle nm c = ("", Some (nm +:+ " is not defined"))).
Proof.
  unfold TemplateFunctionHelpSingle, TemplateFunctionNames.
  destruct (decide (nm ∈ map name (getHelpers c))) as [Hin | Hnot].
  - destruct (find_help_first nm _ Hin) as (i & h & Hi & Hh & Hf & Hbefore).
    rewrite Hf. cbn [snd]. split; [done |]. split; [| done].
    intros _. exists i, h. repeat split; try done.
    + by rewrite list_lookup_fmap, Hi, <- Hh.
    + intros k Hk. rewrite list_lookup_fmap.
      destruct (getHelpers c !! k) as [x |] eqn:Ex; [| done].
      cbn. intros [= Heq]. by apply (Hbefore k x).
  - rewrite (find_help_absent nm _ Hnot). cbn [snd]. split; [| done].
    split; [discriminate | done].
Qed.

Lemma TemplateFunctionHelpSingle_names_witness :
  let c := Some (NewConfig insertion_sort [OptTail; OptHead]) in
  TemplateFunctionHelpSingle "tail" c = (helpTail, None) /\
  TemplateFunctionHelpSingle "sort" c = ("", Some "sort is not defined").
Proof.
  intros c. split.
  - destruct (TemplateFunctionHelpSingle_names "tail" c) as (_ & H & _).
    destruct H as (i & h & Hi & Hh & Hn & Hb & ->).
    { vm_compute. apply list_elem_of_further, list_elem_of_here. }
    destruct i as [| [| i]]; vm_compute in Hi; [| | discriminate].
    + injection Hi as <-. vm_compute in Hh. discriminate.
    + injection Hi as <-. reflexivity.
  - destruct (TemplateFunctionHelpSingle_names "sort" c) as (_ & _ & H).
    apply H. vm_compute. intros Hin.
    apply elem_of_cons in Hin as [Hin | Hin]; [discriminate |].
    apply elem_of_cons in Hin as [Hin | Hin]; [discriminate |].
    by apply elem_of_nil in Hin.
Defined.

Lemma concat_help_single (L l : list funcHelpInfo) :
  NoDup (map name L) -> l ⊆ L ->
  concat_help l =
  fold_right (fun nm rest =>
                match find_help nm L with Some t => t | None => "" end +:+ rest)
             "" (map name l).
Proof.
  intros Hnd. induction l as [| h l IH]; intros Hsub; [reflexivity |].
  unfold concat_help. cbn [fold_right map].
  rewrite (find_help_NoDup L h Hnd) by (apply Hsub, list_elem_of_here).
  f_equal. apply IH. intros x Hx. apply Hsub. by apply list_elem_of_further.
Qed.

(** X8.  For a Config built by [NewConfig], options and [AddCustomFn],
    the text of [TemplateFunctionHelp] is its header followed by the texts
    that [TemplateFunctionHelpSingle] returns for the names of
    [TemplateFunctionNames], in their order. *)
Theorem TemplateFunctionHelp_by_names (sort_Sort : Config -> Config) (c : Config) :
  sort_Sort_contract sort_Sort -> reachable sort_Sort c ->
  TemplateFunctionHelp (Some c) =
  help_header +:+
  fold_right (fun nm rest => (TemplateFunctionHelpSingle nm (Some c)).1 +:+ rest)
             "" (TemplateFunctionNames (Some c)).
Proof.
  intros Hsort Hc.
  destruct (reachable_help_registered sort_Sort c Hsort Hc) as [Hnd _].
  rewrite TemplateFunctionHelp_concat. f_equal.
  unfold TemplateFunctionNames, TemplateFunctionHelpSingle. cbn [getHelpers].
  rewrite (concat_help_single (funcHelp c) (funcHelp c) Hnd) by done.
  generalize (map name (funcHelp c)). intros names.
  induction names as [| nm names IH]; [reflexivity |]. cbn [fold_right].
  rewrite IH. by destruct (find_help nm (funcHelp c)).
Qed.

Lemma TemplateFunctionHelp_by_names_witness :
  let c := (AddCustomFn (NewConfig insertion_sort [OptTail; OptHead])
                        (UserFn 1) "sum" "- sum adds numbers").1 in
  TemplateFunctionHelp (Some c) =
  help_header +:+
  fold_right (fun nm rest => (TemplateFunctionHelpSingle nm (Some c)).1 +:+ rest)
             "" (TemplateFunctionNames (Some c)).
Proof.
  intros c. apply (TemplateFunctionHelp_by_names insertion_sort c).
  - exact insertion_sort_contract.
  - apply reachable_custom. apply reachable_new.
    repeat constructor; unfold package_options;
      repeat (first [ apply list_elem_of_here | apply list_elem_of_further ]).
Defined.

(** X9.  In a Config that [NewConfig] builds from options of the
    package, the documented names are exactly the enabled functions: each key
    of the function map is listed by [TemplateFunctionNames] once, and nothing
    else is. *)
Theorem TemplateFunctionNames_enabled (sort_Sort : Config -> Config)
    (options : list (Config -> Config)) :
  sort_Sort_contract sort_Sort ->
  Forall (fun opt => opt ∈ package_options) options ->
  let c := NewConfig sort_Sort options in
  NoDup (TemplateFunctionNames (Some c)) /\
  (forall nm : string,
     nm ∈ TemplateFunctionNames (Some c) <-> is_Some (funcMap c !! nm)) /\
  length (TemplateFunctionNames (Some c)) = size (funcMap c).
Proof.
  intros Hsort Hall c.
  destruct (NewConfig_spec sort_Sort options Hsort Hall) as (Hft & _ & _).
  fold c in Hft.
  destruct (from_tables_help_registered c Hft) as [Hnd Hreg].
  destruct Hft as (Hsub & _ & Hiff).
  unfold TemplateFunctionNames. cbn [getHelpers].
  assert (Hnames : forall nm : string,
            nm ∈ map name (funcHelp c) <-> is_Some (funcMap c !! nm)).
  { intros nm. split.
    - intros Hin. apply list_elem_of_fmap in Hin as (h & -> & Hh). by apply Hreg.
    - intros Hs.
      assert (Hp : is_Some (pkg.funcMap !! nm)).
      { destruct Hs as [fn Hfn]. exists fn.
        by apply (lookup_weaken _ _ _ _ Hfn). }
      apply funcMap_has_help in Hp.
      apply list_elem_of_fmap in Hp as (h & -> & Hh).
      apply list_elem_of_fmap_2. apply Hiff. by split. }
  split; [exact Hnd |]. split; [exact Hnames |].
  rewrite <- size_dom, <- (size_list_to_set (C := gset string)) by exact Hnd.
  f_equal. apply set_eq. intros nm.
  by rewrite elem_of_list_to_set, Hnames, elem_of_dom.
Qed.

Lemma TemplateFunctionNames_enabled_witness :
  let c := NewConfig insertion_sort [OptTail; OptAllFilters; OptTail] in
  NoDup (TemplateFunctionNames (Some c)) /\
  length (TemplateFunctionNames (Some c)) = size (funcMap c).
Proof.
  intros c.
  destruct (TemplateFunctionNames_enabled insertion_sort
              [OptTail; OptAllFilters; OptTail]) as (Hnd & _ & Hlen).
  - exact insertion_sort_contract.
  - repeat constructor; unfold package_options;
      repeat (first [ apply list_elem_of_here | apply list_elem_of_further ]).
  - split; [exact Hnd | exact Hlen].
Defined.

(** * Registering functions: what is kept and what is added *)

(** X10.  The first registration of a name wins.  Once [AddCustomFn] has
    been called for a name, a second call for it returns the error and
    changes nothing, and so does the option of the package that guards that
    name; in the same way [AddCustomFn] fails after that option.  No other
    name of the function map is touched. *)
Theorem first_registration_wins (c : Config) (fn fn' : Func)
    (nm helpText helpText' : string) :
  let c1 := (AddCustomFn c fn nm helpText).1 in
  AddCustomFn c1 fn' nm helpText' = (c1, Some (nm +:+ " already exists")) /\
  (funcMap c !! nm = None -> funcMap c1 !! nm = Some fn) /\
  (forall k : string, k <> nm -> funcMap c1 !! k = funcMap c !! k) /\
  (forall opt : Config -> Config, (nm, opt) ∈ single_options ->
     opt c1 = c1 /\
     AddCustomFn (opt c) fn nm helpText = (opt c, Some (nm +:+ " already exists"))).
Proof.
  intros c1.
  assert (Hs : is_Some (funcMap c1 !! nm)).
  { unfold c1, AddCustomFn.
    destruct (decide (is_Some (funcMap c !! nm))) as [Hs | Hn]; [exact Hs |].
    cbv zeta. cbn [funcMap funcHelp].
    destruct (decide (strings.TrimRightFunc helpText unicode.IsSpace = ""));
      cbn [fst funcMap]; rewrite lookup_insert_eq; by eexists. }
  split; [| split; [| split]].
  - unfold AddCustomFn at 1. by rewrite decide_True.
  - intros Hnone. unfold c1, AddCustomFn.
    rewrite decide_False by (rewrite Hnone; by apply is_Some_None).
    cbv zeta. cbn [funcMap funcHelp].
    destruct (decide (strings.TrimRightFunc helpText unicode.IsSpace = ""));
      cbn [fst funcMap]; apply lookup_insert_eq.
  - intros k Hk. unfold c1, AddCustomFn.
    destruct (decide (is_Some (funcMap c !! nm))); [reflexivity |].
    cbv zeta. cbn [funcMap funcHelp].
    destruct (decide (strings.TrimRightFunc helpText unicode.IsSpace = ""));
      cbn [fst funcMap]; by rewrite lookup_insert_ne.
  - intros opt Hopt.
    apply single_options_enable in Hopt as (f & hlp & idx & -> & _ & _).
    split; [by apply enable_present |].
    unfold AddCustomFn. rewrite decide_True; [reflexivity |].
    apply enable_registers.
Qed.

Lemma first_registration_wins_witness :
  let c1 := (AddCustomFn empty_config (UserFn 1) "head" "- my own head").1 in
  AddCustomFn c1 (UserFn 2) "head" "- another one"
    = (c1, Some "head already exists") /\
  OptHead c1 = c1.
Proof.
  intros c1.
  destruct (first_registration_wins empty_config (UserFn 1) (UserFn 2)
              "head" "- my own head" "- another one") as (H1 & _ & _ & H4).
  split; [exact H1 |]. apply H4. unfold single_options.
  repeat (first [ apply list_elem_of_here | apply list_elem_of_further ]).
Defined.

Lemma extends_refl (c : Config) : extends c c.
Proof.
  split; [reflexivity |]. exists []. split; [by rewrite app_nil_r | constructor].
Qed.

Lemma extends_trans (c1 c2 c3 : Config) :
  extends c1 c2 -> extends c2 c3 -> extends c1 c3.
Proof.
  intros (Hm1 & a1 & Hh1 & Ha1) (Hm2 & a2 & Hh2 & Ha2). split.
  - by transitivity (funcMap c2).
  - exists (a1 ++ a2)%list. split; [by rewrite Hh2, Hh1, app_assoc |].
    apply Forall_app. split; [exact Ha1 |].
    eapply Forall_impl; [exact Ha2 |]. cbn beta. intros h Hnone.
    by apply (lookup_weaken_None _ _ _ Hnone).
Qed.

Lemma extends_insert (c : Config) (nm : string) (fn : Func)
    (added : list funcHelpInfo) :
  funcMap c !! nm = None -> Forall (fun h => name h = nm) added ->
  extends c {| funcMap := <[nm := fn]> (funcMap c);
               funcHelp := funcHelp c ++ added |}.
Proof.
  intros Hnone Hadd. split; cbn [funcMap funcHelp].
  - by apply insert_subseteq.
  - exists added. split; [reflexivity |].
    eapply Forall_impl; [exact Hadd |]. cbn beta. by intros h ->.
Qed.

Lemma enable_extends nm fn hlp idx c : extends c (enable nm fn hlp idx c).
Proof.
  unfold enable. destruct (decide (is_Some (funcMap c !! nm))) as [Hs | Hn].
  - apply extends_refl.
  - apply extends_insert.
    + by apply eq_None_not_Some.
    + by apply Forall_singleton.
Qed.

Lemma AddCustomFn_extends c fn nm helpText :
  extends c (AddCustomFn c fn nm helpText).1.
Proof.
  unfold AddCustomFn.
  destruct (decide (is_Some (funcMap c !! nm))) as [Hs | Hn];
    [apply extends_refl |].
  cbv zeta. cbn [funcMap funcHelp].
  destruct (decide (strings.TrimRightFunc helpText unicode.IsSpace = ""));
    cbn [fst].
  - rewrite <- (app_nil_r (funcHelp c)). apply extends_insert.
    + by apply eq_None_not_Some.
    + constructor.
  - apply extends_insert.
    + by apply eq_None_not_Some.
    + by apply Forall_singleton.
Qed.

Lemma concat_help_app (l k : list funcHelpInfo) :
  concat_help (l ++ k) = concat_help l +:+ concat_help k.
Proof.
  unfold concat_help. induction l as [| h l IH]; cbn [app fold_right].
  - by rewrite append_empty_l.
  - by rewrite IH, append_assoc.
Qed.

Lemma extends_help (c c' : Config) :
  extends c c' ->
  exists rest : string,
    TemplateFunctionHelp (Some c') = TemplateFunctionHelp (Some c) +:+ rest.
Proof.
  intros (_ & added & Hh & _). exists (concat_help added).
  rewrite !TemplateFunctionHelp_concat. cbn [getHelpers].
  by rewrite Hh, concat_help_app, append_assoc.
Qed.

(** X11.  Registering only adds.  [AddCustomFn], the options that
    enable one function and [OptAllFilters] keep every function of the
    Config and append usage texts, for names it did not have, behind the
    texts it had; so the text of [TemplateFunctionHelp] only grows at its
    end, and the names of [TemplateFunctionNames] too. *)
Theorem registration_only_adds (c c' : Config) :
  (exists fn nm helpText, c' = (AddCustomFn c fn nm helpText).1) \/
  c' = OptAllFilters c \/
  (exists nm opt, (nm, opt) ∈ single_options /\ c' = opt c) ->
  extends c c' /\
  (exists rest : string,
     TemplateFunctionHelp (Some c') = TemplateFunctionHelp (Some c) +:+ rest) /\
  (exists names : list string,
     TemplateFunctionNames (Some c') =
     (TemplateFunctionNames (Some c) ++ names)%list /\
     Forall (fun nm => funcMap c !! nm = None) names).
Proof.
  intros H.
  assert (Hext : extends c c').
  { destruct H as [(fn & nm & helpText & ->) | [-> | (nm & opt & Hopt & ->)]].
    - apply AddCustomFn_extends.
    - rewrite OptAllFilters_enable.
      repeat (eapply extends_trans; [| apply enable_extends]).
      apply extends_refl.
    - apply single_options_enable in Hopt as (fn & hlp & idx & -> & _ & _).
      apply enable_extends. }
  split; [exact Hext |]. split; [by apply extends_help |].
  destruct Hext as (_ & added & Hh & Hadd).
  exists (map name added). unfold TemplateFunctionNames. cbn [getHelpers].
  split; [by rewrite Hh, map_app |]. by apply Forall_fmap.
Qed.

Lemma registration_only_adds_witness :
  let c := NewConfig insertion_sort [OptTail] in
  exists rest : string,
    TemplateFunctionHelp (Some (OptAllFilters c)) =
    TemplateFunctionHelp (Some c) +:+ rest.
Proof.
  intros c.
  destruct (registration_only_adds c (OptAllFilters c)) as (_ & H & _).
  - right. left. reflexivity.
  - exact H.
Defined.

(** X12.  [NewConfig] is the only place where the usage texts are
    sorted.  An option of the package applied to the Config that [NewConfig]
    returned puts the text of a function that was not enabled behind all
    others; the result is the Config that [NewConfig] builds with that
    option added exactly when no enabled function has a higher priority
    index. *)
Theorem option_after_NewConfig (sort_Sort : Config -> Config)
    (options : list (Config -> Config)) (nm : string) (opt : Config -> Config) :
  sort_Sort_contract sort_Sort ->
  Forall (fun o => o ∈ package_options) options ->
  (nm, opt) ∈ single_options ->
  let c := NewConfig sort_Sort options in
  funcMap c !! nm = None ->
  exists h : funcHelpInfo,
    h ∈ pkg.funcHelpSlice /\ name h = nm /\
    funcHelp (opt c) = (funcHelp c ++ [h])%list /\
    (opt c = NewConfig sort_Sort (options ++ [opt])%list <->
     forall x, x ∈ funcHelp c -> index x < index h).
Proof.
  intros Hsort Hall Hopt c Hnone.
  assert (Hpkg : opt ∈ package_options).
  { clear -Hopt. unfold single_options in Hopt. list_cases Hopt;
      injection Hopt as _ ->; unfold package_options;
      repeat (first [ apply list_elem_of_here | apply list_elem_of_further ]). }
  destruct (single_options_enable nm opt Hopt) as (fn & hlp & idx & Eopt & Hfn & Hin).
  subst opt.
  set (h := {| name := nm; help := hlp; index := idx |}) in *.
  destruct (NewConfig_spec sort_Sort options Hsort Hall) as (Hft & Hd & Hh).
  fold c in Hft, Hd, Hh.
  assert (Hall' : Forall (fun o => o ∈ package_options) (options ++ [enable nm fn hlp idx])%list).
  { apply Forall_app. split; [exact Hall | by apply Forall_singleton]. }
  destruct (NewConfig_spec sort_Sort _ Hsort Hall') as (Hft' & Hd' & Hh').
  assert (Eoc : (enable nm fn hlp idx) c = {| funcMap := <[nm := fn]> (funcMap c);
                           funcHelp := funcHelp c ++ [h] |}).
  { unfold enable. rewrite decide_False; [reflexivity |].
    rewrite Hnone. by apply is_Some_None. }
  assert (Hfto : from_tables ((enable nm fn hlp idx) c)).
  { by apply enable_from_tables. }
  assert (Hsorted : StronglySorted by_priority (funcHelp c)).
  { unfold c, NewConfig. cbv zeta. by apply contract_sorted. }
  assert (Hdom : dom (funcMap ((enable nm fn hlp idx) c)) =
                 dom (funcMap (NewConfig sort_Sort (options ++ [enable nm fn hlp idx])%list))).
  { rewrite Hd', fmap_app, union_list_app_L, <- Hd.
    rewrite enable_dom. f_equal.
    cbn [fmap list_fmap union_list foldr]. rewrite (right_id_L ∅ (∪)).
    by rewrite enabled_by_enable. }
  assert (Hlt : forall x, x ∈ funcHelp c -> index x <= index h -> index x < index h).
  { intros x Hx Hle. destruct Hft as (_ & _ & Hiff). apply Hiff in Hx as [Hx Hs].
    destruct (decide (index x = index h)) as [Heq | Hne]; [| lia].
    apply funcHelpSlice_index_inj in Heq; [| done | done]. subst x.
    cbn [name h] in Hs. rewrite Hnone in Hs. by apply is_Some_None in Hs. }
  exists h. split; [exact Hin |]. split; [reflexivity |].
  split; [by rewrite Eoc |]. split.
  - intros Heq x Hx. apply Hlt; [exact Hx |].
    assert (Hs' : StronglySorted by_priority (funcHelp ((enable nm fn hlp idx) c))).
    { rewrite Heq. unfold NewConfig. cbv zeta. by apply contract_sorted. }
    rewrite Eoc in Hs'. cbn [funcHelp] in Hs'.
    apply StronglySorted_app in Hs' as (Hcross & _ & _).
    apply (Hcross x h Hx). apply list_elem_of_here.
  - intros Hbelow.
    assert (Hs' : StronglySorted by_priority (funcHelp ((enable nm fn hlp idx) c))).
    { rewrite Eoc. cbn [funcHelp]. apply StronglySorted_app.
      split; [| split; [exact Hsorted | repeat constructor]].
      intros x y Hx Hy. apply list_elem_of_singleton in Hy. subst y.
      unfold by_priority. specialize (Hbelow x Hx). lia. }
    apply from_tables_sorted_canonical in Hs'; [| exact Hfto].
    destruct (from_tables_determined _ _ Hfto Hft' Hdom) as [Hmap _].
    destruct ((enable nm fn hlp idx) c) as [m1 l1],
             (NewConfig sort_Sort (options ++ [enable nm fn hlp idx])%list) as [m2 l2].
    unfold enabled_help in *. cbn [funcMap funcHelp] in Hmap, Hs', Hh'.
    subst m2. by rewrite Hs', Hh'.
Qed.

Lemma option_after_NewConfig_witness :
  let c := NewConfig insertion_sort [OptTail] in
  exists h : funcHelpInfo,
    funcHelp (OptHead c) = (funcHelp c ++ [h])%list /\
    (OptHead c = NewConfig insertion_sort [OptTail; OptHead] <->
     forall x, x ∈ funcHelp c -> index x < index h).
Proof.
  intros c.
  destruct (option_after_NewConfig insertion_sort [OptTail] "head" OptHead)
    as (h & _ & _ & Hh & Hiff).
  - exact insertion_sort_contract.
  - apply Forall_singleton. unfold package_options.
    repeat (first [ apply list_elem_of_here | apply list_elem_of_further ]).
  - unfold single_options.
    repeat (first [ apply list_elem_of_here | apply list_elem_of_further ]).
  - vm_compute. reflexivity.
  - exists h. split; [exact Hh | exact Hiff].
Defined.

(** * The form of the usage texts *)

Lemma append_split (a b c d : string) :
  a +:+ b = c +:+ d ->
  (exists v, c = a +:+ v /\ b = v +:+ d) \/
  (exists v, a = c +:+ v /\ d = v +:+ b).
Proof.
  revert c. induction a as [| x a IH]; intros c H.
  - left. exists c. by rewrite !append_empty_l in *.
  - destruct c as [| y c].
    + right. exists (String x a). by rewrite !append_empty_l in *.
    + rewrite !append_cons in H. injection H as -> H.
      destruct (IH c H) as [(v & -> & ->) | (v & -> & ->)].
      * left. exists v. by rewrite append_cons.
      * right. exists v. by rewrite append_cons.
Qed.

Lemma append_empty_inv (a b : string) : a +:+ b = "" -> b = "".
Proof.
  intros H. apply len_empty_inv.
  assert (Hl : len (a +:+ b) = 0) by (by rewrite H).
  rewrite len_append in Hl.
  pose proof (len_nonneg a). pose proof (len_nonneg b). lia.
Qed.

Lemma space_at_end (t v : string) :
  only_space v -> v <> "" ->
  unicode.IsSpace (utf8.DecodeLastRuneInString (t +:+ v)).1 = true.
Proof.
  intros (rs & Hrs & ->) Hne. destruct rs as [| x rs _] using rev_ind; [done |].
  apply Forall_app in Hrs as [_ Hx]. apply Forall_cons in Hx as [Hx _].
  rewrite encode_runes_snoc, <- append_assoc.
  destruct (space_encoding x Hx) as (_ & _ & Hlast). by rewrite Hlast.
Qed.

Lemma only_space_split (u v u' : string) :
  only_space u -> only_space u' -> u = v +:+ u' -> only_space v.
Proof.
  intros (rs & Hrs & ->) (ws & Hws & ->) H.
  by apply (only_space_prefix ws rs).
Qed.

(** [strings.TrimRightFunc] with [unicode.IsSpace] is determined by its
    result: the one way to cut a string into a text that does not end in
    white space and a rest of white space. *)
Lemma TrimRightFunc_unique (s t u : string) :
  s = t +:+ u -> only_space u ->
  (t = "" \/ unicode.IsSpace (utf8.DecodeLastRuneInString t).1 = false) ->
  strings.TrimRightFunc s unicode.IsSpace = t.
Proof.
  intros Hs Hu Hlast.
  destruct (TrimRightFunc_IsSpace s) as (u' & Hs' & Hu' & Hlast').
  set (t' := strings.TrimRightFunc s unicode.IsSpace) in *.
  assert (Hend : forall a v w w' : string,
            a +:+ v <> "" -> only_space w -> only_space w' -> w = v +:+ w' ->
            (a +:+ v = "" \/
             unicode.IsSpace (utf8.DecodeLastRuneInString (a +:+ v)).1 = false) ->
            v = "").
  { intros a v w w' Hne Hw Hw' Hsplit [He | Hns]; [done |].
    destruct (decide (v = "")) as [Hv | Hv]; [exact Hv |].
    assert (Hsp := only_space_split w v w' Hw Hw' Hsplit).
    rewrite (space_at_end a v Hsp Hv) in Hns. discriminate. }
  rewrite Hs in Hs'. apply append_split in Hs' as [(v & Ht' & Hu2) | (v & Ht & Hu2)].
  - destruct (decide (v = "")) as [Hv | Hv].
    + rewrite Ht', Hv. apply append_empty_r.
    + exfalso. apply Hv. apply (Hend t v u u'); try done.
      * intros He. by apply append_empty_inv in He.
      * by rewrite <- Ht'.
  - destruct (decide (v = "")) as [Hv | Hv].
    + rewrite Ht, Hv. symmetry. apply append_empty_r.
    + exfalso. apply Hv. apply (Hend t' v u' u); try done.
      * intros He. by apply append_empty_inv in He.
      * by rewrite <- Ht.
Qed.

Lemma only_space_nl : only_space nl.
Proof.
  exists [10]. split; [| reflexivity].
  apply Forall_singleton. reflexivity.
Qed.

Lemma AddCustomFn_text_trimmed (helpText : string) :
  strings.TrimRightFunc helpText unicode.IsSpace <> "" ->
  trimmed_text (strings.TrimRightFunc helpText unicode.IsSpace +:+ nl).
Proof.
  intros Hne.
  destruct (TrimRightFunc_IsSpace helpText) as (u & _ & _ & Hlast).
  assert (E : strings.TrimRightFunc
                (strings.TrimRightFunc helpText unicode.IsSpace +:+ nl)
                unicode.IsSpace
              = strings.TrimRightFunc helpText unicode.IsSpace).
  { apply (TrimRightFunc_unique _ _ nl); [reflexivity | apply only_space_nl | exact Hlast]. }
  unfold trimmed_text. rewrite E. by split.
Qed.

Lemma trimmed_textb_ok (s : string) : trimmed_textb s = true -> trimmed_text s.
Proof.
  unfold trimmed_textb, trimmed_text. intros H.
  apply andb_prop in H as [H1 H2]. split.
  - apply negb_true_iff, bool_decide_eq_false in H1. exact H1.
  - by apply bool_decide_eq_true in H2.
Qed.

Lemma funcHelpSlice_trimmed (h : funcHelpInfo) :
  h ∈ pkg.funcHelpSlice -> trimmed_text (help h).
Proof.
  intros H. apply trimmed_textb_ok.
  assert (Hall : forallb (fun h => trimmed_textb (help h)) pkg.funcHelpSlice = true)
    by (vm_compute; reflexivity).
  rewrite forallb_forall in Hall. apply Hall. by apply list_elem_of_In.
Qed.

Lemma enable_help_from nm fn hlp idx c h :
  h ∈ funcHelp (enable nm fn hlp idx c) ->
  h ∈ funcHelp c \/ h = {| name := nm; help := hlp; index := idx |}.
Proof.
  unfold enable. destruct (decide (is_Some (funcMap c !! nm))); [by left |].
  cbn [funcHelp]. rewrite elem_of_app, list_elem_of_singleton. tauto.
Qed.

Lemma package_option_help_from (opt : Config -> Config) (c : Config)
    (h : funcHelpInfo) :
  opt ∈ package_options -> h ∈ funcHelp (opt c) ->
  h ∈ funcHelp c \/ h ∈ pkg.funcHelpSlice.
Proof.
  intros Hopt Hh. apply package_options_cases in Hopt as [-> | [-> | [nm Hopt]]].
  - by right.
  - rewrite OptAllFilters_enable in Hh.
    repeat (apply enable_help_from in Hh as [Hh | ->];
            [| right; unfold pkg.funcHelpSlice;
               repeat (first [ apply list_elem_of_here | apply list_elem_of_further ])]).
    by left.
  - apply single_options_enable in Hopt as (fn & hlp & idx & -> & _ & Hin).
    apply enable_help_from in Hh as [Hh | ->]; [by left | by right].
Qed.

(** X13.  Every usage text a Config holds has the form in which
    [AddCustomFn] stores one: it ends in one newline with no white space
    before it, so [TemplateFunctionHelp] prints one entry after the other
    without blank lines of its own.  Such a text survives a second
    registration unchanged: given to [AddCustomFn] under a new name, it is
    stored as it is. *)
Theorem help_texts_trimmed (sort_Sort : Config -> Config) (c : Config) :
  sort_Sort_contract sort_Sort -> reachable sort_Sort c ->
  forall h : funcHelpInfo, h ∈ funcHelp c ->
    trimmed_text (help h) /\
    forall (fn : Func) (nm : string), funcMap c !! nm = None ->
      funcHelp (AddCustomFn c fn nm (help h)).1 =
      (funcHelp c ++ [ {| name := nm; help := help h; index := helpIndexCount |} ])%list.
Proof.
  intros Hsort Hc.
  assert (Hinv : forall h, h ∈ funcHelp c -> trimmed_text (help h)).
  { induction Hc as [options Hall | c opt Hc IH Hopt | c fn nm helpText Hc IH];
      intros h Hh.
    - destruct (NewConfig_spec sort_Sort options Hsort Hall) as ((_ & _ & Hiff) & _).
      apply Hiff in Hh as [Hh _]. by apply funcHelpSlice_trimmed.
    - apply (package_option_help_from opt c h Hopt) in Hh as [Hh | Hh];
        [by apply IH | by apply funcHelpSlice_trimmed].
    - revert Hh. unfold AddCustomFn.
      destruct (decide (is_Some (funcMap c !! nm))); [by apply IH |].
      cbv zeta. cbn [funcMap funcHelp].
      destruct (decide (strings.TrimRightFunc helpText unicode.IsSpace = ""))
        as [He | Hne]; cbn [fst funcHelp]; [by apply IH |].
      rewrite elem_of_app, list_elem_of_singleton. intros [Hh | ->];
        [by apply IH |].
      cbn [help]. by apply AddCustomFn_text_trimmed. }
  intros h Hh. specialize (Hinv h Hh). split; [exact Hinv |].
  intros fn nm Hnone. destruct Hinv as [Hne Heq].
  unfold AddCustomFn. rewrite decide_False by (rewrite Hnone; by apply is_Some_None).
  cbv zeta. cbn [funcMap funcHelp]. rewrite decide_False by exact Hne.
  cbn [fst funcHelp]. by rewrite Heq.
Qed.

Lemma help_texts_trimmed_witness :
  let c := (AddCustomFn (NewConfig insertion_sort [OptTail])
              (UserFn 1) "sum" ("- sum adds numbers  " +:+ nl +:+ nl)).1 in
  trimmed_text ("- sum adds numbers" +:+ nl) /\
  funcHelp (AddCustomFn c (UserFn 2) "add" ("- sum adds numbers" +:+ nl)).1 =
  (funcHelp c ++ [ {| name := "add"; help := "- sum adds numbers" +:+ nl;
                      index := helpIndexCount |} ])%list.
Proof.
  intros c.
  destruct (help_texts_trimmed insertion_sort c insertion_sort_contract)
    with (h := {| name := "sum"; help := "- sum adds numbers" +:+ nl;
                  index := helpIndexCount |}) as [Ht Hadd].
  - apply reachable_custom. apply reachable_new.
    apply Forall_singleton. unfold package_options.
    repeat (first [ apply list_elem_of_here | apply list_elem_of_further ]).
  - vm_compute. apply list_elem_of_further, list_elem_of_here.
  - split; [exact Ht |]. apply (Hadd (UserFn 2) "add"). vm_compute. reflexivity.
Defined.

(** * OutputToTemplate *)

(** X14.  [OutputToTemplate] writes nothing when the template source
    does not parse: it returns the error of the parser and leaves the writer
    as it was, whatever executing would do.  When the source parses, the
    result is that of executing the template.  For a source that is not
    empty this is [CreateTemplate] followed by [Execute]; for the empty
    source [CreateTemplate] fails with its own error, while
    [OutputToTemplate] hands the source to the parser all the same. *)
Theorem OutputToTemplate_parse_then_execute {Template Writer Object : Type}
    (template_Parse :
       string -> gmap string Func -> string -> option Template * option string)
    (template_Execute :
       option Template -> Writer -> Object -> Writer * option string)
    (w : Writer) (nm tmplSrc : string) (obj : Object) (cfg : option Config) :
  let parsed := template_Parse nm (getFuncMap cfg) tmplSrc in
  let out := OutputToTemplate template_Parse template_Execute w nm tmplSrc obj cfg in
  (forall e : string, parsed.2 = Some e -> out = (w, Some e)) /\
  (parsed.2 = None -> out = template_Execute parsed.1 w obj) /\
  (tmplSrc <> "" ->
   out = match CreateTemplate template_Parse nm tmplSrc cfg with
         | (_, Some e) => (w, Some e)
         | (t, None) => template_Execute t w obj
         end) /\
  (tmplSrc = "" ->
   (CreateTemplate template_Parse nm tmplSrc cfg).2 =
     Some ("template " +:+ nm +:+ " contains no source") /\
   out = match template_Parse nm (getFuncMap cfg) "" with
         | (_, Some e) => (w, Some e)
         | (t, None) => template_Execute t w obj
         end).
Proof.
  intros parsed out.
  assert (Hout : out = match parsed with
                       | (_, Some e) => (w, Some e)
                       | (t, None) => template_Execute t w obj
                       end).
  { unfold out, OutputToTemplate. fold parsed.
    destruct parsed as [t [e |]]; [reflexivity |].
    by destruct (template_Execute t w obj) as [w' [e |]]. }
  split; [| split; [| split]].
  - intros e He. rewrite Hout. destruct parsed as [t err]. cbn [snd] in He.
    by rewrite He.
  - intros He. rewrite Hout. destruct parsed as [t err]. cbn [snd] in He.
    by rewrite He.
  - intros Hne. rewrite Hout. unfold CreateTemplate.
    by rewrite decide_False.
  - intros ->. split.
    + unfold CreateTemplate. by rewrite decide_True.
    + exact Hout.
Qed.

Lemma OutputToTemplate_parse_then_execute_witness :
  let parse := fun (_ : string) (m : gmap string Func) (src : string) =>
    if decide (is_Some (m !! src)) then (Some src, @None string)
    else (@None string, Some ("function " +:+ src +:+ " not defined")) in
  let exec := fun (t : option string) (w : string) (obj : string) =>
    (w +:+ obj, @None string) in
  OutputToTemplate parse exec "out: " "t" "tail" "x"
    (Some (NewConfig insertion_sort [OptHead]))
  = ("out: ", Some "function tail not defined").
Proof.
  intros parse exec.
  destruct (OutputToTemplate_parse_then_execute parse exec "out: " "t" "tail" "x"
              (Some (NewConfig insertion_sort [OptHead]))) as (H & _).
  apply H. vm_compute. reflexivity.
Defined.
